(* ===== verification/_CoqProject ===== *)
-Q . S2P
Prelude.v
BaseMapper.v
Dispatcher.v
RustStd.v
Utf8.v
F64.v
ProcMacro.v
Threads.v
Basics.v
Ownership.v
SharedPool.v
Minigrep.v
