(* ===== verification/Prelude.v ===== *)
(** * A verification library for the Learning-rust repository

    The repository is a set of Rust programs.  Most are teaching snippets;
    one is the data-access layer of a URL mapper.  This library models each
    of them as executable Rocq definitions (a shallow embedding: a Rust
    function is a Rocq function, its state a record passed explicitly, a
    panic an [Err], a loop a [Fixpoint] with fuel or over its data) and
    proves what makes them correct.  The files, in dependency order:

    - [Prelude] (this file): the vocabulary shared by all: [result]
      (Rust's [Result<T, E>]) with its bind [x <-? c ;; k] in [rust_scope];
      [fuel_result], a result computed with fuel ([None]: out of fuel), with
      its bind [x <-! c ;; k]; Rust's primitive integers [i32], [u32],
      [i64], [usize] as [Z] with their width, written-out wrap-around
      ([wrap], [wrapping_add]: release builds) and checked arithmetic
      ([checked_add], [checked_div], ...: debug builds, where [None] is a
      panic); the [rustdb] hint database (the bind and [ok_or] equations,
      the range of wrapped values) that the component proofs use.

    - [BaseMapper]: src/projs/url-mapper-rs/src/dao/base_mapper.rs.  The
      request enum [BaseMapperEnum], each variant carrying a [Responder]; the
      trait [BaseMapper] as a typeclass whose methods act on the state behind
      the borrowed connection; its contract against an abstract keyed store
      ([BaseMapperLaws], spec section 4.1); a table-backed implementation
      ([TableMapper], modelled from the spec since the repository has none)
      with the refinement theorem [TableMapper_laws]; and the client lemma
      the dispatcher uses (a create then a read of the same key), proved
      against the class alone.  The contract covers stores that persist
      the entity they are given; spec 4.1 also allows stores that assign
      keys, which it does not cover.

    - [Dispatcher]: the actor loop of spec sections 4.2, 5 and 7, which the
      repository describes but does not implement, so it is modelled from
      the spec.  A dispatcher owns the inbound queue of envelopes, a
      connection pool, the database and the oneshot reply slots of its
      callers; its loop [run] iterates a step function [dstep] with fuel,
      and callers (send, cancel), the pool's other users and timeouts
      interleave with it in the step relation [sys_step].  Every reachable
      state satisfies the invariant [dinv] (answers in FIFO order, each
      slot resolved exactly once, pool usage within bounds); one iteration
      answers the head envelope with its trait method's result; a dropped
      receiver commutes with every step; a closed pool answers every queued
      envelope with [PoolClosed]; [3 * queue length + 3] iterations drain
      the queue once the senders are gone and the pool is closed or free:
      then every step of [dstep] lowers the measure [dmeasure], which
      counts three steps per queued envelope.

    - [SharedPool]: spec section 5 scales the dispatcher out to several
      instances against one pool; modelled from the spec.  Each instance
      runs [dstep] unchanged; the pool's connections have identities (a
      free list and each dispatcher's lease: [acquire()] hands out a free
      connection, the drop of a handle returns it); a step of one
      dispatcher is seen by all ([broadcast]: the shared pool counter and
      database).  Every reachable state keeps the connections exclusive
      ([minv]: none both free and leased or leased twice, a lease exactly
      while a handle is held), and each dispatcher's state is reachable in
      the single-dispatcher model, whose environment steps (other users
      acquiring, releasing and writing the database) simulate the others:
      the theorems of [Dispatcher] hold of every instance.  An executable
      scheduler ([mrun]) replays the scenario of spec section 8 across two
      dispatchers.

    - [RustStd]: what the programs use of the standard library: [str::find]
      of an ASCII character, byte slices, [u32::from_str] (the
      [from_str_radix] algorithm, with checked arithmetic and its error
      kinds) and decimal printing [show_dec], with the round trip
      [parse_u32 (show_dec n) = Ok n] on the [u32] range and the overflow
      error beyond it.

    - [Utf8]: the UTF-8 validation of [str::from_utf8] that [read_line]
      applies ([utf8_valid], after [run_utf8_validation]), read one
      character at a time ([utf8_valid_step]) and closed under
      concatenation; against the reference [encode_char] (the encoding of
      [char::encode_utf8], on [Z] code points) it accepts exactly the
      encodings of sequences of Unicode scalar values
      ([utf8_valid_encode]).

    - [F64]: Rust's [f64] as Rocq's primitive binary64 [float] (IEEE 754,
      round to nearest even, as Rust's), [u32 as f64], [consts::PI], and
      [format!("{}", x)] of a double ([display_f64]): the shortest decimal
      that reads back as it, the closest among the shortest, written
      without an exponent.  It is computed exactly in [Q] on the value
      [m * 2^e] of the double: the decimals that read back as it are its
      rounding interval ([in_interval]); an exponent [k] is [good] when a
      multiple of [10^k] lies there, which is downward closed; the search
      starts at an estimate of [log10] and goes up or down, its fuel the
      distance to [k_top] (above the interval: nothing is good from there)
      or to [k_bot] ([10^k_bot <= 2^(e-2)], below the interval's width:
      always good), so it always ends at the largest good exponent.  The
      theorem [display_f64_shortest] states the three properties of what
      is printed; [display_f64_values] pins the text of some doubles.

    - [ProcMacro]: src/pro/attri-hello/src/lib.rs ([hello_attribute],
      [show_streams], [repeat]) and the [feature] test of
      src/pro/attri-hello-call/src/main.rs.  [repeat] in closed form: each
      item is the function renamed with a numeric suffix, re-lexed by
      [syn::parse] of line 29 (the class [Lexer]: what the macro needs of
      the tokenizer; [rust_lexer] is a tokenizer of Rust's strings,
      characters, comments and brackets) and unwrapped, so the expansion
      panics when a renamed item does not lex; the items that do are
      pairwise distinct.

    - [Threads]: src/lang/src/thread.rs. [guss], [find] over [char_indices]
      (its specification on Unicode scalar values, and its agreement with
      the byte search on ASCII), the [i32] summation loop of [main] in a
      debug build (it panics at the first [i] whose partial sum leaves the
      [i32] range, for every start and bound: [i = 65536] in [main]) and a
      release build (it wraps: 704982705 is printed), and the five threads
      of [main], with their joins, mpsc channel and atomic, as the step
      relation [tstep]: every reachable state has exactly one successor, so
      the only schedule ends after exactly 15 steps and prints the same five
      lines. The state space is small enough that the reachable states are
      computed ([tpath]) and checked by [vm_compute]. The traits of
      thread.rs ([Traits]: [HasArea] with the [f64] area of its [Circle],
      [Debug] and [Clone], with the generic [foo] and [foo1]) are classes
      with their instances. [main] as a whole is [thread_main], in a debug
      or a release build: it prints the area [3.141592653589793], and panics
      in [unwrap] when [SystemTime::elapsed] fails (the clock gone
      backwards; what it reads of the clocks is an input, [Clock]).

    - [Basics]: src/lang/src/base.rs and src/lang/src/shape/mod.rs. The
      structs and functions (the [f64] [area] of both [Circle]s included),
      [main] section by section with its stdout (the area printed as
      [3.14159]) and its stderr (the two [dbg!] lines), [divmod] with its
      panics, the [while] loop's termination and overflow, and the guessing
      game over the bytes of stdin: [read_line] checks each line is UTF-8
      and its [expect] panics when it is not; [trim] keeps valid text valid
      and strips exactly the maximal runs of Unicode whitespace (the table
      [ws_chars] of its encodings) at both ends; the game stops at the first
      line that parses to the secret, panics at the first line that is not
      UTF-8, and loops for ever at the end of the input. The fuel of [main]
      is that of its [while] loop: 6 rounds, proved enough.

    - [Ownership]: src/lang/base/src/ownership.rs, its demos as statements
      run by an interpreter with a scope stack and a heap of [String]
      buffers (moves, clones, drops).  The interpreter is Rust's semantics,
      not repository code; its invariant [owf] and the freeing lemma are
      checks of the model, and [main] prints the six lines of the demos.

    - [Minigrep]: src/projs/minigrep/main.rs against a typeclass interface
      [MinigrepLib] of its library, which the repository does not contain.

    Not modelled: the values of random numbers and clock readings (they
    are inputs), the sqlx wire protocol and the internals of the
    connection pool (external collaborators per the spec), the library of
    minigrep (not in the repository), and the closure examples of
    thread.rs, which are comments. *)

From stdpp Require Export base list gmap strings.
From Stdlib Require Export ZArith Lia.
From Stdlib Require Import Ascii.

(** ** Rust's [Result<T, E>] *)

Inductive result (A E : Type) : Type :=
| Ok (a : A)
| Err (e : E).
Arguments Ok {A E} a.
Arguments Err {A E} e.

Declare Scope rust_scope.
Delimit Scope rust_scope with rust.

Definition result_bind {A B E} (r : result A E) (k : A -> result B E) : result B E :=
  match r with Ok a => k a | Err e => Err e end.

Definition result_map {A B E} (f : A -> B) (r : result A E) : result B E :=
  match r with Ok a => Ok (f a) | Err e => Err e end.

Definition is_ok {A E} (r : result A E) : bool :=
  match r with Ok _ => true | Err _ => false end.

Definition ok_or {A E} (o : option A) (e : E) : result A E :=
  match o with Some a => Ok a | None => Err e end.

Notation "x <-? c ;; k" := (result_bind c (fun x => k))
  (at level 200, c at level 99, k at level 200) : rust_scope.

(** [n] rounds of a step that may fail, stopping at the first error. *)
Fixpoint result_iter {A E} (n : nat) (f : A -> result A E) (a : A) : result A E :=
  match n with O => Ok a | S n => result_bind (f a) (result_iter n f) end.

(** A program run with fuel: [None] when the fuel runs out before it
    returns, [Some (Err e)] when it panics with [e]. *)
Definition fuel_result (A E : Type) : Type := option (result A E).

Definition fuel_bind {A B E} (m : fuel_result A E) (k : A -> fuel_result B E) : fuel_result B E :=
  match m with
  | Some (Ok a) => k a
  | Some (Err e) => Some (Err e)
  | None => None
  end.

Notation "x <-! c ;; k" := (fuel_bind c (fun x => k))
  (at level 200, c at level 99, k at level 200) : rust_scope.

#[export] Instance result_eq_dec {A E} `{EqDecision A, EqDecision E} :
  EqDecision (result A E).
Proof. solve_decision. Defined.

(** ** Rust's primitive integers *)

Local Open Scope Z_scope.

(** An integer type is its width and signedness; a value is a [Z] that the
    operations keep in range, either by wrapping (release builds, the
    [wrapping_*] methods) or by panicking (debug builds, the [checked_*]
    methods returning [None]). *)
Record IntTy := { bits : Z; signed : bool }.

Definition i32 : IntTy := {| bits := 32; signed := true |}.
Definition u32 : IntTy := {| bits := 32; signed := false |}.
Definition i64 : IntTy := {| bits := 64; signed := true |}.
Definition usize : IntTy := {| bits := 64; signed := false |}.

Definition min_of (ty : IntTy) : Z := if signed ty then - 2 ^ (bits ty - 1) else 0.
Definition max_of (ty : IntTy) : Z :=
  if signed ty then 2 ^ (bits ty - 1) - 1 else 2 ^ bits ty - 1.

Definition in_range (ty : IntTy) (z : Z) : bool := (min_of ty <=? z) && (z <=? max_of ty).

(** Two's complement wrap-around: reduce modulo [2^bits] into the range. *)
Definition wrap (ty : IntTy) (z : Z) : Z := (z - min_of ty) mod 2 ^ bits ty + min_of ty.

Definition checked (ty : IntTy) (z : Z) : option Z := if in_range ty z then Some z else None.

Definition checked_add ty (a b : Z) : option Z := checked ty (a + b).
Definition checked_sub ty (a b : Z) : option Z := checked ty (a - b).
Definition checked_mul ty (a b : Z) : option Z := checked ty (a * b).
(** [/] and [%] truncate toward zero ([Z.quot], [Z.rem]); dividing by zero
    panics, and so does the one overflowing quotient [MIN / -1]. *)
Definition checked_div ty (a b : Z) : option Z := if b =? 0 then None else checked ty (Z.quot a b).
Definition checked_rem ty (a b : Z) : option Z :=
  if b =? 0 then None else if in_range ty (Z.quot a b) then Some (Z.rem a b) else None.

Definition wrapping_add ty (a b : Z) : Z := wrap ty (a + b).

(** ** Automation shared by the components *)

Create HintDb rustdb discriminated.
Create Rewrite HintDb rustdb.

(** ** Generic lemmas on [result] *)

Lemma result_bind_Ok {A B E} (a : A) (k : A -> result B E) :
  result_bind (Ok a) k = k a.
Proof. reflexivity. Qed.

Lemma result_bind_Err {A B E} (e : E) (k : A -> result B E) :
  result_bind (Err e) k = Err e.
Proof. reflexivity. Qed.

Lemma result_bind_eq_Ok {A B E} (r : result A E) (k : A -> result B E) b :
  result_bind r k = Ok b -> exists a, r = Ok a /\ k a = Ok b.
Proof. destruct r; simpl; [eauto | discriminate]. Qed.

Lemma ok_or_Some {A E} (a : A) (e : E) : ok_or (Some a) e = Ok a.
Proof. reflexivity. Qed.

Lemma ok_or_None {A E} (e : E) : ok_or (@None A) e = Err e.
Proof. reflexivity. Qed.

Lemma fuel_bind_Ok {A B E} (a : A) (k : A -> fuel_result B E) : fuel_bind (Some (Ok a)) k = k a.
Proof. reflexivity. Qed.

Lemma fuel_bind_Err {A B E} (e : E) (k : A -> fuel_result B E) : fuel_bind (Some (Err e)) k = Some (Err e).
Proof. reflexivity. Qed.

#[export] Hint Rewrite @result_bind_Ok @result_bind_Err @ok_or_Some @ok_or_None
  @fuel_bind_Ok @fuel_bind_Err : rustdb.

(** ** Generic lemmas on the integer model *)

Lemma in_range_spec ty z : in_range ty z = true <-> min_of ty <= z <= max_of ty.
Proof. unfold in_range. rewrite andb_true_iff, !Z.leb_le. tauto. Qed.

Lemma checked_Some ty z v : checked ty z = Some v <-> v = z /\ min_of ty <= z <= max_of ty.
Proof.
  unfold checked. destruct (in_range ty z) eqn:E.
  - rewrite in_range_spec in E. split; [intros [= <-]; auto | intros [-> _]; auto].
  - split; [discriminate | intros [_ Hr]; apply in_range_spec in Hr; congruence].
Qed.

Lemma checked_None ty z : checked ty z = None <-> z < min_of ty \/ max_of ty < z.
Proof.
  unfold checked. destruct (in_range ty z) eqn:E.
  - apply in_range_spec in E. split; [discriminate | lia].
  - split; [| reflexivity]. intros _.
    destruct (Z.le_gt_cases (min_of ty) z); [| lia].
    destruct (Z.le_gt_cases z (max_of ty)); [| lia].
    assert (in_range ty z = true) by (apply in_range_spec; lia). congruence.
Qed.

(** The range of a type is [2^bits] values wide. *)
Lemma max_min_width ty : 0 < bits ty -> max_of ty - min_of ty + 1 = 2 ^ bits ty.
Proof.
  intros Hb. unfold max_of, min_of. destruct (signed ty); [| lia].
  replace (bits ty) with (Z.succ (bits ty - 1)) at 3 by lia.
  rewrite Z.pow_succ_r by lia. lia.
Qed.

Lemma wrap_in_range ty z : 0 < bits ty -> min_of ty <= wrap ty z <= max_of ty.
Proof.
  intros Hb. pose proof (max_min_width ty Hb).
  pose proof (Z.mod_pos_bound (z - min_of ty) (2 ^ bits ty) ltac:(lia)).
  unfold wrap. lia.
Qed.

Lemma wrap_small ty z : 0 < bits ty -> min_of ty <= z <= max_of ty -> wrap ty z = z.
Proof.
  intros Hb Hr. pose proof (max_min_width ty Hb). unfold wrap.
  rewrite Z.mod_small by lia. lia.
Qed.

(** Wrapping agrees with the debug build whenever the debug build does not
    panic. *)
Lemma checked_wrap ty z v : 0 < bits ty -> checked ty z = Some v -> wrap ty z = v.
Proof. intros Hb [-> Hr]%checked_Some. by apply wrap_small. Qed.

(** Wrapping an intermediate result changes nothing: a chain of wrapping
    additions is the wrapped exact sum. *)
Lemma wrap_add_wrap ty a b : wrap ty (wrap ty a + b) = wrap ty (a + b).
Proof.
  unfold wrap. f_equal.
  replace ((a - min_of ty) mod 2 ^ bits ty + min_of ty + b - min_of ty)
    with ((a - min_of ty) mod 2 ^ bits ty + b) by lia.
  destruct (Z.eq_dec (2 ^ bits ty) 0) as [E | E].
  - rewrite E, !Z.mod_0_r. lia.
  - rewrite Z.add_mod_idemp_l by exact E. f_equal. lia.
Qed.

Lemma bits_i32 : 0 < bits i32.
Proof. reflexivity. Qed.

Lemma bits_u32 : 0 < bits u32.
Proof. reflexivity. Qed.

#[export] Hint Resolve wrap_in_range wrap_small bits_i32 bits_u32 : rustdb.

(** ** Tactics *)

(** Case analysis on every comparison of the natural number [n] with a
    constant in the goal, discarding the impossible cases: what a byte
    classifier (a chain of range tests on one byte) needs. *)
Ltac nat_cases n :=
  repeat match goal with
  | |- context [Nat.ltb n ?y] => destruct (Nat.ltb_spec n y); try lia
  | |- context [Nat.leb ?y n] => destruct (Nat.leb_spec y n); try lia
  | |- context [Nat.leb n ?y] => destruct (Nat.leb_spec n y); try lia
  | |- context [Nat.eqb n ?y] => destruct (Nat.eqb_spec n y); try lia
  end.

(** The same, reducing the goal after each split, for a goal in which the
    comparisons are exposed by evaluation (a validator unfolding on the
    byte [n] it has just classified). *)
Ltac byte_cases n :=
  repeat progress (nat_cases n; cbn -[Nat.leb Nat.ltb Nat.eqb nat_of_ascii]).
