(* ===== verification/BaseMapper.v ===== *)
(** * The data-access interface of the URL mapper

    Models src/projs/url-mapper-rs/src/dao/base_mapper.rs: the error type
    the trait methods return ([Error], sqlx's [Error]), the [Responder]
    alias (the sender half of a tokio oneshot channel), the request enum
    [BaseMapperEnum] and the trait [BaseMapper].  The contract the spec
    (section 4.1) gives the trait is the class [BaseMapperLaws]: every
    method refines an operation of an abstract keyed store
    ([store_read_by_id], [store_create], ...).  [TableMapper] is an
    implementation over a table of rows, and [TableMapper_laws] is the
    refinement theorem that it meets the contract.  The client lemma at the
    end (a create then a read of the same key) is proved from the contract
    alone, for every lawful mapper; the dispatcher uses it.

    The contract returns the entity [create_data] was given: spec 4.1 also
    allows a store that assigns keys and returns the entity it persisted;
    such stores are outside this contract. *)

From S2P Require Import Prelude.

(** ** Errors: [sqlx::Error] with the kinds the spec distinguishes *)

(** [Database UniqueViolation] is the spec's [Conflict], [RowNotFound] its
    [NotFound], [PoolTimedOut] its [PoolExhaustedTimeout], [PoolClosed] its
    [PoolClosed], and the remaining cases its [BackendError]. *)
Inductive ErrorKind := UniqueViolation | ForeignKeyViolation | NotNullViolation
                     | CheckViolation | OtherKind.

Inductive Error :=
| Database (kind : ErrorKind)
| RowNotFound
| PoolTimedOut
| PoolClosed
| Io.

#[export] Instance ErrorKind_eq_dec : EqDecision ErrorKind.
Proof. solve_decision. Defined.
#[export] Instance Error_eq_dec : EqDecision Error.
Proof. solve_decision. Defined.

(** ** The request enum *)

(** [type Responder<T> = Sender<Result<T, sqlx::Error>>]: a sender is the
    name of its oneshot channel; the channel itself lives in the state of
    the dispatcher.  The type index records what the channel carries. *)
Record Responder (A : Type) := { resp_id : nat }.
Arguments resp_id {A} _.

Inductive BaseMapperEnum (I T : Type) :=
| ReadDataList (resp : Responder (list T))
| ReadDataById (id : I) (resp : Responder T)
| CreateData (data : T) (resp : Responder T)
| UpdateData (data : T) (resp : Responder T)
| DeleteDataById (id : I) (resp : Responder T).
Arguments ReadDataList {I T} resp.
Arguments ReadDataById {I T} id resp.
Arguments CreateData {I T} data resp.
Arguments UpdateData {I T} data resp.
Arguments DeleteDataById {I T} id resp.

(** The reply slot of an envelope. *)
Definition envelope_resp {I T} (env : BaseMapperEnum I T) : nat :=
  match env with
  | ReadDataList r => resp_id r
  | ReadDataById _ r | CreateData _ r | UpdateData _ r | DeleteDataById _ r => resp_id r
  end.

(** ** The trait *)

(** [conn: &mut BaseConnection]: a method reaches the database through the
    borrowed pool connection and may change it, so a method is a function
    of the database state behind the connection, returning its result and
    the new state.  [&self] is the instance. *)
Definition ConnM (Db A : Type) : Type := Db -> result A Error * Db.

Class BaseMapper (I T Db : Type) := {
  read_data_list : ConnM Db (list T);
  read_data_by_id : I -> ConnM Db T;
  create_data : T -> ConnM Db T;
  update_data : T -> ConnM Db T;
  delete_data_by_id : I -> ConnM Db T
}.
Arguments read_data_list {I T Db _} db.
Arguments read_data_by_id {I T Db _} id db.
Arguments create_data {I T Db _} data db.
Arguments update_data {I T Db _} data db.
Arguments delete_data_by_id {I T Db _} id db.

(** ** The contract of the trait (spec section 4.1) *)

Section Contract.
Context {I T : Type} `{EqDecision I, Countable I} (key : T -> I).

(** The abstract store: entities by key. *)
Definition store_read_list (s : gmap I T) : list T := (map_to_list s).*2.

Definition store_read_by_id (s : gmap I T) (id : I) : result T Error :=
  ok_or (s !! id) RowNotFound.

Definition store_create (s : gmap I T) (data : T) : result T Error * gmap I T :=
  match s !! key data with
  | Some _ => (Err (Database UniqueViolation), s)
  | None => (Ok data, <[key data := data]> s)
  end.

Definition store_update (s : gmap I T) (data : T) : result T Error * gmap I T :=
  match s !! key data with
  | Some _ => (Ok data, <[key data := data]> s)
  | None => (Err RowNotFound, s)
  end.

Definition store_delete (s : gmap I T) (id : I) : result T Error * gmap I T :=
  match s !! id with
  | Some t => (Ok t, delete id s)
  | None => (Err RowNotFound, s)
  end.

Context {Db : Type} (abs : Db -> gmap I T) (wf : Db -> Prop).

(** A method call [p] refines the abstract operation with outcome
    [(r, s')]: the concrete state stays well formed, the result is [r] and
    the new state represents [s']. *)
Definition refines {A} (p : result A Error * Db) (spec : result A Error * gmap I T) : Prop :=
  wf p.2 /\ p.1 = spec.1 /\ abs p.2 = spec.2.

Class BaseMapperLaws `{BaseMapper I T Db} : Prop := {
  law_read_data_list db : wf db ->
    wf (read_data_list db).2 /\ abs (read_data_list db).2 = abs db /\
    exists l, (read_data_list db).1 = Ok l /\ l ≡ₚ store_read_list (abs db);
  law_read_data_by_id db id : wf db ->
    refines (read_data_by_id id db) (store_read_by_id (abs db) id, abs db);
  law_create_data db data : wf db -> refines (create_data data db) (store_create (abs db) data);
  law_update_data db data : wf db -> refines (update_data data db) (store_update (abs db) data);
  law_delete_data_by_id db id : wf db ->
    refines (delete_data_by_id id db) (store_delete (abs db) id)
}.

End Contract.

(** ** An implementation: a table of rows *)

(** The rows of a table in insertion order, addressed by the key of each
    row.  Reads scan the table; [create_data] inserts at the end after a
    uniqueness check; [update_data] rewrites the row with the same key;
    [delete_data_by_id] removes it and returns it. *)
Section TableMapper.
Context {I T : Type} `{EqDecision I, Countable I} (key : T -> I).

Definition table_find (rows : list T) (id : I) : option T :=
  List.find (fun r => bool_decide (key r = id)) rows.

Definition table_read_list (rows : list T) : result (list T) Error * list T := (Ok rows, rows).

Definition table_read_by_id (id : I) (rows : list T) : result T Error * list T :=
  (ok_or (table_find rows id) RowNotFound, rows).

Definition table_create (data : T) (rows : list T) : result T Error * list T :=
  match table_find rows (key data) with
  | Some _ => (Err (Database UniqueViolation), rows)
  | None => (Ok data, rows ++ [data])
  end.

Definition table_update (data : T) (rows : list T) : result T Error * list T :=
  match table_find rows (key data) with
  | Some _ => (Ok data, (fun r => if bool_decide (key r = key data) then data else r) <$> rows)
  | None => (Err RowNotFound, rows)
  end.

Definition table_delete (id : I) (rows : list T) : result T Error * list T :=
  match table_find rows id with
  | Some r => (Ok r, filter (fun r => key r <> id) rows)
  | None => (Err RowNotFound, rows)
  end.

Definition TableMapper : BaseMapper I T (list T) := {|
  read_data_list := table_read_list;
  read_data_by_id := table_read_by_id;
  create_data := table_create;
  update_data := table_update;
  delete_data_by_id := table_delete
|}.

(** What the table represents, and when it is well formed: keys unique. *)
Definition table_abs (rows : list T) : gmap I T := list_to_map ((fun r => (key r, r)) <$> rows).
Definition table_wf (rows : list T) : Prop := NoDup (key <$> rows).

End TableMapper.

(** The table mapper at the URL mapper's types: rows are (key, url) pairs
    keyed by their first component.  The examples below run it. *)
Definition url_mapper : BaseMapper string (string * string) (list (string * string)) :=
  TableMapper fst.
#[export] Existing Instance url_mapper.

(** ** The table implements the contract *)

Section TableProofs.
Context {I T : Type} `{EqDecision I, Countable I} (key : T -> I).

Lemma table_abs_cons r rows :
  table_abs key (r :: rows) = <[key r := r]> (table_abs key rows).
Proof. reflexivity. Qed.

Lemma table_keys rows : ((fun r => (key r, r)) <$> rows).*1 = key <$> rows.
Proof. rewrite <- list_fmap_compose. reflexivity. Qed.

(** A scan finds what the represented map holds: the first row with the
    key is the one [list_to_map] keeps. *)
Lemma table_find_abs rows id : table_find key rows id = table_abs key rows !! id.
Proof.
  induction rows as [|r rows IH]; [reflexivity |].
  rewrite table_abs_cons. simpl. case_bool_decide as Hk.
  - subst. by rewrite lookup_insert_eq.
  - by rewrite lookup_insert_ne.
Qed.

Lemma table_abs_None rows id : table_abs key rows !! id = None <-> id ∉ key <$> rows.
Proof. unfold table_abs. rewrite <- not_elem_of_list_to_map, table_keys. done. Qed.

Lemma table_abs_snoc rows t :
  table_abs key rows !! key t = None ->
  table_abs key (rows ++ [t]) = <[key t := t]> (table_abs key rows).
Proof.
  induction rows as [|r rows IH]; intros Hn; [reflexivity |].
  rewrite table_abs_cons in Hn |- *. simpl. rewrite table_abs_cons.
  destruct (decide (key r = key t)) as [Heq | Hne].
  - rewrite Heq, lookup_insert_eq in Hn. discriminate.
  - rewrite lookup_insert_ne in Hn by done. rewrite IH by done.
    by rewrite insert_insert_ne.
Qed.

Lemma table_abs_update rows t :
  table_wf key rows -> key t ∈ key <$> rows ->
  table_abs key ((fun r => if bool_decide (key r = key t) then t else r) <$> rows)
  = <[key t := t]> (table_abs key rows).
Proof.
  induction rows as [|r rows IH]; intros Hwf Hin; [by apply not_elem_of_nil in Hin |].
  unfold table_wf in Hwf. simpl in Hwf, Hin. rewrite fmap_cons. apply NoDup_cons in Hwf as [Hr Hwf].
  rewrite !table_abs_cons. case_bool_decide as Hk.
  - rewrite <- Hk, insert_insert_eq. do 2 f_equal.
    rewrite <- (list_fmap_id rows) at 2. apply list_fmap_ext. intros i x Hx.
    case_bool_decide as Hx'; [| done]. destruct Hr. rewrite <- Hx'.
    apply list_elem_of_fmap. exists x. split; [done |]. by eapply list_elem_of_lookup_2.
  - apply elem_of_cons in Hin as [Hin | Hin]; [congruence |].
    rewrite IH by done. by rewrite insert_insert_ne.
Qed.

Lemma table_abs_delete rows id :
  table_abs key (filter (fun r => key r <> id) rows) = delete id (table_abs key rows).
Proof.
  induction rows as [|r rows IH]; [symmetry; apply delete_empty |].
  rewrite filter_cons, table_abs_cons. case_decide as Hk.
  - by rewrite table_abs_cons, IH, delete_insert_ne.
  - subst. by rewrite IH, delete_insert_eq.
Qed.

Lemma table_wf_snoc rows t :
  table_wf key rows -> table_abs key rows !! key t = None -> table_wf key (rows ++ [t]).
Proof.
  unfold table_wf. intros Hwf Hn%table_abs_None. rewrite fmap_app. simpl.
  apply NoDup_app. split; [done |]. split; [| apply NoDup_singleton].
  intros x Hx ->%list_elem_of_singleton. done.
Qed.

Lemma table_wf_update rows t :
  table_wf key rows ->
  table_wf key ((fun r => if bool_decide (key r = key t) then t else r) <$> rows).
Proof.
  unfold table_wf. rewrite <- list_fmap_compose. intros Hwf.
  erewrite list_fmap_ext; [exact Hwf |]. intros i x _. simpl. by case_bool_decide.
Qed.

Lemma table_wf_delete rows id : table_wf key rows -> table_wf key (filter (fun r => key r <> id) rows).
Proof.
  unfold table_wf. intros Hwf. eapply sublist_NoDup; [exact Hwf |].
  apply fmap_sublist, sublist_filter.
Qed.

Lemma table_read_list_perm rows :
  table_wf key rows -> rows ≡ₚ store_read_list (table_abs key rows).
Proof.
  intros Hwf. unfold store_read_list, table_abs.
  rewrite map_to_list_to_map by (rewrite table_keys; exact Hwf).
  rewrite <- list_fmap_compose. by rewrite list_fmap_id.
Qed.

Lemma table_create_refines rows data :
  table_wf key rows ->
  refines (table_abs key) (table_wf key) (table_create key data rows)
    (store_create key (table_abs key rows) data).
Proof.
  intros Hwf. unfold table_create, store_create, refines. rewrite table_find_abs.
  destruct (table_abs key rows !! key data) eqn:E; simpl; [done |].
  split; [by apply table_wf_snoc | split; [done | by apply table_abs_snoc]].
Qed.

Lemma table_update_refines rows data :
  table_wf key rows ->
  refines (table_abs key) (table_wf key) (table_update key data rows)
    (store_update key (table_abs key rows) data).
Proof.
  intros Hwf. unfold table_update, store_update, refines. rewrite table_find_abs.
  destruct (table_abs key rows !! key data) eqn:E; simpl; [| done].
  split; [by apply table_wf_update | split; [done |]].
  apply table_abs_update; [done |]. destruct (decide (key data ∈ key <$> rows)); [done |].
  apply table_abs_None in n. congruence.
Qed.

Lemma table_delete_refines rows id :
  table_wf key rows ->
  refines (table_abs key) (table_wf key) (table_delete key id rows)
    (store_delete (table_abs key rows) id).
Proof.
  intros Hwf. unfold table_delete, store_delete, refines. rewrite table_find_abs.
  destruct (table_abs key rows !! id) eqn:E; simpl; [| done].
  split; [by apply table_wf_delete | split; [done | apply table_abs_delete]].
Qed.
End TableProofs.

(** The table mapper satisfies the contract. *)
Lemma TableMapper_lawful {I T} `{EqDecision I, Countable I} (key : T -> I) :
  @BaseMapperLaws I T _ _ key (list T) (table_abs key) (table_wf key) (TableMapper key).
Proof.
  split; intros rows; simpl.
  - intros Hwf. split; [done | split; [done |]]. exists rows. split; [done |].
    by apply table_read_list_perm.
  - intros id Hwf. unfold refines, table_read_by_id, store_read_by_id. simpl.
    by rewrite table_find_abs.
  - apply table_create_refines.
  - apply table_update_refines.
  - intros id. apply table_delete_refines.
Qed.

(** C8: the refinement theorem: the table mapper meets the contract of
    the trait; each method refines the abstract store's operation and keeps
    the table's keys unique. *)
Theorem TableMapper_laws {I T} `{EqDecision I, Countable I} (key : T -> I) :
  @BaseMapperLaws I T _ _ key (list T) (table_abs key) (table_wf key) (TableMapper key).
Proof. apply TableMapper_lawful. Qed.

(** ** What every lawful mapper guarantees (spec section 8) *)

Section Clients.
Context {I T Db : Type} `{EqDecision I, Countable I} (key : T -> I).
Context (abs : Db -> gmap I T) (wf : Db -> Prop) `{!BaseMapper I T Db}.

(** Create then read, for any lawful mapper. *)
Lemma lawful_create_read `{!BaseMapperLaws key abs wf} db data :
  wf db -> abs db !! key data = None ->
  (create_data data db).1 = Ok data /\
  (read_data_by_id (key data) (create_data data db).2).1 = Ok data.
Proof.
  intros Hwf Hfresh.
  destruct (law_create_data key abs wf db data Hwf) as (Hwf' & Hr & Habs).
  unfold store_create in Hr, Habs. rewrite Hfresh in Hr, Habs. cbn [fst snd] in Hr, Habs. split; [done |].
  destruct (law_read_data_by_id key abs wf _ (key data) Hwf') as (_ & Hr' & _).
  rewrite Hr'. simpl. unfold store_read_by_id. by rewrite Habs, lookup_insert_eq.
Qed.

End Clients.

