(* ===== verification/Dispatcher.v ===== *)
(** * The dispatcher: the actor loop over [BaseMapperEnum] envelopes

    The repository defines the envelopes and the trait but not the loop
    that serves them; spec sections 4.2, 5 and 7 describe it, and this file
    models it from the spec.  The pieces:

    - [Oneshot]: a tokio oneshot channel (a reply slot), with its sender
      half consumed by [oneshot_send] and its receiver half dropped by
      [oneshot_drop_rx]; [oneshot_recv] is what the waiting caller sees;
    - [Pool]: the connection pool as a counter of checked-out handles, a
      capacity and a closed flag ([pool_acquire] suspends when exhausted);
    - [DState]: the dispatcher's state (inbound queue, phase, pool,
      database, the reply slots of all callers), with two history fields,
      [sent] and [answered], that record the order of sends and of replies;
    - [dstep]: one iteration step of the loop (receive, acquire, run the
      trait method and reply, stop), [run] its iteration with fuel, and
      [sys_step] the interleaving of the loop with callers that send and
      cancel, other users of the pool (acquiring, releasing, writing the
      database behind it) and the pool shutting down.

    The theorems: [dispatch_invariant] (every reachable state keeps the
    replies a prefix of the sends, each slot's sender consumed once), the
    per-envelope behaviour ([dispatch_one]), cancellation commuting with the
    loop ([cancel_dstep_commute]), [pool_closed_drains], and the
    termination and liveness theorem [run_drains]. *)

From S2P Require Import Prelude BaseMapper.

(** ** Reply slots: tokio's oneshot channel *)

(** What a slot carries: [Result<Vec<T>, Error>] for [ReadDataList],
    [Result<T, Error>] for the other variants. *)
Inductive Reply (T : Type) :=
| ReplyList (r : result (list T) Error)
| ReplyOne (r : result T Error).
Arguments ReplyList {T} r.
Arguments ReplyOne {T} r.

Record Oneshot (T : Type) := mkOneshot {
  tx_alive : bool;               (** the sender half has not been consumed *)
  rx_alive : bool;               (** the caller still holds the receiver *)
  slot_value : option (Reply T)  (** the value sent, not yet received *)
}.
Arguments mkOneshot {T} tx_alive rx_alive slot_value.
Arguments tx_alive {T} _.
Arguments rx_alive {T} _.
Arguments slot_value {T} _.

Definition oneshot_new {T} : Oneshot T := mkOneshot true true None.

(** [Sender::send(self, v)]: consumes the sender; fails, handing [v] back,
    when the receiver is gone. *)
Definition oneshot_send {T} (c : Oneshot T) (v : Reply T) : Oneshot T * result unit (Reply T) :=
  if rx_alive c then (mkOneshot false true (Some v), Ok tt)
  else (mkOneshot false false None, Err v).

(** Dropping the receiver drops any value in the slot. *)
Definition oneshot_drop_rx {T} (c : Oneshot T) : Oneshot T :=
  mkOneshot (tx_alive c) false None.

Inductive RecvOutcome (T : Type) :=
| Received (v : Reply T)
| RecvError
| Pending.
Arguments Received {T} v.
Arguments RecvError {T}.
Arguments Pending {T}.

(** Awaiting the receiver: the value, an error once the sender is gone
    without a value, or still pending. *)
Definition oneshot_recv {T} (c : Oneshot T) : RecvOutcome T :=
  match slot_value c with
  | Some v => Received v
  | None => if tx_alive c then Pending else RecvError
  end.

(** ** The connection pool *)

Record Pool := mkPool { pool_size : nat; pool_out : nat; pool_closed : bool }.

(** [None]: the pool is exhausted and the caller suspends. *)
Definition pool_acquire (p : Pool) : option (result Pool Error) :=
  if pool_closed p then Some (Err PoolClosed)
  else if pool_out p <? pool_size p then Some (Ok (mkPool (pool_size p) (S (pool_out p)) false))
  else None.

Definition pool_release (p : Pool) : Pool := mkPool (pool_size p) (pred (pool_out p)) (pool_closed p).

Definition pool_shutdown (p : Pool) : Pool := mkPool (pool_size p) (pool_out p) true.

(** ** The dispatcher's state and its loop *)

Section Loop.
Context {I T Db : Type} `{!BaseMapper I T Db}.

Inductive Phase :=
| Idle                                  (** awaiting the next envelope *)
| Acquiring (env : BaseMapperEnum I T)  (** envelope received, awaiting a connection *)
| Holding (env : BaseMapperEnum I T)    (** connection checked out, call to run *)
| Stopped.                              (** the loop has exited *)

Record DState := mkDState {
  inbox : list (BaseMapperEnum I T);  (** the inbound mpsc queue, oldest first *)
  inbox_open : bool;                  (** some sender of the queue is still alive *)
  phase : Phase;
  pool : Pool;
  db : Db;                            (** the database behind the pool *)
  chans : gmap nat (Oneshot T);       (** every reply slot, by responder id *)
  next_chan : nat;                    (** the next fresh responder id *)
  sent : list nat;                    (** history: responder ids in send order *)
  answered : list nat                 (** history: responder ids in reply order *)
}.

(** Step 3 of the loop: the trait method matching the variant. *)
Definition handle (env : BaseMapperEnum I T) (d : Db) : Reply T * Db :=
  match env with
  | ReadDataList _ => let '(r, d') := read_data_list d in (ReplyList r, d')
  | ReadDataById id _ => let '(r, d') := read_data_by_id id d in (ReplyOne r, d')
  | CreateData data _ => let '(r, d') := create_data data d in (ReplyOne r, d')
  | UpdateData data _ => let '(r, d') := update_data data d in (ReplyOne r, d')
  | DeleteDataById id _ => let '(r, d') := delete_data_by_id id d in (ReplyOne r, d')
  end.

Definition error_reply (env : BaseMapperEnum I T) (e : Error) : Reply T :=
  match env with
  | ReadDataList _ => ReplyList (Err e)
  | _ => ReplyOne (Err e)
  end.

(** Step 4: resolve a slot.  A failed send (receiver dropped) is ignored. *)
Definition resolve (cs : gmap nat (Oneshot T)) (id : nat) (v : Reply T) : gmap nat (Oneshot T) :=
  match cs !! id with
  | Some c => <[id := (oneshot_send c v).1]> cs
  | None => cs
  end.

Fixpoint resolve_all (cs : gmap nat (Oneshot T)) (envs : list (BaseMapperEnum I T)) (e : Error)
    : gmap nat (Oneshot T) :=
  match envs with
  | [] => cs
  | env :: rest => resolve_all (resolve cs (envelope_resp env) (error_reply env e)) rest e
  end.

(** One step of the loop; [None] when it is suspended (empty open queue,
    exhausted pool) or has stopped. *)
Definition dstep (st : DState) : option DState :=
  match phase st with
  | Idle =>
      match inbox st with
      | env :: rest =>
          Some (mkDState rest (inbox_open st) (Acquiring env) (pool st) (db st) (chans st)
                  (next_chan st) (sent st) (answered st))
      | [] =>
          if inbox_open st then None
          else Some (mkDState [] false Stopped (pool st) (db st) (chans st)
                       (next_chan st) (sent st) (answered st))
      end
  | Acquiring env =>
      match pool_acquire (pool st) with
      | Some (Ok p) =>
          Some (mkDState (inbox st) (inbox_open st) (Holding env) p (db st) (chans st)
                  (next_chan st) (sent st) (answered st))
      | Some (Err e) =>
          (* the pool is closed: fatal; answer everything queued with it *)
          Some (mkDState [] (inbox_open st) Stopped (pool st) (db st)
                  (resolve_all (chans st) (env :: inbox st) e) (next_chan st) (sent st)
                  (answered st ++ (envelope_resp <$> env :: inbox st)))
      | None => None
      end
  | Holding env =>
      let '(v, d) := handle env (db st) in
      Some (mkDState (inbox st) (inbox_open st) Idle (pool_release (pool st)) d
              (resolve (chans st) (envelope_resp env) v) (next_chan st) (sent st)
              (answered st ++ [envelope_resp env]))
  | Stopped => None
  end.

(** A bounded wait for a connection that elapses: the envelope is answered
    with [PoolTimedOut] and the loop goes on. *)
Definition dtimeout (st : DState) : option DState :=
  match phase st, pool_acquire (pool st) with
  | Acquiring env, None =>
      Some (mkDState (inbox st) (inbox_open st) Idle (pool st) (db st)
              (resolve (chans st) (envelope_resp env) (error_reply env PoolTimedOut))
              (next_chan st) (sent st) (answered st ++ [envelope_resp env]))
  | _, _ => None
  end.

Fixpoint run (fuel : nat) (st : DState) : DState :=
  match fuel with
  | 0 => st
  | S n => match dstep st with Some st' => run n st' | None => st end
  end.

(** ** Callers and the environment *)

(** A caller creates a oneshot channel, keeps its receiver and sends the
    envelope holding the sender. *)
Definition send_env (st : DState) (env : BaseMapperEnum I T) : DState :=
  mkDState (inbox st ++ [env]) (inbox_open st) (phase st) (pool st) (db st)
    (<[envelope_resp env := oneshot_new]> (chans st)) (S (next_chan st))
    (sent st ++ [envelope_resp env]) (answered st).

(** A caller gives up: it drops its receiver. *)
Definition cancel (id : nat) (st : DState) : DState :=
  mkDState (inbox st) (inbox_open st) (phase st) (pool st) (db st)
    (alter oneshot_drop_rx id (chans st)) (next_chan st) (sent st) (answered st).

Definition with_pool (st : DState) (p : Pool) : DState :=
  mkDState (inbox st) (inbox_open st) (phase st) p (db st) (chans st)
    (next_chan st) (sent st) (answered st).

(** Another user of the pool (another dispatcher, spec section 5) writes
    to the database behind it. *)
Definition with_db (st : DState) (d : Db) : DState :=
  mkDState (inbox st) (inbox_open st) (phase st) (pool st) d (chans st)
    (next_chan st) (sent st) (answered st).

Definition close_inbox (st : DState) : DState :=
  mkDState (inbox st) false (phase st) (pool st) (db st) (chans st)
    (next_chan st) (sent st) (answered st).

Definition holding (ph : Phase) : nat := match ph with Holding _ => 1 | _ => 0 end.

Inductive sys_step : DState -> DState -> Prop :=
| step_send st env :
    phase st <> Stopped -> inbox_open st = true -> envelope_resp env = next_chan st ->
    sys_step st (send_env st env)
| step_cancel st id : sys_step st (cancel id st)
| step_close_inbox st : sys_step st (close_inbox st)
| step_close_pool st : sys_step st (with_pool st (pool_shutdown (pool st)))
| step_other_acquire st p :
    pool_acquire (pool st) = Some (Ok p) -> sys_step st (with_pool st p)
| step_other_release st :
    holding (phase st) < pool_out (pool st) -> sys_step st (with_pool st (pool_release (pool st)))
| step_other_write st d : sys_step st (with_db st d)
| step_dispatch st st' : dstep st = Some st' -> sys_step st st'
| step_timeout st st' : dtimeout st = Some st' -> sys_step st st'.

Definition init (d : Db) (size : nat) : DState :=
  mkDState [] true Idle (mkPool size 0 false) d ∅ 0 [] [].

Definition reachable (d : Db) (size : nat) (st : DState) : Prop := rtc sys_step (init d size) st.

(** ** The invariant *)

Definition in_flight (ph : Phase) : list (BaseMapperEnum I T) :=
  match ph with Acquiring env | Holding env => [env] | _ => [] end.

(** The envelopes sent and not yet answered, oldest first. *)
Definition pending (st : DState) : list (BaseMapperEnum I T) := in_flight (phase st) ++ inbox st.

Definition pending_ids (st : DState) : list nat := envelope_resp <$> pending st.

Record dinv (st : DState) : Prop := {
  inv_fifo : sent st = answered st ++ pending_ids st;
  inv_nodup : NoDup (sent st);
  inv_fresh : forall id, id ∈ sent st -> id < next_chan st;
  inv_unused : forall id, next_chan st <= id -> chans st !! id = None;
  inv_pending : forall id, id ∈ pending_ids st ->
    exists c, chans st !! id = Some c /\ tx_alive c = true /\ slot_value c = None;
  inv_answered : forall id, id ∈ answered st ->
    exists c, chans st !! id = Some c /\ tx_alive c = false;
  inv_pool : holding (phase st) <= pool_out (pool st) <= pool_size (pool st);
  inv_stopped : phase st = Stopped -> inbox st = []
}.


(** The number of loop steps left: three per queued envelope, plus what
    the phase still has to do, plus the final stop. *)
Definition dmeasure (st : DState) : nat :=
  match phase st with
  | Idle => 3 * length (inbox st) + 1
  | Acquiring _ => 3 * length (inbox st) + 3
  | Holding _ => 3 * length (inbox st) + 2
  | Stopped => 0
  end.

(** The loop is being drained: every sender of its queue is gone, and the
    pool is either closed or used by nobody but the loop. *)
Definition draining (st : DState) : Prop :=
  inbox_open st = false /\
  (pool_closed (pool st) = true \/
   (pool_out (pool st) = holding (phase st) /\ 0 < pool_size (pool st))).

End Loop.

(** ** A scenario on the URL mapper's table: a pool of one connection *)

Definition url_state : Type := @DState string (string * string) (list (string * string)).

Definition env_create_rs : BaseMapperEnum string (string * string) :=
  CreateData ("rs", "https://www.rust-lang.org")%string {| resp_id := 0 |}.
Definition env_create_gh : BaseMapperEnum string (string * string) :=
  CreateData ("gh", "https://github.com")%string {| resp_id := 1 |}.
Definition env_read_rs : BaseMapperEnum string (string * string) :=
  ReadDataById "rs"%string {| resp_id := 1 |}.

(** Two callers send a [CreateData] each to a loop over an empty table. *)
Definition two_creates : url_state := send_env (send_env (init [] 1) env_create_rs) env_create_gh.

(** A caller creates an entity, then reads it back by its key. *)
Definition create_read : url_state := send_env (send_env (init [] 1) env_create_rs) env_read_rs.

(** ** Reply slots: resolving consumes the sender *)

Section SlotLemmas.
Context {I T : Type}.
Implicit Types (cs : gmap nat (Oneshot T)) (envs : list (BaseMapperEnum I T)).

Lemma oneshot_send_tx (c : Oneshot T) v : tx_alive (oneshot_send c v).1 = false.
Proof. unfold oneshot_send. by destruct (rx_alive c). Qed.

Lemma resolve_ne cs id v j : j <> id -> resolve cs id v !! j = cs !! j.
Proof. intros Hne. unfold resolve. destruct (cs !! id); [by rewrite lookup_insert_ne | done]. Qed.

Lemma resolve_None cs id v j : cs !! j = None -> resolve cs id v !! j = None.
Proof.
  intros Hj. destruct (decide (j = id)) as [->|]; [| by rewrite resolve_ne].
  unfold resolve. by rewrite Hj.
Qed.

(** After [resolve], a slot that was consumed or was the one resolved is
    present with its sender consumed. *)
Lemma resolve_consumed cs id v j c :
  cs !! j = Some c -> tx_alive c = false \/ j = id ->
  exists c', resolve cs id v !! j = Some c' /\ tx_alive c' = false.
Proof.
  intros Hj Hc. destruct (decide (j = id)) as [->|Hne].
  - unfold resolve. rewrite Hj, lookup_insert_eq. eexists; split; [done | apply oneshot_send_tx].
  - rewrite resolve_ne by done. destruct Hc; [eauto | done].
Qed.

Lemma resolve_all_notin cs envs e j :
  j ∉ envelope_resp <$> envs -> resolve_all cs envs e !! j = cs !! j.
Proof.
  revert cs. induction envs as [|env envs IH]; intros cs Hj; [done |].
  rewrite fmap_cons, not_elem_of_cons in Hj. destruct Hj as [Hj1 Hj2].
  simpl. rewrite IH by done. by apply resolve_ne.
Qed.

Lemma resolve_all_None cs envs e j : cs !! j = None -> resolve_all cs envs e !! j = None.
Proof.
  revert cs. induction envs as [|env envs IH]; intros cs Hj; [done |].
  simpl. apply IH. by apply resolve_None.
Qed.

Lemma resolve_Some cs id v j c : cs !! j = Some c -> exists c', resolve cs id v !! j = Some c'.
Proof.
  intros Hj. destruct (decide (j = id)) as [->|Hne].
  - unfold resolve. rewrite Hj, lookup_insert_eq. eauto.
  - rewrite resolve_ne by done. eauto.
Qed.

Lemma resolve_all_consumed cs envs e j c :
  cs !! j = Some c -> tx_alive c = false \/ j ∈ envelope_resp <$> envs ->
  exists c', resolve_all cs envs e !! j = Some c' /\ tx_alive c' = false.
Proof.
  revert cs c. induction envs as [|env envs IH]; intros cs c Hj Hc.
  - destruct Hc as [Hc | Hc]; [eauto | by apply not_elem_of_nil in Hc].
  - simpl. rewrite fmap_cons, elem_of_cons in Hc.
    destruct (decide (j ∈ envelope_resp <$> envs)) as [Hin | Hout].
    + destruct (resolve_Some cs (envelope_resp env) (error_reply env e) j c Hj) as [c' Hc'].
      eapply IH; [exact Hc' | by right].
    + destruct (resolve_consumed cs (envelope_resp env) (error_reply env e) j c Hj)
        as (c' & Hc' & Htx); [tauto |].
      eapply IH; [exact Hc' | by left].
Qed.
End SlotLemmas.

(** ** The invariant holds in every reachable state *)

Section LoopProofs.
Context {I T Db : Type} `{!BaseMapper I T Db}.
Implicit Types (st : @DState I T Db).

(** Unfold the state constructors and projections, and nothing else. *)
Ltac dsimpl :=
  unfold pending_ids, pending, send_env, cancel, with_pool, close_inbox, init in *;
  cbn [inbox inbox_open phase pool db chans next_chan sent answered in_flight holding
       pool_out pool_size pool_closed] in *.

Lemma pending_in_sent st id : dinv st -> id ∈ pending_ids st -> id ∈ sent st.
Proof. intros Hinv Hin. rewrite (inv_fifo _ Hinv). set_solver. Qed.

Lemma answered_in_sent st id : dinv st -> id ∈ answered st -> id ∈ sent st.
Proof. intros Hinv Hin. rewrite (inv_fifo _ Hinv). set_solver. Qed.

Lemma dinv_nodup_split st : dinv st -> NoDup (answered st ++ pending_ids st).
Proof. intros Hinv. rewrite <- (inv_fifo _ Hinv). apply (inv_nodup _ Hinv). Qed.

Lemma dinv_init (d : Db) size : dinv (@init I T Db d size).
Proof.
  constructor; dsimpl.
  - done.
  - apply NoDup_nil_2.
  - intros id Hid. by apply not_elem_of_nil in Hid.
  - intros id _. apply lookup_empty.
  - intros id Hid. by apply not_elem_of_nil in Hid.
  - intros id Hid. by apply not_elem_of_nil in Hid.
  - lia.
  - discriminate.
Qed.

(** Steps that change neither the histories nor the slots. *)
Lemma dinv_frame st st' :
  dinv st -> sent st' = sent st -> answered st' = answered st ->
  pending_ids st' = pending_ids st -> next_chan st' = next_chan st -> chans st' = chans st ->
  holding (phase st') <= pool_out (pool st') <= pool_size (pool st') ->
  (phase st' = Stopped -> inbox st' = []) -> dinv st'.
Proof.
  intros [] Hs Ha Hp Hn Hc Hpool Hstop.
  constructor; rewrite ?Hs, ?Ha, ?Hp, ?Hn, ?Hc; auto.
Qed.

Lemma dinv_send st env :
  dinv st -> phase st <> Stopped -> envelope_resp env = next_chan st -> dinv (send_env st env).
Proof.
  intros Hinv Hph Hid. pose proof Hinv as [Hfifo Hnd Hfresh Hunused Hpend Hans Hpool Hstop].
  assert (Hnew : forall j, j ∈ sent st -> j <> envelope_resp env)
    by (intros j Hj ->; apply Hfresh in Hj; lia).
  constructor; dsimpl.
  - rewrite Hfifo, !fmap_app, <- !app_assoc. done.
  - apply NoDup_app. split; [done | split; [| apply NoDup_singleton]].
    intros x Hx ->%list_elem_of_singleton. by apply (Hnew _ Hx).
  - intros j Hj. apply elem_of_app in Hj as [Hj | Hj%list_elem_of_singleton];
      [apply Hfresh in Hj |]; lia.
  - intros j Hj. rewrite lookup_insert_ne by lia. apply Hunused. lia.
  - intros j Hj. rewrite app_assoc, fmap_app, elem_of_app in Hj.
    destruct Hj as [Hj | Hj].
    + rewrite lookup_insert_ne by (apply not_eq_sym, Hnew, (pending_in_sent st); done).
      by apply Hpend.
    + apply list_elem_of_fmap in Hj as (x & -> & Hx%list_elem_of_singleton). subst x.
      rewrite lookup_insert_eq. by eexists.
  - intros j Hj. rewrite lookup_insert_ne
      by (apply not_eq_sym, Hnew, (answered_in_sent st); done). by apply Hans.
  - done.
  - done.
Qed.

(** Dropping a receiver keeps the sender's state and any emptiness of
    the slot. *)
Lemma drop_rx_lookup (cs : gmap nat (Oneshot T)) id j c :
  cs !! j = Some c ->
  exists c', alter oneshot_drop_rx id cs !! j = Some c' /\ tx_alive c' = tx_alive c /\
             (slot_value c = None -> slot_value c' = None).
Proof.
  intros Hj. destruct (decide (id = j)) as [->|Hne].
  - rewrite lookup_alter_eq, Hj. by eexists.
  - rewrite lookup_alter_ne by done. by eexists.
Qed.

Lemma dinv_cancel st id : dinv st -> dinv (cancel id st).
Proof.
  intros [Hfifo Hnd Hfresh Hunused Hpend Hans Hpool Hstop]. constructor; dsimpl; try done.
  - intros j Hj. apply lookup_alter_None. by apply Hunused.
  - intros j Hj. destruct (Hpend j Hj) as (c & Hc & Htx & Hv).
    destruct (drop_rx_lookup (chans st) id j c Hc) as (c' & ? & ? & ?). exists c'. naive_solver.
  - intros j Hj. destruct (Hans j Hj) as (c & Hc & Htx).
    destruct (drop_rx_lookup (chans st) id j c Hc) as (c' & ? & ? & ?). exists c'. naive_solver.
Qed.

(** The dispatcher answers the envelope in flight and goes back to [Idle]
    (the end of a call, or a timed-out acquisition). *)
Lemma dinv_answer st st' env v :
  dinv st -> in_flight (phase st) = [env] -> inbox st' = inbox st -> phase st' = Idle ->
  chans st' = resolve (chans st) (envelope_resp env) v -> sent st' = sent st ->
  answered st' = answered st ++ [envelope_resp env] -> next_chan st' = next_chan st ->
  pool_out (pool st') <= pool_size (pool st') -> dinv st'.
Proof.
  intros Hinv Hfl Hin Hph Hc Hs Ha Hn Hp. pose proof (dinv_nodup_split st Hinv) as Hnd.
  destruct Hinv as [Hfifo Hnd' Hfresh Hunused Hpend Hans Hpool Hstop].
  unfold pending_ids, pending in *. rewrite Hfl in Hfifo, Hpend, Hnd.
  change (envelope_resp <$> [env] ++ inbox st) with
    (envelope_resp env :: (envelope_resp <$> inbox st)) in Hfifo, Hpend, Hnd.
  apply NoDup_app in Hnd as (_ & Hdisj & Hnd).
  apply NoDup_cons in Hnd as [Hfresh_env _].
  constructor; unfold pending_ids, pending; rewrite ?Hin, ?Hph, ?Hc, ?Hs, ?Ha, ?Hn;
    cbn [in_flight holding app].
  - rewrite Hfifo, <- app_assoc. done.
  - done.
  - done.
  - intros j Hj. by apply resolve_None, Hunused.
  - intros j Hj. rewrite resolve_ne by (intros ->; by apply Hfresh_env).
    apply Hpend. by apply elem_of_cons; right.
  - intros j [Hj | ->%list_elem_of_singleton]%elem_of_app.
    + destruct (Hans j Hj) as (c & Hcj & Htx). eapply resolve_consumed; eauto.
    + destruct (Hpend (envelope_resp env)) as (c & Hcj & _); [by apply elem_of_cons; left |].
      eapply resolve_consumed; eauto.
  - lia.
  - discriminate.
Qed.

(** The pool is closed while an envelope awaits a connection: everything
    pending is answered and the loop stops. *)
Lemma dinv_fatal st env e :
  dinv st -> phase st = Acquiring env ->
  dinv (mkDState (I:=I) [] (inbox_open st) Stopped (pool st) (db st)
          (resolve_all (chans st) (env :: inbox st) e) (next_chan st) (sent st)
          (answered st ++ (envelope_resp <$> env :: inbox st))).
Proof.
  intros Hinv Hph. destruct Hinv as [Hfifo Hnd Hfresh Hunused Hpend Hans Hpool Hstop].
  unfold pending_ids, pending in *. rewrite Hph in Hfifo, Hpend, Hpool.
  constructor; cbn [inbox phase chans sent answered next_chan pool in_flight holding app].
  - rewrite Hfifo, app_nil_r. done.
  - done.
  - done.
  - intros j Hj. by apply resolve_all_None, Hunused.
  - intros j Hj. by apply not_elem_of_nil in Hj.
  - intros j [Hj | Hj]%elem_of_app.
    + destruct (Hans j Hj) as (c & Hcj & Htx). eapply resolve_all_consumed; eauto.
    + destruct (Hpend j Hj) as (c & Hcj & _). eapply resolve_all_consumed; eauto.
  - lia.
  - done.
Qed.

Lemma pool_acquire_Ok p p' :
  pool_acquire p = Some (Ok p') ->
  pool_out p < pool_size p /\ pool_out p' = S (pool_out p) /\ pool_size p' = pool_size p.
Proof.
  unfold pool_acquire. destruct (pool_closed p); [discriminate |].
  destruct (Nat.ltb_spec (pool_out p) (pool_size p)); [intros [= <-]; simpl; lia | discriminate].
Qed.

Lemma pool_acquire_Err p e : pool_acquire p = Some (Err e) -> e = PoolClosed /\ pool_closed p = true.
Proof.
  unfold pool_acquire. destruct (pool_closed p); [by intros [= <-] |].
  destruct (pool_out p <? pool_size p); discriminate.
Qed.

Lemma pool_acquire_free p :
  pool_closed p = false -> pool_out p < pool_size p ->
  pool_acquire p = Some (Ok (mkPool (pool_size p) (S (pool_out p)) false)).
Proof.
  intros Hcl Hlt. unfold pool_acquire. rewrite Hcl.
  by destruct (Nat.ltb_spec (pool_out p) (pool_size p)); [| lia].
Qed.

Lemma dinv_dstep st st' : dinv st -> dstep st = Some st' -> dinv st'.
Proof.
  intros Hinv Hstep. pose proof (inv_pool _ Hinv) as Hpool.
  unfold dstep in Hstep. destruct (phase st) as [|env|env|] eqn:Hph; try rewrite Hph in Hpool.
  - destruct (inbox st) as [|env rest] eqn:Hin.
    + destruct (inbox_open st); simplify_eq.
      eapply dinv_frame; [done | done | done | | done | done | done | done].
      unfold pending_ids, pending. cbn [phase inbox in_flight]. by rewrite Hph, Hin.
    + simplify_eq. eapply dinv_frame; [done | done | done | | done | done | done | discriminate].
      unfold pending_ids, pending. cbn [phase inbox in_flight]. by rewrite Hph, Hin.
  - destruct (pool_acquire (pool st)) as [[p|e]|] eqn:Hacq; simplify_eq.
    + apply pool_acquire_Ok in Hacq as (Hlt & Hout & Hsize).
      eapply dinv_frame; [done | done | done | | done | done | | discriminate].
      * unfold pending_ids, pending. cbn [phase inbox in_flight]. by rewrite Hph.
      * cbn [phase pool holding]. lia.
    + by apply dinv_fatal.
  - destruct (handle env (db st)) as [v d] eqn:Hh. simplify_eq.
    eapply dinv_answer; [done | by rewrite Hph | done | done | done | done | done | done |].
    simpl. simpl in Hpool. lia.
  - done.
Qed.

Lemma dinv_dtimeout st st' : dinv st -> dtimeout st = Some st' -> dinv st'.
Proof.
  intros Hinv Hstep. pose proof (inv_pool _ Hinv) as Hpool. unfold dtimeout in Hstep.
  destruct (phase st) eqn:Hph; try discriminate. destruct (pool_acquire (pool st)); [discriminate |].
  simplify_eq. try rewrite Hph in Hpool.
  eapply dinv_answer; [done | by rewrite Hph | done | done | done | done | done | done |].
  simpl. simpl in Hpool. lia.
Qed.

Lemma dinv_sys_step st st' : dinv st -> sys_step st st' -> dinv st'.
Proof.
  intros Hinv Hstep. pose proof (inv_pool _ Hinv) as Hpool.
  destruct Hstep as [st env Hph _ Hid | st id | st | st | st p Hacq | st Hlt | st d | st st' Hd | st st' Ht].
  - by apply dinv_send.
  - by apply dinv_cancel.
  - eapply dinv_frame; [done | done.. | | apply (inv_stopped _ Hinv)]. done.
  - eapply dinv_frame; [done | done.. | | apply (inv_stopped _ Hinv)]. done.
  - apply pool_acquire_Ok in Hacq as (? & Hout & Hsize).
    eapply dinv_frame; [done | done.. | | apply (inv_stopped _ Hinv)]. simpl. lia.
  - eapply dinv_frame; [done | done.. | | apply (inv_stopped _ Hinv)]. simpl. lia.
  - eapply dinv_frame; [done | done.. | | apply (inv_stopped _ Hinv)]. done.
  - by eapply dinv_dstep.
  - by eapply dinv_dtimeout.
Qed.
End LoopProofs.

(** ** What one iteration of the loop does *)

Section Behaviour.
Context {I T Db : Type} `{!BaseMapper I T Db}.
Implicit Types (st : @DState I T Db).

(** The invariant holds in every reachable state. *)
Lemma dinv_reachable (d : Db) size st : reachable d size st -> dinv st.
Proof.
  unfold reachable. intros Hr.
  apply (rtc_ind_r (R := sys_step) dinv (@init I T Db d size)); [apply dinv_init | | exact Hr].
  intros y z _ Hyz IH. by eapply dinv_sys_step.
Qed.

(** C1: in every state reachable by any interleaving of callers sending and
    cancelling, other pool users, the pool closing and the loop itself, the
    replies so far are a prefix of the sends in send order (FIFO), no
    envelope is answered twice, every pending envelope's sender is still
    unconsumed and every answered one's is consumed, and connections in use
    never exceed the pool's size. *)
Theorem dispatch_invariant (d : Db) size st : reachable d size st -> dinv st.
Proof. apply dinv_reachable. Qed.

Lemma resolve_cancel (cs : gmap nat (Oneshot T)) id j v :
  resolve (alter oneshot_drop_rx id cs) j v = alter oneshot_drop_rx id (resolve cs j v).
Proof.
  unfold resolve. destruct (decide (id = j)) as [->|Hne].
  - rewrite lookup_alter_eq. destruct (cs !! j) as [c|] eqn:Hc; simpl; [| done].
    rewrite alter_insert_eq. unfold oneshot_send, oneshot_drop_rx. simpl.
    rewrite insert_alter_eq. by destruct (rx_alive c).
  - rewrite lookup_alter_ne by done. destruct (cs !! j); [| done].
    by rewrite alter_insert_ne.
Qed.

Lemma resolve_all_cancel (cs : gmap nat (Oneshot T)) id (envs : list (BaseMapperEnum I T)) e :
  resolve_all (alter oneshot_drop_rx id cs) envs e = alter oneshot_drop_rx id (resolve_all cs envs e).
Proof.
  revert cs. induction envs as [|env envs IH]; intros cs; [done |].
  simpl. by rewrite resolve_cancel, IH.
Qed.

(** C4: cancellation (a caller dropping its receiver) commutes with every step
    of the loop: the loop takes the same steps, on the same queue, pool and
    database, whether or not a caller has gone away; only the dropped slot
    differs. *)
Theorem cancel_dstep_commute st id : dstep (cancel id st) = cancel id <$> dstep st.
Proof.
  destruct st as [inb op ph p d cs nc se an]. unfold dstep, cancel.
  cbn [inbox inbox_open phase pool db chans next_chan sent answered].
  destruct ph as [|env|env|].
  - destruct inb; [destruct op |]; done.
  - destruct (pool_acquire p) as [[p'|e]|]; [done | | done].
    cbn [fmap option_fmap option_map]. by rewrite resolve_all_cancel.
  - destruct (handle env d). cbn [fmap option_fmap option_map]. by rewrite resolve_cancel.
  - done.
Qed.

Lemma resolve_recv (cs : gmap nat (Oneshot T)) id v c :
  cs !! id = Some c -> rx_alive c = true ->
  resolve cs id v !! id = Some (mkOneshot false true (Some v)).
Proof.
  intros Hc Hrx. unfold resolve. rewrite Hc, lookup_insert_eq. unfold oneshot_send. by rewrite Hrx.
Qed.

(** One round of the loop on the head envelope. *)
Lemma dispatch_one_run st env rest :
  phase st = Idle -> inbox st = env :: rest ->
  pool_closed (pool st) = false -> pool_out (pool st) < pool_size (pool st) ->
  let st' := run 3 st in
  phase st' = Idle /\ inbox st' = rest /\ pool st' = pool st /\
  db st' = (handle env (db st)).2 /\
  chans st' = resolve (chans st) (envelope_resp env) (handle env (db st)).1 /\
  answered st' = answered st ++ [envelope_resp env] /\
  (forall c, chans st !! envelope_resp env = Some c -> rx_alive c = true ->
     oneshot_recv <$> chans st' !! envelope_resp env = Some (Received (handle env (db st)).1)).
Proof.
  intros Hph Hin Hcl Hlt. pose proof (pool_acquire_free _ Hcl Hlt) as Hacq.
  destruct st as [inb op ph p d cs nc se an]. cbn [phase inbox pool] in *. subst.
  unfold run, dstep. cbn [phase inbox inbox_open pool db chans next_chan sent answered].
  rewrite Hacq. cbn [phase inbox inbox_open pool db chans next_chan sent answered].
  destruct (handle env d) as [v d'] eqn:Hh.
  cbn [phase inbox inbox_open pool db chans next_chan sent answered fst snd].
  destruct p as [sz out cl]. cbn in Hcl. subst cl.
  do 6 (split; [done |]). intros c Hc Hrx. by rewrite (resolve_recv _ _ _ c).
Qed.

(** C2: one iteration on a queue with [env] at its head and a free connection:
    three steps receive the envelope, check a connection out, run the trait
    method of its variant, reply with the method's result, success or error
    alike, and check the connection back in.  The loop is [Idle] again and
    the pool is exactly as before: no connection leaks.  A caller still
    waiting receives the result. *)
Theorem dispatch_one st env rest :
  phase st = Idle -> inbox st = env :: rest ->
  pool_closed (pool st) = false -> pool_out (pool st) < pool_size (pool st) ->
  let st' := run 3 st in
  phase st' = Idle /\ inbox st' = rest /\ pool st' = pool st /\
  db st' = (handle env (db st)).2 /\
  chans st' = resolve (chans st) (envelope_resp env) (handle env (db st)).1 /\
  answered st' = answered st ++ [envelope_resp env] /\
  (forall c, chans st !! envelope_resp env = Some c -> rx_alive c = true ->
     oneshot_recv <$> chans st' !! envelope_resp env = Some (Received (handle env (db st)).1)).
Proof. apply dispatch_one_run. Qed.

Lemma resolve_all_at (cs : gmap nat (Oneshot T)) (envs : list (BaseMapperEnum I T)) e env c :
  NoDup (envelope_resp <$> envs) -> env ∈ envs ->
  cs !! envelope_resp env = Some c -> rx_alive c = true ->
  resolve_all cs envs e !! envelope_resp env
  = Some (mkOneshot false true (Some (error_reply env e))).
Proof.
  revert cs c. induction envs as [|env0 envs IH]; intros cs c Hnd Hin Hc Hrx;
    [by apply not_elem_of_nil in Hin |].
  rewrite fmap_cons in Hnd. apply NoDup_cons in Hnd as [Hout Hnd]. simpl.
  destruct (decide (envelope_resp env = envelope_resp env0)) as [Heq|Hne].
  - assert (env = env0) as ->.
    { apply elem_of_cons in Hin as [-> | Hin]; [done |].
      destruct Hout. rewrite <- Heq. by apply list_elem_of_fmap_2. }
    rewrite resolve_all_notin by done. by apply (resolve_recv _ _ _ c).
  - apply elem_of_cons in Hin as [-> | Hin]; [done |].
    eapply IH; [done | done | | done]. rewrite resolve_ne by done. exact Hc.
Qed.

(** C5: the pool is closed while the loop awaits a connection: the loop stops
    at once, after answering every envelope still pending, in order, with
    [PoolClosed]; no caller is left without a reply. *)
Theorem pool_closed_drains (d : Db) size st env :
  reachable d size st -> phase st = Acquiring env -> pool_closed (pool st) = true ->
  exists st', dstep st = Some st' /\ phase st' = Stopped /\ inbox st' = [] /\
    answered st' = sent st /\
    forall env', env' ∈ pending st -> forall c, chans st !! envelope_resp env' = Some c ->
      rx_alive c = true ->
      chans st' !! envelope_resp env' = Some (mkOneshot false true (Some (error_reply env' PoolClosed))).
Proof.
  intros Hr Hph Hcl. pose proof (dinv_reachable d size st Hr) as Hinv.
  pose proof (dinv_nodup_split st Hinv) as Hnd. apply NoDup_app in Hnd as (_ & _ & Hnd).
  pose proof (inv_fifo _ Hinv) as Hfifo.
  unfold pending_ids, pending in *. rewrite Hph in Hfifo, Hnd |- *.
  unfold dstep, pool_acquire. rewrite Hph, Hcl.
  eexists. split; [done |]. cbn [phase inbox answered chans]. do 3 (split; [done |]).
  intros env' Hin c Hc Hrx. by apply (resolve_all_at _ _ _ _ c).
Qed.

Lemma pool_release_closed p : pool_closed (pool_release p) = pool_closed p.
Proof. done. Qed.

(** Progress: a draining loop that has not stopped takes a step, stays
    draining, and the measure decreases. *)
Lemma dstep_progress st :
  draining st -> phase st <> Stopped ->
  exists st', dstep st = Some st' /\ draining st' /\ dmeasure st' < dmeasure st.
Proof.
  intros [Hop Hpool] Hph. unfold dstep, dmeasure, draining.
  destruct (phase st) as [|env|env|] eqn:Heq; [| | | done]; rewrite ?Heq in Hpool.
  - destruct (inbox st) as [|env rest] eqn:Hin; [rewrite Hop |];
      (eexists; split; [done |]); cbn [inbox_open pool phase holding inbox length];
      rewrite ?Hop; (split; [split; [done | exact Hpool] | lia]).
  - destruct (pool_closed (pool st)) eqn:Hcl.
    + unfold pool_acquire. rewrite Hcl. eexists. split; [done |]. cbn; split; [split; [done | by left] | lia].
    + destruct Hpool as [? | [Hout Hsz]]; [done |].
      rewrite pool_acquire_free by (done || (simpl in Hout; lia)).
      eexists. split; [done |]. cbn [inbox_open pool phase holding pool_out pool_size pool_closed].
      split; [split; [done | right; simpl; split; [rewrite Hout; reflexivity | exact Hsz]] | simpl; lia].
  - destruct (handle env (db st)). eexists. split; [done |].
    cbn [inbox_open pool phase holding inbox]. rewrite pool_release_closed.
    split; [split; [done |] | lia]. destruct Hpool as [? | [Hout Hsz]]; [by left |].
    right. simpl. simpl in Hout. lia.
Qed.

Lemma run_stops n st : draining st -> dmeasure st <= n -> phase (run n st) = Stopped.
Proof.
  revert st. induction n as [|n IH]; intros st Hdr Hm.
  - unfold dmeasure in Hm. simpl. destruct (phase st); [lia | lia | lia | done].
  - assert (phase st = Stopped \/ phase st <> Stopped) as [Hs | Hs]
      by (destruct (phase st); [right; discriminate .. | by left]).
    + simpl. unfold dstep. by rewrite Hs.
    + destruct (dstep_progress st Hdr Hs) as (st' & Hd & Hdr' & Hlt).
      simpl. rewrite Hd. apply IH; [done | lia].
Qed.

Lemma run_preserves n st : dinv st -> dinv (run n st) /\ sent (run n st) = sent st.
Proof.
  revert st. induction n as [|n IH]; intros st Hinv; [done |]. simpl.
  destruct (dstep st) as [st'|] eqn:Hd; [| done].
  destruct (IH st') as [Hi Hs]; [by eapply dinv_dstep |]. split; [done |].
  rewrite Hs. unfold dstep in Hd.
  repeat (case_match; simplify_eq; try done).
Qed.

(** C3: termination and liveness: once every sender of the queue is gone and
    the pool is closed or free, [3 * (queue length) + 3] steps of the loop
    reach [Stopped], every envelope ever sent has been answered, and no
    caller is left waiting: each receiver sees a value or the sender's
    drop, never [Pending]. *)
Theorem run_drains (d : Db) size st :
  reachable d size st -> draining st ->
  let st' := run (3 * length (inbox st) + 3) st in
  phase st' = Stopped /\ answered st' = sent st /\
  forall id, id ∈ sent st -> exists c, chans st' !! id = Some c /\ oneshot_recv c <> Pending.
Proof.
  intros Hr Hdr. pose proof (dinv_reachable d size st Hr) as Hinv.
  assert (Hstop : phase (run (3 * length (inbox st) + 3) st) = Stopped).
  { apply run_stops; [done |]. unfold dmeasure. destruct (phase st); lia. }
  destruct (run_preserves (3 * length (inbox st) + 3) st Hinv) as [Hinv' Hsent].
  set (st' := run _ st) in *.
  assert (Hall : answered st' = sent st).
  { rewrite <- Hsent, (inv_fifo _ Hinv'). unfold pending_ids, pending.
    rewrite Hstop, (inv_stopped _ Hinv' Hstop). simpl. by rewrite app_nil_r. }
  split; [done | split; [done |]].
  intros id Hid. rewrite <- Hall in Hid. destruct (inv_answered _ Hinv' id Hid) as (c & Hc & Htx).
  exists c. split; [done |]. unfold oneshot_recv. rewrite Htx. by destruct (slot_value c).
Qed.
End Behaviour.

(** ** End to end: the loop over a lawful mapper *)

Section EndToEnd.
Context {I T Db : Type} `{EqDecision I, Countable I} (key : T -> I).
Context (abs : Db -> gmap I T) (wf : Db -> Prop) `{!BaseMapper I T Db}.
Context `{!BaseMapperLaws key abs wf}.
Implicit Types (st : @DState I T Db).

Lemma run_add n m st : run (n + m) st = run m (run n st).
Proof.
  revert st. induction n as [|n IH]; intros st; [done |]. simpl.
  destruct (dstep st) as [st'|] eqn:Hd; [apply IH |].
  destruct m; simpl; by rewrite ?Hd.
Qed.

Lemma handle_ReadDataById id r d :
  (handle (ReadDataById id r) d).1 = ReplyOne (read_data_by_id id d).1.
Proof. simpl. by destruct (read_data_by_id id d). Qed.

Lemma handle_CreateData data r d : (handle (CreateData data r) d).2 = (create_data data d).2.
Proof. simpl. by destruct (create_data data d). Qed.

(** C9: two envelopes sent in a row, [CreateData] of an entity with a fresh key
    and [ReadDataById] of that key: after two iterations of the loop the
    reader receives the created entity. *)
Theorem dispatch_create_then_read st data r1 r2 c2 :
  wf (db st) -> abs (db st) !! key data = None ->
  phase st = Idle -> inbox st = [CreateData data r1; ReadDataById (key data) r2] ->
  pool_closed (pool st) = false -> pool_out (pool st) < pool_size (pool st) ->
  resp_id r1 <> resp_id r2 -> chans st !! resp_id r2 = Some c2 -> rx_alive c2 = true ->
  oneshot_recv <$> chans (run 6 st) !! resp_id r2 = Some (Received (ReplyOne (Ok data))).
Proof.
  intros Hwf Hfresh Hph Hin Hcl Hlt Hne Hc2 Hrx.
  destruct (dispatch_one_run st _ _ Hph Hin Hcl Hlt) as (Hph1 & Hin1 & Hpool1 & Hdb1 & Hch1 & _).
  rewrite (run_add 3 3).
  set (st1 := run 3 st) in *.
  rewrite <- Hpool1 in Hcl, Hlt.
  destruct (dispatch_one_run st1 _ _ Hph1 Hin1 Hcl Hlt) as (_ & _ & _ & _ & _ & _ & Hrecv).
  cbn [envelope_resp] in Hrecv, Hch1. rewrite (Hrecv c2); [| rewrite Hch1; simpl; by rewrite resolve_ne | done].
  rewrite handle_ReadDataById, Hdb1, handle_CreateData.
  by rewrite (proj2 (lawful_create_read key abs wf (db st) data Hwf Hfresh)).
Qed.
End EndToEnd.

(** ** Examples *)

Lemma two_creates_reachable : reachable [] 1 two_creates.
Proof.
  unfold reachable, two_creates.
  eapply rtc_r; [apply rtc_once, (step_send _ env_create_rs) | apply (step_send _ env_create_gh)];
    (discriminate || reflexivity).
Qed.

Lemma dispatch_invariant_witness : reachable [] 1 two_creates /\ dinv two_creates.
Proof.
  split; [apply two_creates_reachable | exact (dispatch_invariant [] 1 two_creates two_creates_reachable)].
Defined.

Lemma dispatch_one_witness :
  let st' := run 3 two_creates in
  phase st' = Idle /\ inbox st' = [env_create_gh] /\ pool st' = pool two_creates /\
  db st' = (handle env_create_rs (db two_creates)).2 /\
  chans st' = resolve (chans two_creates) (envelope_resp env_create_rs)
                (handle env_create_rs (db two_creates)).1 /\
  answered st' = answered two_creates ++ [envelope_resp env_create_rs] /\
  (forall c, chans two_creates !! envelope_resp env_create_rs = Some c -> rx_alive c = true ->
     oneshot_recv <$> chans st' !! envelope_resp env_create_rs
     = Some (Received (handle env_create_rs (db two_creates)).1)).
Proof. apply (dispatch_one two_creates env_create_rs [env_create_gh]); vm_compute; reflexivity || lia. Defined.

Lemma pool_closed_drains_witness :
  let st := with_pool (run 1 two_creates) (pool_shutdown (pool (run 1 two_creates))) in
  exists st', dstep st = Some st' /\ phase st' = Stopped /\ inbox st' = [] /\
    answered st' = sent st /\
    forall env', env' ∈ pending st -> forall c, chans st !! envelope_resp env' = Some c ->
      rx_alive c = true ->
      chans st' !! envelope_resp env' = Some (mkOneshot false true (Some (error_reply env' PoolClosed))).
Proof.
  apply (pool_closed_drains [] 1 _ env_create_rs); [| vm_compute; reflexivity ..].
  eapply rtc_r; [| apply step_close_pool].
  eapply rtc_r; [apply two_creates_reachable | apply step_dispatch; vm_compute; reflexivity].
Defined.

Lemma run_drains_witness :
  let st' := run (3 * length (inbox (close_inbox two_creates)) + 3) (close_inbox two_creates) in
  phase st' = Stopped /\ answered st' = sent (close_inbox two_creates) /\
  forall id, id ∈ sent (close_inbox two_creates) ->
    exists c, chans st' !! id = Some c /\ oneshot_recv c <> Pending.
Proof.
  apply (run_drains [] 1).
  - eapply rtc_r; [apply two_creates_reachable | apply step_close_inbox].
  - split; [reflexivity | right; vm_compute; lia].
Defined.

(** The scenario of spec section 8: with a pool of one connection, the two
    creates are served one after the other and both are persisted. *)
Example two_creates_persisted :
  db (run 7 (close_inbox two_creates)) =
    [("rs", "https://www.rust-lang.org"); ("gh", "https://github.com")]%string /\
  phase (run 7 (close_inbox two_creates)) = Stopped.
Proof. vm_compute. split; reflexivity. Qed.

Lemma dispatch_create_then_read_witness :
  oneshot_recv <$> chans (run 6 create_read) !! 1
  = Some (Received (ReplyOne (Ok ("rs", "https://www.rust-lang.org")%string))).
Proof.
  apply (@dispatch_create_then_read _ _ _ _ _ fst (table_abs fst) (table_wf fst) _
           (TableMapper_lawful fst) create_read _ {| resp_id := 0 |} {| resp_id := 1 |} oneshot_new);
    try (vm_compute; reflexivity); try (vm_compute; lia).
  apply (bool_decide_unpack _). vm_compute. exact I.
Defined.
