(* ===== verification/Utf8.v ===== *)
(** * UTF-8: what [str::from_utf8] accepts

    The validation [read_line] applies to the bytes it reads
    (src/lang/src/base.rs, the guessing game): [utf8_valid] follows
    [core::str::validations::run_utf8_validation] one character at a
    time, with the lead-byte width [char_len] that [str::trim] also walks
    by (Basics.v).  The theorems: a valid text is a valid first character
    then a valid rest ([utf8_valid_step]), valid texts concatenate
    ([utf8_valid_app]), and the validator accepts exactly the texts that
    are UTF-8 encodings of sequences of Unicode scalar values
    ([encode_char], the encoding of [char::encode_utf8]). *)

From S2P Require Import Prelude RustStd.
From Stdlib Require Import Ascii String Btauto.

Local Open Scope Z_scope.

(** ** UTF-8 ([core::str::from_utf8]) *)

(** The bytes of the character a UTF-8 leading byte starts
    ([core::str::utf8_char_width] on the lead bytes a valid text has). *)
Definition char_len (a : ascii) : nat :=
  let n := nat_of_ascii a in
  if (n <? 128)%nat then 1 else if (n <? 224)%nat then 2 else if (n <? 240)%nat then 3 else 4.

Definition byte_in (lo hi : nat) (b : ascii) : bool :=
  let m := nat_of_ascii b in (lo <=? m)%nat && (m <=? hi)%nat.

(** A continuation byte, [10xxxxxx]. *)
Definition cont_byte (b : ascii) : bool := byte_in 128 191 b.

(** The byte after the lead byte [n] of a three- or four-byte sequence:
    narrower after [E0] and [F0] (no overlong encoding), [ED] (no
    surrogate) and [F4] (nothing beyond U+10FFFF). *)
Definition second_byte (n : nat) (b : ascii) : bool :=
  if (n =? 224)%nat then byte_in 160 191 b
  else if (n =? 237)%nat then byte_in 128 159 b
  else if (n =? 240)%nat then byte_in 144 191 b
  else if (n =? 244)%nat then byte_in 128 143 b
  else cont_byte b.

(** [str::from_utf8(v).is_ok()]: [run_utf8_validation], one character at
    a time. *)
Fixpoint utf8_valid (s : string) : bool :=
  match s with
  | EmptyString => true
  | String a r =>
      let n := nat_of_ascii a in
      if (n <? 128)%nat then utf8_valid r
      else if (194 <=? n)%nat && (n <=? 223)%nat then
        match r with String b r' => cont_byte b && utf8_valid r' | EmptyString => false end
      else if (224 <=? n)%nat && (n <=? 239)%nat then
        match r with
        | String b (String c r') => second_byte n b && cont_byte c && utf8_valid r'
        | _ => false
        end
      else if (240 <=? n)%nat && (n <=? 244)%nat then
        match r with
        | String b (String c (String d r')) =>
            second_byte n b && cont_byte c && cont_byte d && utf8_valid r'
        | _ => false
        end
      else false
  end.

(** ** The reference: UTF-8 encodings of Unicode scalar values *)

(** What a [char] holds: a code point up to U+10FFFF that is not a
    surrogate. *)
Definition is_scalar (c : Z) : bool :=
  (0 <=? c) && (c <=? 1114111) && negb ((55296 <=? c) && (c <=? 57343)).

Definition byte (z : Z) : ascii := ascii_of_nat (Z.to_nat z).

(** [char::encode_utf8]: one to four bytes, the code point's bits after
    the lead byte's tag, six in each continuation byte. *)
Definition encode_char (c : Z) : string :=
  if c <? 128 then String (byte c) EmptyString
  else if c <? 2048 then String (byte (192 + c / 64)) (String (byte (128 + c mod 64)) EmptyString)
  else if c <? 65536 then
    String (byte (224 + c / 4096))
      (String (byte (128 + (c / 64) mod 64)) (String (byte (128 + c mod 64)) EmptyString))
  else
    String (byte (240 + c / 262144))
      (String (byte (128 + (c / 4096) mod 64))
         (String (byte (128 + (c / 64) mod 64)) (String (byte (128 + c mod 64)) EmptyString))).

Definition encode (cs : list Z) : string := foldr (fun c s => (encode_char c ++ s)%string) EmptyString cs.

(** ** Tactics *)

(** Split on every comparison of numbers in the goal, closing the
    branches that contradict the context. *)
Ltac cmp_cases :=
  repeat (match goal with
          | |- context [Nat.ltb ?x ?y] => destruct (Nat.ltb_spec x y)
          | |- context [Nat.leb ?x ?y] => destruct (Nat.leb_spec x y)
          | |- context [Nat.eqb ?x ?y] => destruct (Nat.eqb_spec x y)
          | |- context [Z.ltb ?x ?y] => destruct (Z.ltb_spec x y)
          end; try (exfalso; lia)).

(** ** UTF-8 validity *)

Section Utf8Proofs.

(** Validation reads the character the lead byte announces, then the rest. *)
Lemma utf8_valid_step a r :
  utf8_valid (String a r) =
  (char_len a <=? S (String.length r))%nat && utf8_valid (str_take (char_len a) (String a r))
    && utf8_valid (str_drop (char_len a) (String a r)).
Proof.
  unfold char_len. destruct r as [|b [|c [|d r]]]; cbn [utf8_valid str_take str_drop String.length];
    byte_cases (nat_of_ascii a); cbn -[cont_byte second_byte]; btauto.
Qed.

Lemma utf8_valid_split a r :
  utf8_valid (String a r) = true ->
  (char_len a <= S (String.length r))%nat /\ utf8_valid (str_take (char_len a) (String a r)) = true /\
  utf8_valid (str_drop (char_len a) (String a r)) = true.
Proof. rewrite utf8_valid_step, !andb_true_iff, Nat.leb_le. tauto. Qed.

Lemma char_len_pos a : (1 <= char_len a)%nat.
Proof. unfold char_len. repeat case_match; lia. Qed.

(** Valid texts are closed under concatenation. *)
Lemma utf8_valid_app x y : utf8_valid x = true -> utf8_valid y = true -> utf8_valid (x ++ y) = true.
Proof.
  induction x as [x IH] using (induction_ltof1 _ String.length). unfold ltof in IH.
  destruct x as [|a r]; intros Hx Hy; [done |].
  destruct (utf8_valid_split a r Hx) as (Hk & Ht & Hd). pose proof (char_len_pos a).
  change (String a r ++ y)%string with (String a (r ++ y)). rewrite utf8_valid_step.
  change (String a (r ++ y)) with (String a r ++ y)%string.
  rewrite str_take_app_le, str_drop_app_le, Ht, IH by (rewrite ?length_str_drop; cbn in *; lia || done).
  rewrite length_app_str, !andb_true_r. apply Nat.leb_le. lia.
Qed.

(** The first character of a valid text and the rest are valid. *)
Lemma utf8_valid_first a r :
  utf8_valid (String a r) = true ->
  (String a r = str_take (char_len a) (String a r) ++ str_drop (char_len a) (String a r))%string /\
  String.length (str_take (char_len a) (String a r)) = char_len a.
Proof.
  intros H. destruct (utf8_valid_split a r H) as (Hk & _). split; [by rewrite str_take_drop |].
  by apply length_str_take.
Qed.

Lemma byte_nat z : 0 <= z < 256 -> nat_of_ascii (byte z) = Z.to_nat z.
Proof. intros H. unfold byte. apply nat_ascii_embedding. lia. Qed.

Lemma byte_eq a z : z = Z.of_nat (nat_of_ascii a) -> byte z = a.
Proof. intros ->. unfold byte. rewrite Nat2Z.id. apply ascii_nat_embedding. Qed.

Lemma is_scalar_spec c : is_scalar c = true <-> 0 <= c <= 1114111 /\ ~ (55296 <= c <= 57343).
Proof. unfold is_scalar. rewrite !andb_true_iff, negb_true_iff, andb_false_iff, !Z.leb_le, !Z.leb_gt. lia. Qed.

Lemma cont_byte_spec b : cont_byte b = true -> (128 <= nat_of_ascii b <= 191)%nat.
Proof. unfold cont_byte, byte_in. rewrite andb_true_iff, !Nat.leb_le. done. Qed.

Lemma second_byte_spec n b :
  second_byte n b = true ->
  let m := nat_of_ascii b in
  (128 <= m <= 191)%nat /\ (n = 224 -> 160 <= m)%nat /\ (n = 237 -> m <= 159)%nat /\
  (n = 240 -> 144 <= m)%nat /\ (n = 244 -> m <= 143)%nat.
Proof. unfold second_byte, cont_byte, byte_in. cmp_cases; cbn; intros Hsb; try discriminate; repeat split; intros; lia. Qed.

(** The byte sequences of each width that [encode_char] writes are valid,
    given the ranges of their payloads. *)
Lemma valid_seq2 x y :
  2 <= x < 32 -> 0 <= y < 64 ->
  utf8_valid (String (byte (192 + x)) (String (byte (128 + y)) EmptyString)) = true.
Proof.
  intros Hx Hy. cbn [utf8_valid]. unfold cont_byte, byte_in.
  rewrite !byte_nat by lia. cmp_cases; reflexivity.
Qed.

Lemma valid_seq3 x y z :
  0 <= x < 16 -> 0 <= y < 64 -> 0 <= z < 64 -> (x = 0 -> 32 <= y) -> (x = 13 -> y < 32) ->
  utf8_valid (String (byte (224 + x)) (String (byte (128 + y)) (String (byte (128 + z)) EmptyString))) = true.
Proof.
  intros Hx Hy Hz H0 H13. cbn [utf8_valid]. unfold second_byte, cont_byte, byte_in.
  rewrite !byte_nat by lia. cmp_cases; reflexivity.
Qed.

Lemma valid_seq4 x y z w :
  0 <= x <= 4 -> 0 <= y < 64 -> 0 <= z < 64 -> 0 <= w < 64 -> (x = 0 -> 16 <= y) -> (x = 4 -> y < 16) ->
  utf8_valid (String (byte (240 + x)) (String (byte (128 + y))
                (String (byte (128 + z)) (String (byte (128 + w)) EmptyString)))) = true.
Proof.
  intros Hx Hy Hz Hw H0 H4. cbn [utf8_valid]. unfold second_byte, cont_byte, byte_in.
  rewrite !byte_nat by lia. cmp_cases; reflexivity.
Qed.

(** The encoding of a scalar value is valid. *)
Lemma encode_char_valid c : is_scalar c = true -> utf8_valid (encode_char c) = true.
Proof.
  rewrite is_scalar_spec. intros Hc. unfold encode_char.
  destruct (Z.ltb_spec c 128); [cbn; rewrite byte_nat by lia; cmp_cases; reflexivity |].
  destruct (Z.ltb_spec c 2048); [apply valid_seq2; Z.div_mod_to_equations; lia |].
  destruct (Z.ltb_spec c 65536); [apply valid_seq3 | apply valid_seq4]; intros; Z.div_mod_to_equations; lia.
Qed.

(** Each valid byte sequence of one character is the encoding of a scalar
    value: the payload bits, read back. *)
Lemma decode1 a :
  (nat_of_ascii a < 128)%nat -> exists c, is_scalar c = true /\ encode_char c = String a EmptyString.
Proof.
  intros Ha. exists (Z.of_nat (nat_of_ascii a)). rewrite is_scalar_spec. split; [lia |].
  unfold encode_char. cmp_cases. cbv beta iota. f_equal. by apply byte_eq.
Qed.

Lemma decode2 a b :
  (194 <= nat_of_ascii a <= 223)%nat -> cont_byte b = true ->
  exists c, is_scalar c = true /\ encode_char c = String a (String b EmptyString).
Proof.
  intros Ha Hb%cont_byte_spec.
  exists ((Z.of_nat (nat_of_ascii a) - 192) * 64 + (Z.of_nat (nat_of_ascii b) - 128)).
  rewrite is_scalar_spec. split; [lia |]. unfold encode_char. cmp_cases. cbv beta iota.
  f_equal; [| f_equal]; apply byte_eq; Z.div_mod_to_equations; lia.
Qed.

Lemma decode3 a b d :
  (224 <= nat_of_ascii a <= 239)%nat -> second_byte (nat_of_ascii a) b = true -> cont_byte d = true ->
  exists c, is_scalar c = true /\ encode_char c = String a (String b (String d EmptyString)).
Proof.
  intros Ha Hb%second_byte_spec Hd%cont_byte_spec. cbv zeta in Hb.
  exists ((Z.of_nat (nat_of_ascii a) - 224) * 4096 + (Z.of_nat (nat_of_ascii b) - 128) * 64
          + (Z.of_nat (nat_of_ascii d) - 128)).
  rewrite is_scalar_spec. split; [lia |]. unfold encode_char. cmp_cases. cbv beta iota.
  f_equal; [| f_equal; [| f_equal]]; apply byte_eq; Z.div_mod_to_equations; lia.
Qed.

Lemma decode4 a b d e :
  (240 <= nat_of_ascii a <= 244)%nat -> second_byte (nat_of_ascii a) b = true -> cont_byte d = true ->
  cont_byte e = true ->
  exists c, is_scalar c = true /\ encode_char c = String a (String b (String d (String e EmptyString))).
Proof.
  intros Ha Hb%second_byte_spec Hd%cont_byte_spec He%cont_byte_spec. cbv zeta in Hb.
  exists ((Z.of_nat (nat_of_ascii a) - 240) * 262144 + (Z.of_nat (nat_of_ascii b) - 128) * 4096
          + (Z.of_nat (nat_of_ascii d) - 128) * 64 + (Z.of_nat (nat_of_ascii e) - 128)).
  rewrite is_scalar_spec. split; [lia |]. unfold encode_char. cmp_cases. cbv beta iota.
  f_equal; [| f_equal; [| f_equal; [| f_equal]]]; apply byte_eq; Z.div_mod_to_equations; lia.
Qed.

(** A valid text starts with the encoding of a scalar value, followed by a
    shorter valid text. *)
Lemma utf8_valid_char a r :
  utf8_valid (String a r) = true ->
  exists c rest, is_scalar c = true /\ String a r = (encode_char c ++ rest)%string /\
                 utf8_valid rest = true /\ (String.length rest < String.length (String a r))%nat.
Proof.
  pose proof (nat_ascii_bounded a) as Ha. cbn [utf8_valid].
  destruct r as [|b [|d [|e r]]]; nat_cases (nat_of_ascii a); cbn -[cont_byte second_byte]; intros Hv;
    try discriminate;
    repeat match goal with Hb : _ && _ = true |- _ => apply andb_true_iff in Hb as [Hb ?] end;
    first [ edestruct (decode4 a b d e) as (c & Hc & He); [lia | eassumption .. |]
          | edestruct (decode3 a b d) as (c & Hc & He); [lia | eassumption .. |]
          | edestruct (decode2 a b) as (c & Hc & He); [lia | eassumption |]
          | edestruct (decode1 a) as (c & Hc & He); [lia |] ];
    exists c; eexists; (split; [done |]); rewrite He;
    (split; [reflexivity | split; [eassumption | cbn; lia]]).
Qed.

(** C30: [str::from_utf8] accepts exactly the UTF-8 encodings of sequences
    of Unicode scalar values: the validator agrees with the encoder of
    [char] on every byte string. *)
Theorem utf8_valid_encode s :
  utf8_valid s = true <-> exists cs, Forall (fun c => is_scalar c = true) cs /\ s = encode cs.
Proof.
  split.
  - induction s as [s IH] using (induction_ltof1 _ String.length). unfold ltof in IH.
    destruct s as [|a r]; intros H; [by exists [] |].
    destruct (utf8_valid_char a r H) as (c & rest & Hc & Heq & Hr & Hlen).
    destruct (IH rest Hlen Hr) as (cs & Hcs & ->). exists (c :: cs). by split; [constructor |].
  - intros (cs & Hcs & ->). induction Hcs as [|c cs Hc Hcs IH]; [done |].
    by apply utf8_valid_app; [apply encode_char_valid |].
Qed.
End Utf8Proofs.

(** The encoder writes [é] (U+00E9), [世] (U+4E16) and U+1F600 in two,
    three and four bytes, and the validator accepts them; it rejects the
    encoded surrogate [ED A0 80], the overlong [C0 80] and [F4 90 80 80],
    beyond U+10FFFF. *)
Example utf8_examples :
  encode [233; 19990; 128512] =
    String (byte 195) (String (byte 169) (String (byte 228) (String (byte 184) (String (byte 150)
      (String (byte 240) (String (byte 159) (String (byte 152) (String (byte 128) EmptyString)))))))) /\
  utf8_valid (encode [233; 19990; 128512]) = true /\
  utf8_valid (String (byte 237) (String (byte 160) (String (byte 128) EmptyString))) = false /\
  utf8_valid (String (byte 192) (String (byte 128) EmptyString)) = false /\
  utf8_valid (String (byte 244) (String (byte 144) (String (byte 128) (String (byte 128) EmptyString)))) = false.
Proof. vm_compute. repeat split. Qed.
