(* ===== verification/F64.v ===== *)
(** * The [f64] of the standard library

    The programs compute circle areas in [f64] and print them with [{}]:
    [f64] is Rocq's primitive binary64 [float], whose operations are the
    IEEE 754 ones with rounding to nearest, ties to even, as Rust's are;
    [n as f64] of a [u32] is [of_uint63], exact below 2^53; the literals
    are read to the nearest double as [rustc] reads them.

    [display_f64] is [format!("{}", x)] ([impl Display for f64]): the
    shortest decimal that reads back as [x], closest to [x] among the
    shortest, written without an exponent, with no fraction when it is an
    integer, [-] before a negative value (and before [-0]), and [NaN],
    [inf], [-inf].  It is computed on the exact value [m * 2^e] of the
    double, in [Q]: [in_interval] is the set of rationals that round to
    the double (its rounding interval, closed when [m] is even, as ties go
    to the even mantissa; the gap below is half as wide at a power of two);
    [shortest] looks for the largest power of ten [10^k] of which a
    multiple lies there, from an estimate of [log10] of the value.

    The theorems: the text printed reads, as a decimal literal
    ([read_decimal]), as the decimal chosen; that decimal lies in the
    rounding interval, so it reads back as the same double; no decimal
    with a larger exponent (fewer significant digits) does; of the
    multiples of the same power of ten that do, it is the closest; and the
    search always ends before its fuel, which is computed from the
    exponent: it starts between [k_bot], always good, and [k_top], never
    good, and goodness is downward closed. *)

From S2P Require Import Prelude RustStd.
From Stdlib Require Import Ascii String Floats QArith Qpower Qround Qabs Lqa.

Local Set Warnings "-inexact-float".

(** ** Rust's [f64] *)

Abbreviation f64 := float.

(** [n as f64] of a [u32] [n]. *)
Definition as_f64 (n : Z) : f64 := PrimFloat.of_uint63 (Uint63.of_Z n).

(** [std::f64::consts::PI] as the standard library writes it. *)
Definition PI : f64 := 3.14159265358979323846264338327950288%float.

(** ** Exact values *)

Local Open Scope Q_scope.

Definition pow2 (e : Z) : Q := Qpower (2 # 1) e.
Definition pow10 (k : Z) : Q := Qpower (10 # 1) k.

(** The decimal [d * 10^k]. *)
Definition dec_val (d k : Z) : Q := inject_Z d * pow10 k.

(** The value of the positive double of mantissa [m] and exponent [e]. *)
Definition bin_val (m : positive) (e : Z) : Q := inject_Z (Zpos m) * pow2 e.

(** Its neighbours are [2^e] away, but for the one below a power of two
    (not a subnormal) which is [2^(e-1)] away: half of that on each side. *)
Definition gap_below (m : positive) (e : Z) : Q :=
  if ((Zpos m =? 2 ^ 52)%Z && (-1074 <? e)%Z)%bool then pow2 (e - 2) else pow2 (e - 1).
Definition gap_above (e : Z) : Q := pow2 (e - 1).

Definition qlt (a b : Q) : bool := if Qcompare a b is Lt then true else false.

(** The rationals that round to the double: its rounding interval, closed
    when the mantissa is even. *)
Definition low (m : positive) (e : Z) : Q := bin_val m e - gap_below m e.
Definition high (m : positive) (e : Z) : Q := bin_val m e + gap_above e.

Definition in_interval (m : positive) (e : Z) (q : Q) : bool :=
  if Z.even (Zpos m) then Qle_bool (low m e) q && Qle_bool q (high m e)
  else qlt (low m e) q && qlt q (high m e).

(** ** The shortest decimal *)

(** The multiples of [10^k] nearest the value, below and above it. *)
Definition cand_below (m : positive) (e k : Z) : Z := Qfloor (bin_val m e / pow10 k).

(** Some multiple of [10^k] rounds to the double. *)
Definition good (m : positive) (e k : Z) : bool :=
  let c := cand_below m e k in
  in_interval m e (dec_val c k) || in_interval m e (dec_val (c + 1) k).

(** The largest exponent of which a multiple rounds to the double is
    found from an estimate, upward while the next one is good, or else
    downward until one is: a multiple of [10^(k+1)] is one of [10^k]. *)
Fixpoint search_up (m : positive) (e : Z) (fuel : nat) (k : Z) : Z :=
  match fuel with
  | O => k
  | S n => if good m e (k + 1) then search_up m e n (k + 1) else k
  end.

Fixpoint search_down (m : positive) (e : Z) (fuel : nat) (k : Z) : Z :=
  match fuel with
  | O => k
  | S n => if good m e k then k else search_down m e n (k - 1)
  end.

(** [floor (log2 (m * 2^e))]. *)
Definition log2_val (m : positive) (e : Z) : Z := Z.log2 (Zpos m) + e.

(** No multiple of [10^k] rounds to the double from [k_top] up, and one
    of [10^k_bot] does: [10^k_bot <= 2^(e-2)], and the interval is wider. *)
Definition k_top (m : positive) (e : Z) : Z := Z.max 0 (log2_val m e + 1).
Definition k_bot (e : Z) : Z := Z.min 0 (e - 2).

(** [log10 2 ~ 1233/4096]. *)
Definition k_est (m : positive) (e : Z) : Z := Z.max (k_bot e) (Z.min (k_top m e) (log2_val m e * 1233 / 4096)).

Definition find_k (m : positive) (e : Z) : Z :=
  let k := k_est m e in
  if good m e k then search_up m e (Z.to_nat (k_top m e - k)) k
  else search_down m e (Z.to_nat (k - k_bot e)) (k - 1).

(** At the exponent found, the multiple closest to the value (the even one
    on a tie). *)
Definition pick (m : positive) (e k : Z) : Z :=
  let c := cand_below m e k in
  match in_interval m e (dec_val c k), in_interval m e (dec_val (c + 1) k) with
  | true, true =>
      match Qcompare (bin_val m e - dec_val c k) (dec_val (c + 1) k - bin_val m e) with
      | Lt => c
      | Gt => c + 1
      | Eq => if Z.even c then c else c + 1
      end
  | false, true => c + 1
  | _, _ => c
  end.

Definition shortest (m : positive) (e : Z) : Z * Z :=
  let k := find_k m e in (pick m e k, k).

Local Close Scope Q_scope.
Local Open Scope string_scope.

Fixpoint zeros (n : nat) : string :=
  match n with O => "" | S n => String "0" (zeros n) end.

(** The digits [d] with the exponent [k], without an exponent. *)
Definition render (d k : Z) : string :=
  let s := show_dec d in
  let n := Z.of_nat (String.length s) in
  if (0 <=? k)%Z then s ++ zeros (Z.to_nat k)
  else if (- k <? n)%Z then str_take (Z.to_nat (n + k)) s ++ "." ++ str_drop (Z.to_nat (n + k)) s
  else "0." ++ zeros (Z.to_nat (- k - n)) ++ s.

(** [format!("{}", x)] for an [f64]. *)
Definition display_f64 (x : f64) : string :=
  match Prim2SF x with
  | S754_zero s => if s then "-0" else "0"
  | S754_infinity s => if s then "-inf" else "inf"
  | S754_nan => "NaN"
  | S754_finite s m e => (if s then "-" else "") ++ let '(d, k) := shortest m e in render d k
  end.

(** ** Reading a decimal back *)

(** The digits of [s] after the digits already read, [acc]. *)
Fixpoint digits_val (s : string) (acc : Z) : Z :=
  match s with
  | EmptyString => acc
  | String c r => digits_val r (10 * acc + default 0 (digit_value c))%Z
  end.

(** A decimal literal without exponent, [ddd] or [ddd.ddd], as the pair
    [(d, k)] of its value [d * 10^k]; [frac] counts the digits after the
    point once it is read. *)
Fixpoint read_decimal (s : string) (acc : Z) (frac : option Z) : option (Z * Z) :=
  match s with
  | EmptyString => Some (acc, match frac with Some f => (- f)%Z | None => 0%Z end)
  | String c r =>
      if Ascii.eqb c "." then (if frac is None then read_decimal r acc (Some 0%Z) else None)
      else d ← digit_value c; read_decimal r (10 * acc + d)%Z (Z.succ <$> frac)
  end.

(** ** Powers *)

Local Open Scope Q_scope.

Lemma pow2_pos z : 0 < pow2 z.
Proof. apply Qpower_0_lt. lra. Qed.

Lemma pow10_pos k : 0 < pow10 k.
Proof. apply Qpower_0_lt. lra. Qed.

Lemma pow2_pred z : pow2 z == 2 * pow2 (z - 1).
Proof.
  unfold pow2. replace z with ((z - 1) + 1)%Z at 1 by lia.
  rewrite Qpower_plus by (intros H; discriminate H). cbn. lra.
Qed.

Lemma pow2_add a b : pow2 (a + b) == pow2 a * pow2 b.
Proof. unfold pow2. apply Qpower_plus. intros H; discriminate H. Qed.

Lemma pow10_add k j : pow10 (k + j) == pow10 k * pow10 j.
Proof. unfold pow10. apply Qpower_plus. intros H; discriminate H. Qed.

Lemma pow10_Z j : (0 <= j)%Z -> pow10 j == inject_Z (10 ^ j).
Proof. intros Hj. unfold pow10. by rewrite Zpower_Qpower. Qed.

Lemma pow2_Z j : (0 <= j)%Z -> pow2 j == inject_Z (2 ^ j).
Proof. intros Hj. unfold pow2. by rewrite Zpower_Qpower. Qed.

Lemma Qinv_le_anti a b : 0 < a -> a <= b -> / b <= / a.
Proof.
  intros Ha Hab. apply Qle_shift_inv_l; [lra |].
  rewrite Qmult_comm. change (a / b <= 1). apply Qle_shift_div_r; lra.
Qed.

(** [2^n <= 10^n] for [n >= 0], and the other way round below 0. *)
Lemma pow2_le_pow10 n : (0 <= n)%Z -> pow2 n <= pow10 n.
Proof.
  intros Hn. rewrite pow2_Z, pow10_Z by done. rewrite <- Zle_Qle.
  apply Z.pow_le_mono_l. lia.
Qed.

Lemma pow10_le_pow2 n : (n <= 0)%Z -> pow10 n <= pow2 n.
Proof.
  intros Hn. assert (Hp : pow2 (- n) <= pow10 (- n)) by (apply pow2_le_pow10; lia).
  unfold pow10, pow2 in *. replace n with (- (- n))%Z by lia.
  rewrite !(Qpower_opp _ (- n)). apply Qinv_le_anti; [apply Qpower_0_lt; lra | done].
Qed.

Lemma pow2_le_1 n : (n <= 0)%Z -> pow2 n <= 1.
Proof. intros Hn. apply (Qpower_le_compat_l (2 # 1) n 0); [done | lra]. Qed.

Lemma pow10_ge_1 n : (0 <= n)%Z -> 1 <= pow10 n.
Proof. intros Hn. apply Qpower_1_le; [lra | done]. Qed.

Lemma pow10_mono k j : (k <= j)%Z -> pow10 k <= pow10 j.
Proof. intros H. apply Qpower_le_compat_l; [done | lra]. Qed.

(** The integers below a rational [x / p]. *)
Lemma floor_div_le x p : 0 < p -> inject_Z (Qfloor (x / p)) * p <= x.
Proof.
  intros Hp. pose proof (Qfloor_le (x / p)) as H.
  apply (Qmult_le_r _ _ p) in H; [| done].
  eapply Qle_trans; [exact H |]. rewrite Qmult_comm, Qmult_div_r; lra.
Qed.

Lemma floor_div_lt x p : 0 < p -> x < inject_Z (Qfloor (x / p) + 1) * p.
Proof.
  intros Hp. pose proof (Qlt_floor (x / p)) as H.
  apply (Qmult_lt_r _ _ p) in H; [| done].
  eapply Qle_lt_trans; [| exact H]. rewrite Qmult_comm, Qmult_div_r; lra.
Qed.

Lemma floor_div_max d x p : 0 < p -> inject_Z d * p <= x -> (d <= Qfloor (x / p))%Z.
Proof.
  intros Hp H. rewrite <- (Qfloor_Z d). apply Qfloor_resp_le.
  apply Qle_shift_div_l; done.
Qed.

Lemma qlt_spec a b : qlt a b = true <-> a < b.
Proof. unfold qlt. rewrite Qlt_alt. by destruct (a ?= b). Qed.

Lemma dec_val_le d d' k : (d <= d')%Z -> dec_val d k <= dec_val d' k.
Proof. intros H. unfold dec_val. apply Qmult_le_r; [apply pow10_pos | by rewrite <- Zle_Qle]. Qed.

(** A multiple of [10^(k+j)] is one of [10^k]. *)
Lemma dec_val_scale d k j : (0 <= j)%Z -> dec_val (d * 10 ^ j) k == dec_val d (k + j).
Proof.
  intros Hj. unfold dec_val. rewrite inject_Z_mult, pow10_add, (pow10_Z j Hj). ring.
Qed.

(** ** The rounding interval *)

Section Interval.
Context (m : positive) (e : Z).

Lemma bin_val_ge : pow2 e <= bin_val m e.
Proof.
  unfold bin_val. rewrite <- (Qmult_1_l (pow2 e)) at 1.
  apply Qmult_le_r; [apply pow2_pos |]. change (inject_Z 1 <= inject_Z (Zpos m)).
  rewrite <- Zle_Qle. lia.
Qed.

Lemma gap_below_bounds : pow2 (e - 2) <= gap_below m e <= pow2 (e - 1).
Proof.
  pose proof (pow2_pred (e - 1)) as H. replace (e - 1 - 1)%Z with (e - 2)%Z in H by lia.
  pose proof (pow2_pos (e - 2)). unfold gap_below. destruct (_ && _); lra.
Qed.

Lemma gap_above_pos : 0 < gap_above e.
Proof. apply pow2_pos. Qed.

Lemma low_pos : 0 < low m e.
Proof.
  pose proof bin_val_ge. pose proof gap_below_bounds. pose proof (pow2_pred e).
  pose proof (pow2_pos (e - 1)). unfold low. lra.
Qed.

Lemma in_interval_bounds q : in_interval m e q = true -> low m e <= q <= high m e.
Proof.
  unfold in_interval. destruct (Z.even _).
  - intros [H1 H2]%andb_prop. apply Qle_bool_iff in H1, H2. lra.
  - intros [H1 H2]%andb_prop. apply qlt_spec in H1, H2. lra.
Qed.

Lemma in_interval_inner q : low m e < q < high m e -> in_interval m e q = true.
Proof.
  intros [H1 H2]. unfold in_interval. destruct (Z.even _); apply andb_true_intro.
  - rewrite !Qle_bool_iff. lra.
  - rewrite !qlt_spec. lra.
Qed.

Lemma bin_val_inner : low m e < bin_val m e < high m e.
Proof.
  pose proof gap_below_bounds. pose proof gap_above_pos. pose proof (pow2_pos (e - 2)).
  unfold low, high. lra.
Qed.

(** [in_interval] is a predicate on rationals, not on their representations. *)
#[export] Instance in_interval_Proper : Proper (Qeq ==> eq) (in_interval m e).
Proof.
  intros a b Hab. apply Bool.eq_true_iff_eq. unfold in_interval. destruct (Z.even _);
    rewrite !andb_true_iff, ?Qle_bool_iff, ?qlt_spec, Hab; done.
Qed.

(** The interval is convex: between a point of it and the value, all are in it. *)
Lemma in_interval_between a q :
  in_interval m e a = true -> a <= q <= bin_val m e \/ bin_val m e <= q <= a ->
  in_interval m e q = true.
Proof.
  pose proof bin_val_inner. unfold in_interval. destruct (Z.even _).
  - intros [H1 H2]%andb_prop Hq. apply Qle_bool_iff in H1, H2.
    apply andb_true_intro. rewrite !Qle_bool_iff. lra.
  - intros [H1 H2]%andb_prop Hq. apply qlt_spec in H1, H2.
    apply andb_true_intro. rewrite !qlt_spec. lra.
Qed.

End Interval.

(** ** The search *)

Section Search.
Context (m : positive) (e : Z).

Lemma cand_below_le k : dec_val (cand_below m e k) k <= bin_val m e.
Proof. apply floor_div_le, pow10_pos. Qed.

Lemma cand_above_gt k : bin_val m e < dec_val (cand_below m e k + 1) k.
Proof. apply floor_div_lt, pow10_pos. Qed.

Lemma cand_below_max d k : dec_val d k <= bin_val m e -> (d <= cand_below m e k)%Z.
Proof. apply floor_div_max, pow10_pos. Qed.

(** [good k] holds as soon as any multiple of [10^k] rounds to the double:
    the nearest ones below and above the value are closer. *)
Lemma good_complete d k : in_interval m e (dec_val d k) = true -> good m e k = true.
Proof.
  intros Hd. unfold good. apply orb_true_intro.
  destruct (Qlt_le_dec (bin_val m e) (dec_val d k)) as [Hgt | Hle].
  - right. apply (in_interval_between m e (dec_val d k)); [done | right; split].
    + pose proof (cand_above_gt k). lra.
    + apply dec_val_le. destruct (Z.le_gt_cases d (cand_below m e k)) as [Hc | Hc]; [| lia].
      pose proof (dec_val_le _ _ k Hc). pose proof (cand_below_le k). lra.
  - left. apply (in_interval_between m e (dec_val d k)); [done | left; split].
    + by apply dec_val_le, cand_below_max.
    + apply cand_below_le.
Qed.

Lemma good_sound k : good m e k = true -> exists d, in_interval m e (dec_val d k) = true.
Proof. unfold good. intros [H | H]%orb_true_iff; eauto. Qed.

(** Goodness is downward closed. *)
Lemma good_down k j : good m e j = true -> (k <= j)%Z -> good m e k = true.
Proof.
  intros Hg Hkj. destruct (good_sound j Hg) as [d Hd].
  apply (good_complete (d * 10 ^ (j - k)) k). rewrite dec_val_scale by lia.
  by replace (k + (j - k))%Z with j by lia.
Qed.

Lemma high_lt_top : high m e < pow10 (k_top m e).
Proof.
  set (n := Z.log2 (Zpos m)).
  assert (Hm : (2 * Zpos m + 1 < 2 ^ (n + 2))%Z).
  { pose proof (Z.log2_spec (Zpos m) ltac:(lia)) as [_ H]. fold n in H.
    pose proof (Z.log2_nonneg (Zpos m)). fold n in H0.
    rewrite Z.pow_succ_r in H by lia.
    rewrite Z.pow_add_r by lia. change (2 ^ 2)%Z with 4%Z. lia. }
  assert (Hh : high m e == inject_Z (2 * Zpos m + 1) * pow2 (e - 1)).
  { unfold high, bin_val, gap_above. rewrite (pow2_pred e), inject_Z_plus, inject_Z_mult. ring. }
  assert (H2 : pow2 (log2_val m e + 1) == inject_Z (2 ^ (n + 2)) * pow2 (e - 1)).
  { unfold log2_val. fold n. replace (n + e + 1)%Z with ((n + 2) + (e - 1))%Z by lia.
    rewrite pow2_add, pow2_Z; [reflexivity | subst n; pose proof (Z.log2_nonneg (Zpos m)); lia]. }
  assert (Hlt : high m e < pow2 (log2_val m e + 1)).
  { rewrite Hh, H2. apply Qmult_lt_r; [apply pow2_pos | by rewrite <- Zlt_Qlt]. }
  unfold k_top. destruct (Z.max_spec 0 (log2_val m e + 1)) as [[Hc ->] | [Hc ->]].
  - pose proof (pow2_le_pow10 (log2_val m e + 1) ltac:(lia)). lra.
  - pose proof (pow2_le_1 (log2_val m e + 1) ltac:(lia)). change (pow10 0) with 1. lra.
Qed.

(** No multiple of [10^k] rounds to the double from [k_top] up. *)
Lemma good_top k : (k_top m e <= k)%Z -> good m e k = false.
Proof.
  intros Hk. destruct (good m e k) eqn:Hg; [exfalso | done].
  destruct (good_sound k Hg) as [d Hd%in_interval_bounds].
  pose proof (low_pos m e). pose proof high_lt_top. pose proof (pow10_mono _ _ Hk).
  destruct (Z.le_gt_cases d 0) as [Hd0 | Hd0].
  - pose proof (dec_val_le _ _ k Hd0). unfold dec_val at 2 in H2. rewrite Qmult_0_l in H2. lra.
  - pose proof (dec_val_le 1 d k ltac:(lia)). unfold dec_val at 1 in H2. rewrite Qmult_1_l in H2. lra.
Qed.

(** One of [10^k_bot] does: the interval is wider than [10^k_bot]. *)
Lemma good_bot : good m e (k_bot e) = true.
Proof.
  set (kb := k_bot e). set (p := pow10 kb).
  assert (Hp : p <= pow2 (e - 2)).
  { subst p kb. unfold k_bot. destruct (Z.min_spec 0 (e - 2)) as [[Hc ->] | [Hc ->]].
    - change (pow10 0) with 1. apply Qpower_1_le; [lra | lia].
    - apply pow10_le_pow2. lia. }
  pose proof (pow10_pos kb). fold p in H.
  pose proof (floor_div_le (low m e) p H) as H1. pose proof (floor_div_lt (low m e) p H) as H2.
  apply (good_complete (Qfloor (low m e / p) + 1)). apply in_interval_inner. unfold dec_val. fold p.
  rewrite inject_Z_plus in *. pose proof (gap_below_bounds m e). pose proof (gap_above_pos e).
  unfold high, low in *. rewrite Qmult_plus_distr_l, Qmult_1_l in *. split; lra.
Qed.

Lemma search_up_spec fuel k :
  good m e k = true -> (k_top m e <= k + Z.of_nat fuel)%Z ->
  good m e (search_up m e fuel k) = true /\ good m e (search_up m e fuel k + 1) = false.
Proof.
  revert k. induction fuel as [| n IH]; intros k Hg Hf; cbn.
  - split; [done |]. apply good_top. lia.
  - destruct (good m e (k + 1)) eqn:H1; [apply IH; [done | lia] | done].
Qed.

Lemma search_down_spec fuel k :
  good m e (k + 1) = false -> (k_bot e <= k)%Z -> (k - k_bot e < Z.of_nat fuel)%Z ->
  good m e (search_down m e fuel k) = true /\ good m e (search_down m e fuel k + 1) = false.
Proof.
  revert k. induction fuel as [| n IH]; intros k Hg Hb Hf; cbn; [lia |].
  destruct (good m e k) eqn:Hk; [done |].
  assert (k <> k_bot e) by (intros ->; by rewrite good_bot in Hk).
  apply IH; [by replace (k - 1 + 1)%Z with k by lia | lia | lia].
Qed.

(** The search ends, within its fuel, at the largest good exponent. *)
Lemma find_k_spec : good m e (find_k m e) = true /\ good m e (find_k m e + 1) = false.
Proof.
  unfold find_k. set (k := k_est m e).
  assert (Hk : (k_bot e <= k <= k_top m e)%Z) by (subst k; unfold k_est, k_bot, k_top; lia).
  destruct (good m e k) eqn:Hg.
  - apply search_up_spec; [done | lia].
  - assert (k <> k_bot e) by (intros Heq; rewrite Heq, good_bot in Hg; discriminate).
    apply search_down_spec; [by replace (k - 1 + 1)%Z with k by lia | lia | lia].
Qed.

(** What [pick] chooses: one of the two nearest multiples, in the
    interval, and no farther from the value than the other one when that
    one is in the interval too. *)
Lemma pick_cases k (c := cand_below m e k) :
  good m e k = true ->
  (pick m e k = c /\ in_interval m e (dec_val c k) = true /\
     (in_interval m e (dec_val (c + 1) k) = true ->
      bin_val m e - dec_val c k <= dec_val (c + 1) k - bin_val m e)) \/
  (pick m e k = (c + 1)%Z /\ in_interval m e (dec_val (c + 1) k) = true /\
     (in_interval m e (dec_val c k) = true ->
      dec_val (c + 1) k - bin_val m e <= bin_val m e - dec_val c k)).
Proof.
  unfold good, pick. fold c.
  destruct (in_interval m e (dec_val c k)) eqn:H1, (in_interval m e (dec_val (c + 1) k)) eqn:H2;
    cbv beta iota zeta delta [orb]; intros Hg; try discriminate.
  - destruct (Qcompare_spec (bin_val m e - dec_val c k) (dec_val (c + 1) k - bin_val m e)) as [Hc | Hc | Hc].
    + destruct (Z.even c); [left | right]; (split; [done | split; [done | intros _; lra]]).
    + left. split; [done | split; [done | intros _; lra]].
    + right. split; [done | split; [done | intros _; lra]].
  - left. split; [done | split; [done | discriminate]].
  - right. split; [done | split; [done | discriminate]].
Qed.

Lemma pick_in k : good m e k = true -> in_interval m e (dec_val (pick m e k) k) = true.
Proof. intros Hg. destruct (pick_cases k Hg) as [(-> & H & _) | (-> & H & _)]; done. Qed.

Lemma pick_closest k d :
  good m e k = true -> in_interval m e (dec_val d k) = true ->
  Qabs (bin_val m e - dec_val (pick m e k) k) <= Qabs (bin_val m e - dec_val d k).
Proof.
  intros Hg Hd. pose proof (pick_cases k Hg) as Hp.
  pose proof (cand_below_le k) as Hc. pose proof (cand_above_gt k) as Hc1. set (c := cand_below m e k) in *.
  destruct (Z.le_gt_cases d c) as [Hdc | Hdc].
  - pose proof (dec_val_le _ _ k Hdc).
    assert (Hin : in_interval m e (dec_val c k) = true)
      by (apply (in_interval_between m e (dec_val d k)); [done | left; split; lra]).
    rewrite (Qabs_pos (bin_val m e - dec_val d k)) by lra.
    destruct Hp as [(-> & _ & _) | (-> & _ & Hle)].
    + rewrite Qabs_pos; lra.
    + specialize (Hle Hin). rewrite Qabs_neg; lra.
  - assert (Hdc' : (c + 1 <= d)%Z) by lia. pose proof (dec_val_le _ _ k Hdc').
    assert (Hin : in_interval m e (dec_val (c + 1) k) = true)
      by (apply (in_interval_between m e (dec_val d k)); [done | right; split; lra]).
    rewrite (Qabs_neg (bin_val m e - dec_val d k)) by lra.
    destruct Hp as [(-> & _ & Hle) | (-> & _ & _)].
    + specialize (Hle Hin). rewrite Qabs_pos; lra.
    + rewrite Qabs_neg; lra.
Qed.

End Search.

(** ** The text printed reads back as the decimal *)

Section Reading.
Local Open Scope Z_scope.
Local Open Scope string_scope.

Lemma digit_not_point c v : digit_value c = Some v -> Ascii.eqb c "." = false.
Proof. intros Hc. destruct (Ascii.eqb_spec c "."); [subst; discriminate | done]. Qed.

Lemma read_decimal_digit c r acc fr v :
  digit_value c = Some v -> read_decimal (String c r) acc fr = read_decimal r (10 * acc + v) (Z.succ <$> fr).
Proof. intros Hc. cbn [read_decimal]. rewrite (digit_not_point _ _ Hc), Hc. reflexivity. Qed.

(** A run of digits is read by the digit loop. *)
Lemma read_decimal_digits t r acc fr :
  all_digits t = true ->
  read_decimal (t ++ r) acc fr =
  read_decimal r (digits_val t acc) ((fun f => f + Z.of_nat (String.length t)) <$> fr).
Proof.
  revert acc fr. induction t as [| c t IH]; intros acc fr Ht; cbn [String.append digits_val].
  - destruct fr; cbn; repeat f_equal; lia.
  - cbn [all_digits] in Ht. destruct (digit_value c) as [v |] eqn:Hc; [| discriminate].
    rewrite append_cons, (read_decimal_digit _ _ _ _ _ Hc), IH by done. cbn [default String.length]. f_equal.
    destruct fr; cbn; f_equal; lia.
Qed.

Lemma digits_val_app a b acc : digits_val (a ++ b) acc = digits_val b (digits_val a acc).
Proof. revert acc. induction a as [| c a IH]; intros acc; [done | apply IH]. Qed.

Lemma digits_val_acc t acc : digits_val t acc = acc * 10 ^ Z.of_nat (String.length t) + digits_val t 0.
Proof.
  revert acc. induction t as [| c t IH]; intros acc; cbn [digits_val String.length]; [lia |].
  rewrite IH, (IH (10 * 0 + _)). rewrite Nat2Z.inj_succ, Z.pow_succ_r by lia. lia.
Qed.

Lemma digits_val_show_dec_aux f n acc :
  0 <= n < 10 ^ Z.of_nat f ->
  digits_val (show_dec_aux f n acc) 0 = n * 10 ^ Z.of_nat (String.length acc) + digits_val acc 0.
Proof.
  revert n acc. induction f as [| f IH]; intros n acc Hn; [cbn in Hn; replace n with 0 by lia; done |].
  pose proof (Z.mod_pos_bound n 10 ltac:(lia)) as Hmod. pose proof (Z.div_mod n 10 ltac:(lia)) as Hdm.
  assert (Hc : digits_val (String (digit_char (n mod 10)) acc) 0 =
               n mod 10 * 10 ^ Z.of_nat (String.length acc) + digits_val acc 0).
  { cbn [digits_val]. rewrite digit_value_char by done. cbn [default].
    unfold id. rewrite (digits_val_acc acc (10 * 0 + n mod 10)). ring. }
  cbn [show_dec_aux]. destruct (Z.ltb_spec n 10).
  - rewrite Hc, Z.mod_small by lia. done.
  - rewrite Nat2Z.inj_succ, Z.pow_succ_r in Hn by lia.
    rewrite IH by (split; [apply Z.div_pos | apply Z.div_lt_upper_bound]; lia).
    rewrite Hc. cbn [String.length]. rewrite Nat2Z.inj_succ, Z.pow_succ_r by lia. lia.
Qed.

Lemma digits_val_show_dec n : 0 <= n -> digits_val (show_dec n) 0 = n.
Proof.
  intros Hn. unfold show_dec. rewrite digits_val_show_dec_aux by (split; [done | by apply show_dec_fuel]).
  cbn. lia.
Qed.

Lemma zeros_spec n acc :
  all_digits (zeros n) = true /\ String.length (zeros n) = n /\
  digits_val (zeros n) acc = acc * 10 ^ Z.of_nat n.
Proof.
  revert acc. induction n as [| n IH]; intros acc; [cbn; repeat split; lia |].
  destruct (IH (10 * acc)) as (H1 & H2 & H3). cbn [zeros all_digits String.length digits_val].
  change (digit_value "0") with (Some 0). cbn [default]. rewrite Z.add_0_r, H3, H2.
  repeat split; [done | rewrite Nat2Z.inj_succ, Z.pow_succ_r by lia; lia].
Qed.

Lemma all_digits_app a b : all_digits (a ++ b) = true <-> all_digits a = true /\ all_digits b = true.
Proof.
  induction a as [| c a IH]; [rewrite append_nil_l; cbn; tauto |].
  rewrite append_cons. cbn [all_digits]. destruct (digit_value c); [exact IH |].
  split; [discriminate | intros [? _]; discriminate].
Qed.

(** [render] writes [d * 10^k]: with its digits and trailing zeros when
    [k >= 0], with [-k] digits after the point otherwise. *)
Lemma render_read d k :
  0 <= d ->
  read_decimal (render d k) 0%Z None = Some (if (0 <=? k)%Z then ((d * 10 ^ k)%Z, 0%Z) else (d, k)).
Proof.
  intros Hd. pose proof (show_dec_digits d Hd) as Hs. pose proof (digits_val_show_dec d Hd) as Hv.
  unfold render. set (t := show_dec d) in *. set (n := Z.of_nat (String.length t)).
  assert (Hn : n = Z.of_nat (String.length t)) by reflexivity. clearbody t n.
  destruct (Z.leb_spec 0 k) as [Hk | Hk]; [| destruct (Z.ltb_spec (- k) n) as [Hkn | Hkn]].
  - destruct (zeros_spec (Z.to_nat k) (digits_val t 0)) as (Hz & _ & Hzv).
    rewrite read_decimal_digits, <- (append_nil_r (zeros _)), read_decimal_digits by done.
    rewrite Hzv, Hv, Z2Nat.id by lia. reflexivity.
  - rewrite <- (str_take_drop (Z.to_nat (n + k)) t) in Hs, Hv. apply all_digits_app in Hs as [Ht Hd'].
    rewrite read_decimal_digits by done. rewrite append_cons, append_nil_l. cbn [read_decimal Ascii.eqb].
    rewrite <- (append_nil_r (str_drop _ t)), read_decimal_digits by done. cbn.
    rewrite <- digits_val_app, Hv, length_str_drop. do 2 f_equal. lia.
  - destruct (zeros_spec (Z.to_nat (- k - n)) 0) as (Hz & Hzl & Hzv).
    rewrite !append_cons, append_nil_l, (read_decimal_digit _ _ _ _ 0) by reflexivity.
    cbn [read_decimal Ascii.eqb fmap option_fmap option_map]. rewrite Z.mul_0_r, Z.add_0_r.
    rewrite <- (append_nil_r t), !read_decimal_digits by (rewrite ?all_digits_app; done).
    rewrite append_nil_r. cbn. rewrite Hzv, Z.mul_0_l, Hv, Hzl. do 2 f_equal. lia.
Qed.

(** The text [render d k] reads back as a decimal of value [d * 10^k]. *)
Lemma render_value d k :
  0 <= d -> exists d' k', read_decimal (render d k) 0%Z None = Some (d', k') /\ dec_val d' k' == dec_val d k.
Proof.
  intros Hd. rewrite render_read by done. destruct (Z.leb_spec 0 k).
  - eexists _, _. split; [reflexivity |]. rewrite dec_val_scale by done. reflexivity.
  - eexists _, _. split; reflexivity.
Qed.

End Reading.

(** A decimal that rounds to a positive double is positive. *)
Lemma in_interval_pos m e d k : in_interval m e (dec_val d k) = true -> (0 < d)%Z.
Proof.
  intros [Hlo _]%in_interval_bounds. pose proof (low_pos m e). pose proof (pow10_pos k).
  destruct (Z.lt_ge_cases 0 d) as [? | Hd]; [done | exfalso].
  assert (inject_Z d <= 0) by (change 0 with (inject_Z 0); by rewrite <- Zle_Qle).
  unfold dec_val in Hlo. nra.
Qed.

(** ** The shortest decimal *)

Lemma shortest_spec m e :
  let '(d, k) := shortest m e in
  in_interval m e (dec_val d k) = true /\
  (forall d' k', in_interval m e (dec_val d' k') = true -> (k' <= k)%Z) /\
  (forall d', in_interval m e (dec_val d' k) = true ->
     Qabs (bin_val m e - dec_val d k) <= Qabs (bin_val m e - dec_val d' k)).
Proof.
  unfold shortest. destruct (find_k_spec m e) as [Hg Hg1].
  split; [by apply pick_in | split].
  - intros d' k' Hd. apply good_complete in Hd.
    destruct (Z.le_gt_cases k' (find_k m e)) as [? | Hk]; [done | exfalso].
    rewrite (good_down m e (find_k m e + 1) k') in Hg1; [discriminate | done | lia].
  - intros d' Hd. by apply pick_closest.
Qed.

(** C12: [format!("{}", x)] of a finite non-zero [f64] prints its sign and
    the text of a decimal [d * 10^k] (read as a decimal literal, the text
    has that value) that reads back as [x]: it lies in the rounding
    interval of [x]; no decimal with a larger exponent (so with fewer
    significant digits) does; and of the multiples of [10^k] that do,
    [d * 10^k] is the closest to [x]. *)
Theorem display_f64_shortest x s m e :
  Prim2SF x = S754_finite s m e ->
  exists d k, display_f64 x = ((if s then "-" else "") ++ render d k)%string /\
    (exists d' k', read_decimal (render d k) 0%Z None = Some (d', k') /\ dec_val d' k' == dec_val d k) /\
    in_interval m e (dec_val d k) = true /\
    (forall d' k', in_interval m e (dec_val d' k') = true -> (k' <= k)%Z) /\
    (forall d', in_interval m e (dec_val d' k) = true ->
       Qabs (bin_val m e - dec_val d k) <= Qabs (bin_val m e - dec_val d' k)).
Proof.
  intros Hx. pose proof (shortest_spec m e) as Hs. destruct (shortest m e) as [d k] eqn:Hsh.
  exists d, k. unfold display_f64. rewrite Hx, Hsh. split; [reflexivity |]. split; [| exact Hs].
  apply render_value. destruct Hs as [Hin _]. apply in_interval_pos in Hin. lia.
Qed.

(** What Rust prints for some doubles. *)
Example display_f64_values :
  map display_f64 [PI; 0.1 + 0.2; 1e21; 5e-324; -0.0; 1 / 0; 100; 2.5]%float =
  ["3.141592653589793"; "0.30000000000000004"; "1000000000000000000000";
   "0." ++ zeros 323 ++ "5"; "-0"; "inf"; "100"; "2.5"]%string.
Proof. vm_compute. reflexivity. Qed.

(** ** Witnesses *)

Lemma display_f64_shortest_witness :
  Prim2SF PI = S754_finite false 7074237752028440 (-51) /\
  exists d k, display_f64 PI = ("" ++ render d k)%string /\
    (exists d' k', read_decimal (render d k) 0%Z None = Some (d', k') /\ dec_val d' k' == dec_val d k) /\
    in_interval 7074237752028440 (-51) (dec_val d k) = true /\
    (forall d' k', in_interval 7074237752028440 (-51) (dec_val d' k') = true -> (k' <= k)%Z) /\
    (forall d', in_interval 7074237752028440 (-51) (dec_val d' k) = true ->
       Qabs (bin_val 7074237752028440 (-51) - dec_val d k) <=
       Qabs (bin_val 7074237752028440 (-51) - dec_val d' k)).
Proof.
  split; [vm_compute; reflexivity |].
  apply (display_f64_shortest PI false 7074237752028440 (-51)). vm_compute. reflexivity.
Defined.
