(* ===== verification/ProcMacro.v ===== *)
(** * The attribute macros of attri-hello and the program that uses them

    Models src/pro/attri-hello/src/lib.rs ([hello_attribute],
    [show_streams], [repeat]) and src/pro/attri-hello-call/src/main.rs:
    its [Hello!] macro, its three attributed functions, its [main] and its
    [feature] test, which replays the loop of [repeat].  A [TokenStream] is
    the list of source fragments it was built from: [TokenStream::new()] is
    [[]], [extend] appends, [to_string] joins the fragments with spaces.
    What a macro prints while the program builds is returned as its list of
    lines; a macro that panics returns its panic.  [repeat] parses each
    spliced copy back with [ret.parse::<TokenStream>().unwrap()]: the
    lexer is the interface [Lexer], the theorems hold for any lexer, and
    the build runs with [rust_lexer], an approximation of rustc's that
    checks delimiters, literals, comments and quotes.

    A function of attri-hello-call is an [FnItem], its name and the lines
    its body prints; [fn_text] is its token stream as [to_string] prints
    it, and [parse_fn] is the compiler reading an expanded item back
    ([ret.parse::<TokenStream>()] and the item parser), a partial inverse
    of [fn_text].  [build] expands the three attributed items in source
    order and reads the expansions back; [call_main] runs [main] on the
    items, a call printing the lines of the callee's body.

    The parsing of the count and the printing of [i+1] are those of
    [RustStd].  The theorems: [repeat] expands to one copy of the item per
    count with [i+1] spliced in before the first parenthesis when every
    copy lexes, and panics in [unwrap] otherwise (an item whose first
    parenthesis is inside a character literal, [const C: char = '(';]);
    it never overflows its counter and produces pairwise distinct items;
    on a function [f] whose copies lex it generates the functions [f1],
    ..., [fn] with the body of [f], which the compiler reads back.  Two
    examples run the program: attri-hello-call builds and its [main]
    prints three lines, and the [feature] test prints what the macro
    prints. *)

From S2P Require Import Prelude RustStd Utf8.
From Stdlib Require Import Ascii String.

Local Open Scope Z_scope.

(** ** The macros *)

Local Open Scope string_scope.

(** A token stream, by the source fragments it was built from. *)
Definition TokenStream : Type := list string.

Definition ts_to_string (ts : TokenStream) : string := String.concat " " ts.

(** A macro expands to a token stream and prints lines while it runs. *)
Definition Expansion : Type := TokenStream * list string.

(** What makes a macro panic: an [unwrap] on a failed integer parse, or
    the overflow of [i+1] (a debug-build panic). *)
Inductive Panic := UnwrapParseInt (e : IntErrorKind) | AddOverflow | UnwrapLexError.

(** [text.parse::<TokenStream>()]: whether a text lexes into a token
    stream.  The lexer is the compiler's; [repeat] and its theorems take
    it as a parameter, and [rust_lexer] below is the instance the build
    runs with. *)
Class Lexer := { lexes : string -> bool }.

(** [hello_attribute]: print [println!("Hello, <attr>");] and return the
    item unchanged. *)
Definition hello_attribute (attr input1 : TokenStream) : Expansion :=
  let output := "println!(" ++ dquote ++ "Hello, " ++ ts_to_string attr ++ dquote ++ ");" in
  (input1, [output]).

(** [show_streams]: print both streams and return the item unchanged. *)
Definition show_streams (attr item : TokenStream) : Expansion :=
  (item, ["attr: " ++ dquote ++ ts_to_string attr ++ dquote;
          "item: " ++ dquote ++ ts_to_string item ++ dquote]).

(** The line [println!("fn: \"{}\"", ret)] prints. *)
Definition fn_line (ret : string) : string := "fn: " ++ dquote ++ ret ++ dquote.

(** [format!("{}{}{}", &input_fn[..index], i+1, &input_fn[index..])]. *)
Definition splice (input_fn : string) (index : nat) (k : Z) : string :=
  str_take index input_fn ++ show_dec k ++ str_drop index input_fn.

(** [for i in 0..repeat_count { ... }]: [count] iterations from [i],
    each printing its line and then extending [output] with
    [ret.parse::<TokenStream>().unwrap()], which panics on a text that
    does not lex. *)
Fixpoint repeat_loop `{Lexer} (input_fn : string) (index : nat) (i : Z) (count : nat)
    (output : TokenStream) (lines : list string) : result Expansion Panic :=
  match count with
  | O => Ok (output, lines)
  | S n =>
      match checked_add u32 i 1 with
      | None => Err AddOverflow
      | Some i1 =>
          let ret := splice input_fn index i1 in
          let lines := (lines ++ [fn_line ret])%list in
          if lexes ret then repeat_loop input_fn index (i + 1) n (output ++ [ret])%list lines
          else Err UnwrapLexError
      end
  end.

(** [repeat]: parse the count from the attribute ([unwrap] panics on a bad
    one), then emit one copy of the item per iteration, the iteration
    number plus one spliced in before the first parenthesis; no
    parenthesis, no output. *)
Definition repeat `{Lexer} (attr input : TokenStream) : result Expansion Panic :=
  match parse_u32 (ts_to_string attr) with
  | Err e => Err (UnwrapParseInt e)
  | Ok repeat_count =>
      let input_fn := ts_to_string input in
      match find_char "(" input_fn with
      | Some index => repeat_loop input_fn index 0 (Z.to_nat repeat_count) [] []
      | None => Ok ([], [])
      end
  end.

(** ** A lexer for the build

    An approximation of rustc's lexer sufficient for the texts of this
    program: it rejects unbalanced or mismatched delimiters, unterminated
    string literals and block comments, and a single quote that starts
    neither a character literal (one UTF-8 character or an escape, then a
    quote) nor a lifetime (an identifier); every other byte outside
    literals and comments is taken as a token. *)

Definition dq : ascii := ascii_of_nat 34.
Definition sq : ascii := ascii_of_nat 39.
Definition bs : ascii := ascii_of_nat 92.

(** The rest after a string literal's closing quote; [\] escapes the
    next byte. *)
Fixpoint lex_str (s : string) : option string :=
  match s with
  | EmptyString => None
  | String c r =>
      if Ascii.eqb c dq then Some r
      else if Ascii.eqb c bs then match r with String _ r' => lex_str r' | EmptyString => None end
      else lex_str r
  end.

Definition ident_start (c : ascii) : bool :=
  let n := nat_of_ascii c in
  (Nat.leb 65 n && Nat.leb n 90) || (Nat.leb 97 n && Nat.leb n 122) || Nat.eqb n 95.

Definition ident_continue (c : ascii) : bool :=
  let n := nat_of_ascii c in ident_start c || (Nat.leb 48 n && Nat.leb n 57).

Fixpoint skip_ident (s : string) : string :=
  match s with
  | String c r => if ident_continue c then skip_ident r else s
  | EmptyString => EmptyString
  end.

(** After a single quote: an escaped character literal up to its closing
    quote, a character literal of one UTF-8 character, or a lifetime. *)
Definition lex_quote (s : string) : option string :=
  match s with
  | EmptyString => None
  | String c r =>
      if Ascii.eqb c bs then
        match r with
        | String _ r' => option_map (fun i => str_drop (S i) r') (find_char sq r')
        | EmptyString => None
        end
      else match str_drop (char_len c) s with
           | String q r' => if Ascii.eqb q sq then Some r' else if ident_start c then Some (skip_ident r) else None
           | EmptyString => if ident_start c then Some (skip_ident r) else None
           end
  end%nat.

(** The rest after a block comment, which nests. *)
Fixpoint lex_block (depth : nat) (s : string) : option string :=
  match s with
  | EmptyString => None
  | String c r =>
      match r with
      | String d r' =>
          if Ascii.eqb c "*" && Ascii.eqb d "/" then
            match depth with O => Some r' | S k => lex_block k r' end
          else if Ascii.eqb c "/" && Ascii.eqb d "*" then lex_block (S depth) r'
          else lex_block depth r
      | EmptyString => None
      end
  end.

Definition closing_of (c : ascii) : option ascii :=
  if Ascii.eqb c "(" then Some ")"%char else if Ascii.eqb c "[" then Some "]"%char
  else if Ascii.eqb c "{" then Some "}"%char else None.

Definition is_closing (c : ascii) : bool :=
  Ascii.eqb c ")" || Ascii.eqb c "]" || Ascii.eqb c "}".

(** The scan, with the stack of the closing delimiters expected. *)
Fixpoint lex_tokens (fuel : nat) (s : string) (stack : list ascii) : bool :=
  match fuel with
  | O => false
  | S f =>
      match s with
      | EmptyString => match stack with [] => true | _ => false end
      | String c r =>
          if Ascii.eqb c dq then match lex_str r with Some r' => lex_tokens f r' stack | None => false end
          else if Ascii.eqb c sq then match lex_quote r with Some r' => lex_tokens f r' stack | None => false end
          else if Ascii.eqb c "/" && (match r with String "/" _ => true | _ => false end) then
            match find_char (ascii_of_nat 10) r with
            | Some i => lex_tokens f (str_drop (S i) r) stack
            | None => match stack with [] => true | _ => false end
            end
          else if Ascii.eqb c "/" && (match r with String "*" _ => true | _ => false end) then
            match lex_block 0 (str_drop 1 r) with Some r' => lex_tokens f r' stack | None => false end
          else match closing_of c with
               | Some d => lex_tokens f r (d :: stack)
               | None =>
                   if is_closing c then
                     match stack with d :: st => if Ascii.eqb c d then lex_tokens f r st else false | [] => false end
                   else lex_tokens f r stack
               end
      end
  end.

(** Every step consumes a byte: the length of the text is enough fuel. *)
#[export] Instance rust_lexer : Lexer := { lexes s := lex_tokens (S (String.length s)) s [] }.

(** The [feature] test of attri-hello-call: the same loop on a fixed
    string, with an [i32] counter, printing only. *)
Fixpoint feature_loop (input_fn : string) (index : nat) (i : Z) (count : nat) : list string :=
  match count with
  | O => []
  | S n => fn_line (splice input_fn index (i + 1)) :: feature_loop input_fn index (i + 1) n
  end.

Definition feature : list string :=
  let repeat_count := 2 in
  let input_fn := "TokenStream::new()" in
  match find_char "(" input_fn with
  | Some index => feature_loop input_fn index 0 (Z.to_nat repeat_count)
  | None => []
  end.

(** ** The program attri-hello-call: its build and its run *)

(** A function item of attri-hello-call: its name and the lines its body
    prints with [println!]. *)
Record FnItem := { fn_name : string; fn_body : list string }.

Definition println_tokens (l : string) : string := " println! (" ++ dquote ++ l ++ dquote ++ ") ;".

(** The item's token stream as [to_string] prints it:
    [fn prt() { println! ("Hello, greet2!") ; }], [fn greet() {}]. *)
Definition fn_text (f : FnItem) : string :=
  "fn " ++ fn_name f ++ "() {" ++ String.concat "" (println_tokens <$> fn_body f)
  ++ (match fn_body f with [] => "}" | _ => " }" end).

(** The item with the suffix [j] appended to its name. *)
Definition rename (f : FnItem) (j : Z) : FnItem :=
  {| fn_name := fn_name f ++ show_dec j; fn_body := fn_body f |}.

(** The compiler reading an expanded item back. *)
Fixpoint strip (p s : string) : option string :=
  match p, s with
  | EmptyString, _ => Some s
  | String a p', String b s' => if ascii_dec a b then strip p' s' else None
  | _, _ => None
  end.

Fixpoint split_at (c : ascii) (s : string) : option (string * string) :=
  match s with
  | EmptyString => None
  | String d r => if ascii_dec c d then Some (EmptyString, r)
                  else option_map (fun p => (String d p.1, p.2)) (split_at c r)
  end.

Fixpoint parse_body (fuel : nat) (s : string) : option (list string) :=
  match fuel with
  | O => None
  | S f =>
      if String.eqb s "}" || String.eqb s " }" then Some []
      else r ← strip (" println! (" ++ dquote) s ;
           p ← split_at (ascii_of_nat 34) r ;
           r ← strip ") ;" p.2 ;
           ls ← parse_body f r ;
           Some (p.1 :: ls)
  end.

Definition parse_fn (s : string) : option FnItem :=
  r ← strip "fn " s ;
  p ← split_at "(" r ;
  r ← strip ") {" p.2 ;
  body ← parse_body (S (String.length r)) r ;
  Some {| fn_name := p.1; fn_body := body |}.

Definition greet_fn : FnItem := {| fn_name := "greet"; fn_body := [] |}.
Definition invoke1_fn : FnItem := {| fn_name := "invoke1"; fn_body := [] |}.
Definition prt_fn : FnItem := {| fn_name := "prt"; fn_body := ["Hello, greet2!"] |}.

(** Why a build fails: a macro panics, or its output is not an item. *)
Inductive BuildError := MacroPanic (p : Panic) | NotAnItem.

(** The build of attri-hello-call: the three attributed items expanded in
    source order, their expansions read back as items; with what the
    macros printed during the build. *)
Definition build : result (list FnItem * list string) BuildError :=
  let '(g, log1) := hello_attribute ["Greet"] [fn_text greet_fn] in
  let '(i, log2) := show_streams ["bar"] [fn_text invoke1_fn] in
  match repeat ["2"] [fn_text prt_fn] with
  | Err e => Err (MacroPanic e)
  | Ok (ps, log3) =>
      match mapM parse_fn (g ++ i ++ ps)%list with
      | Some items => Ok (items, (log1 ++ log2 ++ log3)%list)
      | None => Err NotAnItem
      end
  end.

(** [macro_rules! Hello]: [println!("Hello, {}!", $name)]. *)
Definition hello_line (name : string) : string := "Hello, " ++ name ++ "!".

(** A call of a function without parameters: the lines its body prints;
    [None] when no item has that name (a compile error). *)
Definition call (items : list FnItem) (name : string) : option (list string) :=
  fn_body <$> List.find (fun f => String.eqb (fn_name f) name) items.

(** [main]: print, [Hello!("Kitty")], then [greet()], [prt2()], [invoke1()]. *)
Definition call_main (items : list FnItem) : option (list string) :=
  g ← call items "greet" ;
  p ← call items "prt2" ;
  i ← call items "invoke1" ;
  Some (["Hello, world!"; hello_line "Kitty"] ++ g ++ p ++ i)%list.

(** ** The expansion of [repeat] *)

Section RepeatProofs.
Local Open Scope Z_scope.

Lemma seqZ_succ i (n : nat) : seqZ i (Z.of_nat (S n)) = i :: seqZ (i + 1) (Z.of_nat n).
Proof. rewrite seqZ_cons by lia. f_equal; f_equal; lia. Qed.

Section Lexing.
Context `{Lexer}.

(** The loop in closed form: while [i + count] stays within [u32], [i+1]
    never overflows; iteration [j] emits the item with [j+1] spliced in
    when that text lexes, and the first that does not panics in [unwrap]. *)
Lemma repeat_loop_closed s k i (count : nat) out lines :
  0 <= i -> i + Z.of_nat count <= max_of u32 ->
  repeat_loop s k i count out lines =
  if forallb (fun j => lexes (splice s k (j + 1))) (seqZ i (Z.of_nat count)) then
    Ok ((out ++ ((fun j => splice s k (j + 1)) <$> seqZ i (Z.of_nat count)))%list,
        (lines ++ ((fun j => fn_line (splice s k (j + 1))) <$> seqZ i (Z.of_nat count)))%list)
  else Err UnwrapLexError.
Proof.
  revert i out lines. induction count as [|count IH]; intros i out lines Hi Hmax.
  - simpl. by rewrite !app_nil_r.
  - cbn [repeat_loop]. unfold checked_add. rewrite (proj2 (checked_Some u32 (i + 1) (i + 1))) by (cbn in *; lia).
    rewrite seqZ_succ. cbn [forallb]. destruct (lexes (splice s k (i + 1))); [| done].
    rewrite IH by lia. rewrite !fmap_cons, <- !app_assoc. done.
Qed.

(** C13: [repeat] in closed form: with a count [n] that parses and a first
    parenthesis at byte [k], the expansion is the [n] copies of the item
    with [1], ..., [n] spliced in at [k], each printed as it is emitted,
    when every copy lexes; otherwise the [unwrap] of line 29 panics.  The
    counter [i+1] never overflows. *)
Theorem repeat_expands attr input n k :
  parse_u32 (ts_to_string attr) = Ok n -> find_char "(" (ts_to_string input) = Some k ->
  repeat attr input =
  if forallb (fun j => lexes (splice (ts_to_string input) k (j + 1))) (seqZ 0 n) then
    Ok ((fun j => splice (ts_to_string input) k (j + 1)) <$> seqZ 0 n,
        (fun j => fn_line (splice (ts_to_string input) k (j + 1))) <$> seqZ 0 n)
  else Err UnwrapLexError.
Proof.
  intros Hp Hf. pose proof (parse_u32_bounds _ _ Hp) as Hn. unfold repeat. rewrite Hp, Hf.
  rewrite repeat_loop_closed by (rewrite ?Z2Nat.id; lia). rewrite Z2Nat.id by lia. done.
Qed.
End Lexing.

Lemma splice_inj s k a b :
  find_char "(" s = Some k -> 0 <= a <= max_of u32 -> 0 <= b <= max_of u32 ->
  splice s k a = splice s k b -> a = b.
Proof.
  intros Hf Ha Hb Heq. unfold splice in Heq. apply append_cancel_l in Heq.
  rewrite (find_char_drop _ _ _ Hf) in Heq.
  apply digits_prefix_cancel in Heq; [by apply show_dec_inj | apply show_dec_digits; lia ..
    | reflexivity | reflexivity].
Qed.

(** C14: the items [repeat] emits are pairwise distinct, so the generated
    functions never clash. *)
Theorem repeat_distinct `{Lexer} attr input out lines : repeat attr input = Ok (out, lines) -> NoDup out.
Proof.
  unfold repeat. destruct (parse_u32 _) as [n|e] eqn:Hp; [| discriminate].
  pose proof (parse_u32_bounds _ _ Hp) as Hn.
  destruct (find_char "(" _) as [k|] eqn:Hf; [| intros [= <- _]; constructor].
  rewrite repeat_loop_closed by (rewrite ?Z2Nat.id; lia). case_match; [| discriminate]. intros [= <- _].
  apply NoDup_fmap_2_strong; [| apply NoDup_seqZ].
  intros a b Ha%elem_of_seqZ Hb%elem_of_seqZ Heq. rewrite Z2Nat.id in Ha, Hb by lia.
  apply (splice_inj _ _ _ _ Hf) in Heq; [lia | cbn in *; lia ..].
Qed.

(** Each emitted item keeps its parameter list: its first parenthesis comes
    right after the original name and the spliced number. *)
Lemma repeat_item_paren s k a :
  find_char "(" s = Some k -> 0 <= a ->
  find_char "(" (splice s k a) = Some (k + String.length (show_dec a))%nat.
Proof.
  intros Hf Ha. destruct (find_char_take _ _ _ Hf) as [Htake Hlen]. unfold splice.
  rewrite find_char_app_None by done.
  rewrite find_char_app_None by (apply find_char_digits, show_dec_digits; lia).
  rewrite (find_char_drop _ _ _ Hf). cbn [find_char]. simpl. f_equal. lia.
Qed.
Lemma concat_nil_cons (a : string) l : String.concat "" (a :: l) = a ++ String.concat "" l.
Proof. destruct l; [by rewrite append_nil_r | reflexivity]. Qed.

Lemma strip_app p s : strip p (p ++ s) = Some s.
Proof.
  induction p as [|c p IH]; [done |]. rewrite append_cons. cbn [strip].
  by destruct (ascii_dec c c) as [_ | []].
Qed.

Lemma split_at_app c x y : find_char c x = None -> split_at c (x ++ String c y) = Some (x, y).
Proof.
  induction x as [|d x IH]; intros Hx.
  - rewrite append_nil_l. cbn [split_at]. by destruct (ascii_dec c c) as [_ | []].
  - rewrite append_cons. cbn [find_char split_at] in Hx |- *. destruct (ascii_dec c d); [done |].
    destruct (find_char c x); [done |]. by rewrite IH.
Qed.

Lemma find_char_fn_text f :
  find_char "(" (fn_name f) = None -> find_char "(" (fn_text f) = Some (3 + String.length (fn_name f))%nat.
Proof.
  intros Hn. unfold fn_text. rewrite (find_char_app_None _ "fn ") by reflexivity.
  rewrite find_char_app_None by done. rewrite append_cons. cbn [find_char].
  destruct (ascii_dec "(" "(") as [_ | []]; [| reflexivity]. cbn [option_map String.length]. f_equal. lia.
Qed.

(** Splicing [j] in before the parenthesis renames the function. *)
Lemma splice_fn_text f j :
  find_char "(" (fn_name f) = None ->
  splice (fn_text f) (3 + String.length (fn_name f)) j = fn_text (rename f j).
Proof.
  intros Hn. unfold splice, fn_text, rename. cbn [fn_name fn_body].
  replace (3 + String.length (fn_name f))%nat with (String.length ("fn " ++ fn_name f) + 0)%nat
    by (rewrite length_app_str; cbn [String.length]; lia).
  rewrite <- (append_assoc_str "fn " (fn_name f)), str_take_app, str_drop_app, append_nil_r.
  by rewrite !append_assoc_str.
Qed.

Lemma println_tokens_app l s :
  println_tokens l ++ s = (" println! (" ++ dquote) ++ (l ++ String (ascii_of_nat 34) (") ;" ++ s)).
Proof. unfold println_tokens, dquote. rewrite !append_assoc_str. reflexivity. Qed.

Lemma length_println_tokens l : (1 <= String.length (println_tokens l))%nat.
Proof. unfold println_tokens. rewrite length_app_str. cbn [String.length]. lia. Qed.

Lemma parse_body_ok ls closing fuel :
  closing = "}" \/ closing = " }" -> Forall (fun l => find_char (ascii_of_nat 34) l = None) ls ->
  (String.length (String.concat "" (println_tokens <$> ls) ++ closing) < fuel)%nat ->
  parse_body fuel (String.concat "" (println_tokens <$> ls) ++ closing) = Some ls.
Proof.
  intros Hc. revert fuel. induction ls as [|l ls IH]; intros [|fuel] Hls Hlen; [lia | | lia |].
  - cbn [fmap list_fmap]. by destruct Hc as [-> | ->].
  - apply Forall_cons in Hls as [Hl Hls]. rewrite fmap_cons, concat_nil_cons, append_assoc_str.
    rewrite length_app_str in Hlen. cbn [parse_body].
    assert (Hne : String.eqb (println_tokens l ++ String.concat "" (println_tokens <$> ls) ++ closing) "}"
                  || String.eqb (println_tokens l ++ String.concat "" (println_tokens <$> ls) ++ closing) " }" = false)
      by (unfold println_tokens; reflexivity).
    rewrite Hne, println_tokens_app, strip_app. cbn [mbind option_bind].
    rewrite split_at_app by done. cbn [mbind option_bind fst snd]. rewrite strip_app. cbn [mbind option_bind].
    rewrite IH; [reflexivity | done |].
    rewrite fmap_cons, concat_nil_cons, !length_app_str in Hlen. rewrite length_app_str.
    pose proof (length_println_tokens l). lia.
Qed.

(** The compiler reads an item's text back as the item. *)
Lemma parse_fn_text f :
  find_char "(" (fn_name f) = None -> Forall (fun l => find_char (ascii_of_nat 34) l = None) (fn_body f) ->
  parse_fn (fn_text f) = Some f.
Proof.
  intros Hn Hb. unfold parse_fn, fn_text. rewrite strip_app. cbn [mbind option_bind].
  rewrite (append_cons "(" ") {"), split_at_app by done. cbn [mbind option_bind fst snd]. rewrite strip_app. cbn [mbind option_bind].
  rewrite parse_body_ok; [by destruct f | by destruct (fn_body f); [left | right] | done | lia].
Qed.

Lemma mapM_fmap_inv {A B} (f : A -> option B) (g : B -> A) l :
  (forall x, x ∈ l -> f (g x) = Some x) -> mapM f (g <$> l) = Some l.
Proof.
  induction l as [|x l IH]; intros Hl; [done |]. rewrite fmap_cons. cbn.
  rewrite Hl by (apply elem_of_cons; by left). rewrite IH; [done |].
  intros y Hy. apply Hl, elem_of_cons. by right.
Qed.
End RepeatProofs.

(** ** The macros at their uses *)

(** C15: [repeat(n)] on a function [f] generates [n] functions with the
    body of [f], named [f1], ..., [fn]: the expansion is their text, and
    the compiler reads each back as that function. *)
Theorem repeat_generates `{Lexer} f n :
  find_char "(" (fn_name f) = None -> Forall (fun l => find_char (ascii_of_nat 34) l = None) (fn_body f) ->
  0 <= n <= max_of u32 -> Forall (fun j => lexes (fn_text (rename f (j + 1))) = true) (seqZ 0 n) ->
  exists lines,
    repeat [show_dec n] [fn_text f] = Ok (fn_text <$> ((fun j => rename f (j + 1)) <$> seqZ 0 n), lines) /\
    mapM parse_fn (fn_text <$> ((fun j => rename f (j + 1)) <$> seqZ 0 n)) = Some ((fun j => rename f (j + 1)) <$> seqZ 0 n).
Proof.
  intros Hn Hb Hr Hlex. unfold repeat, ts_to_string. cbn [String.concat].
  rewrite parse_u32_show_dec, find_char_fn_text by done.
  rewrite repeat_loop_closed by (rewrite ?Z2Nat.id; lia). rewrite Z2Nat.id by lia.
  replace (forallb _ _) with true.
  2:{ symmetry. apply forallb_forall. intros j Hj%list_elem_of_In. rewrite splice_fn_text by done.
      by apply (proj1 (Forall_forall _ _) Hlex). }
  eexists. split.
  - rewrite !app_nil_l. f_equal. f_equal. rewrite <- list_fmap_compose.
    apply list_fmap_ext. intros _ j _. cbn. apply splice_fn_text, Hn.
  - apply mapM_fmap_inv. intros g (j & -> & Hj)%list_elem_of_fmap. apply elem_of_seqZ in Hj.
    apply parse_fn_text; [| exact Hb]. cbn [rename fn_name].
    rewrite find_char_app_None by done.
    rewrite (find_char_digits (show_dec (j + 1))); [reflexivity | apply show_dec_digits; lia].
Qed.

(** Attri-hello-call builds, its macros printing during the build
    [println!("Hello, Greet");], the streams of [invoke1] and the two
    generated items; and its [main] prints three lines: [greet()] and
    [invoke1()] print nothing, for [hello_attribute] and [show_streams]
    return their items unchanged, and [prt2()] is the second copy of [prt]. *)
Example attri_hello_call_run :
  result_map snd build =
    Ok ["println!(" ++ dquote ++ "Hello, Greet" ++ dquote ++ ");"; "attr: " ++ dquote ++ "bar" ++ dquote;
        "item: " ++ dquote ++ fn_text invoke1_fn ++ dquote;
        fn_line (fn_text (rename prt_fn 1)); fn_line (fn_text (rename prt_fn 2))] /\
  result_map (fun p => call_main p.1) build = Ok (Some ["Hello, world!"; hello_line "Kitty"; "Hello, greet2!"]).
Proof. vm_compute. split; reflexivity. Qed.

(** The [feature] test prints exactly the lines [repeat(2)] prints on
    the item [TokenStream::new()]: the test replays the macro's loop. *)
Example feature_matches_repeat :
  repeat ["2"] ["TokenStream::new()"] = Ok (["TokenStream::new1()"; "TokenStream::new2()"], feature).
Proof. vm_compute. reflexivity. Qed.

(** ** Witnesses *)
Lemma repeat_expands_witness :
  repeat ["2"] ["const C: char = '(';"] = Err UnwrapLexError.
Proof. rewrite (repeat_expands _ _ 2 17); vm_compute; reflexivity. Defined.

Lemma repeat_distinct_witness : NoDup [fn_text (rename prt_fn 1); fn_text (rename prt_fn 2)].
Proof.
  apply (repeat_distinct ["2"] [fn_text prt_fn] _
           [fn_line (fn_text (rename prt_fn 1)); fn_line (fn_text (rename prt_fn 2))]).
  vm_compute. reflexivity.
Defined.

Lemma repeat_generates_witness :
  exists lines,
    repeat [show_dec 2] [fn_text prt_fn] = Ok (fn_text <$> ((fun j => rename prt_fn (j + 1)) <$> seqZ 0 2), lines) /\
    mapM parse_fn (fn_text <$> ((fun j => rename prt_fn (j + 1)) <$> seqZ 0 2)) =
      Some ((fun j => rename prt_fn (j + 1)) <$> seqZ 0 2).
Proof.
  apply repeat_generates; [reflexivity | repeat constructor | vm_compute; split; discriminate |].
  apply (bool_decide_unpack _). vm_compute. exact I.
Defined.
