(* ===== verification/Threads.v ===== *)
(** * The thread, error-handling and closure demos of thread.rs

    Models src/lang/src/thread.rs:
    - [People::new] and [People::greet], [create_function!] and the
      [guss] and [find] functions of its error-handling section;
      [find] iterates [char_indices], so a string is seen here as its
      sequence of Unicode scalar values, each [len_utf8] bytes long;
    - the summation loop of [main] ([sum = sum + i] on [i32] for [i] in
      [1..100000]) in a debug build, where an overflowing addition panics
      ([sum_loop_debug]), and in a release build, where it wraps
      ([sum_loop_release]);
    - the traits [HasArea] (the [f64] area [PI * (r * r)] of its [Circle]),
      [Debug] and [Clone] as classes, with the generic [foo] and [foo1],
      which [main] never calls;
    - the threads of [main] (lines 130-169): two spawned and joined
      threads that print, an mpsc channel from a child to [main], and an
      [AtomicUsize] shared through an [Arc], as a step relation [tstep]
      whose interleavings are all the schedules the OS may choose.  Atomic
      accesses are [SeqCst], so every access happens at a step.

    The theorems: [find] returns the byte offset of the first occurrence
    and agrees with the byte search of [RustStd] on ASCII text; the debug
    build's loop returns the exact sum when it fits in [i32] and otherwise
    panics at the first term that overflows it, which for [main] is
    [i = 65536], and the release build computes the sum modulo [2^32];
    from every reachable state of the threads the only step is the one of
    a fixed schedule, every run stops after exactly 15 steps, and every
    schedule prints the same five lines; and [main] as a whole
    ([thread_main], in either build profile) prints its fixed lines and
    the area of the unit circle as [3.141592653589793], then panics
    (debug) or prints 704982705 (release), then panics in [unwrap] if
    [SystemTime::elapsed] fails.

    The stopwatch's reading and the failure of [SystemTime::elapsed] (the
    system clock gone backwards) are what [main] reads of its environment
    ([Clock]), as the random numbers of base.rs are. *)

From S2P Require Import Prelude RustStd F64.
From Stdlib Require Import Ascii String Floats.

Local Open Scope Z_scope.

(** ** Structs, macros and the error-handling functions *)

Record People := { name : string }.

Definition People_new (n : string) : People := {| name := n |}.

(** [greet] prints [<name> say hello.]. *)
Definition greet (p : People) : string := (name p ++ " say hello.")%string.

(** [{:?}] of a [str]: between double quotes, with [char::escape_debug]
    of each character: a backslash before [0], [t], [n], [r], a double
    quote or a backslash for the NUL, tab, line feed, carriage return,
    double quote and backslash, and the other control characters as
    [\u{..}] in lower-case hexadecimal. *)
Definition hex_digit (d : nat) : ascii := if (d <? 10)%nat then ascii_of_nat (48 + d)%nat else ascii_of_nat (87 + d)%nat.

Definition escape_debug_char (c : ascii) : string :=
  let n := nat_of_ascii c in
  match n with
  | 0%nat => "\0" | 9%nat => "\t" | 10%nat => "\n" | 13%nat => "\r" | 34%nat => "\" ++ dquote
  | 92%nat => "\\"
  | _ => if ((n <? 32) || (n =? 127))%nat
         then "\u{" ++ (if (n <? 16)%nat then String (hex_digit n) EmptyString
                        else String (hex_digit (n / 16)%nat) (String (hex_digit (n mod 16)%nat) EmptyString)) ++ "}"
         else String c EmptyString
  end%string.

Fixpoint escape_debug (s : string) : string :=
  match s with
  | EmptyString => EmptyString
  | String c r => (escape_debug_char c ++ escape_debug r)%string
  end.

Definition debug_str (s : string) : string := (dquote ++ escape_debug s ++ dquote)%string.

(** The function [create_function!(foo)] defines prints
    [funciton"foo" is called]: [{:?}] of [stringify!(foo)]. *)
Definition create_function_line (func_name : string) : string :=
  ("funciton" ++ debug_str func_name ++ " is called")%string.

(** ** Traits: [HasArea], [Debug], [Clone] *)

Module Traits.

(** [trait HasArea]. *)
Class HasArea (T : Type) := area : T -> f64.

Record Circle := { x : f64; y : f64; radius : f64 }.

(** [impl HasArea for Circle]: [PI * (r * r)], each product rounded. *)
#[export] Instance Circle_HasArea : HasArea Circle := fun self => (PI * (radius self * radius self))%float.

(** [std::fmt::Debug], what [{:?}] prints. *)
Class FmtDebug (T : Type) := fmt_debug : T -> string.

(** [std::clone::Clone]. *)
Class Clone (T : Type) := clone : T -> T.

#[export] Instance str_Debug : FmtDebug string := debug_str.
#[export] Instance str_Clone : Clone string := fun s => s.

(** [#[derive(Debug)]] of [People]. *)
#[export] Instance People_Debug : FmtDebug People :=
  fun p => ("People { name: " ++ debug_str (name p) ++ " }")%string.

(** [foo<T: Debug>] prints its argument with [{:?}]; [foo1<T: Debug +
    Clone>] first clones it and drops the clone.  Neither is called: the
    [foo] of [main] is the one [create_function!] defines there. *)
Definition foo `{FmtDebug T} (s : T) : list string := [fmt_debug s].

Definition foo1 `{FmtDebug T} `{Clone T} (s : T) : list string :=
  let _ := clone s in [fmt_debug s].

End Traits.
Import Traits.

(** [guss]: panics outside [1..=10], else tells whether [n] is 5. *)
Definition guss (n : Z) : result bool string :=
  if (n <? 1) || (10 <? n) then Err ("Invalid number: " ++ show_i32 n)%string
  else Ok (n =? 5).

(** The bytes of a [char] in UTF-8. *)
Definition len_utf8 (c : Z) : nat :=
  if c <? 128 then 1 else if c <? 2048 then 2 else if c <? 65536 then 3 else 4.

(** [str::char_indices]: each scalar value with the byte offset it starts at. *)
Fixpoint char_indices_from (off : nat) (s : list Z) : list (nat * Z) :=
  match s with
  | [] => []
  | c :: rest => (off, c) :: char_indices_from (off + len_utf8 c) rest
  end.

Definition char_indices (s : list Z) : list (nat * Z) := char_indices_from 0 s.

(** The [for] loop of [find] with its early [return]. *)
Fixpoint find_loop (it : list (nat * Z)) (needle : Z) : option nat :=
  match it with
  | [] => None
  | (offset, c) :: rest => if c =? needle then Some offset else find_loop rest needle
  end.

Definition find (haystack : list Z) (needle : Z) : option nat :=
  find_loop (char_indices haystack) needle.

(** The scalar values of a string of ASCII bytes. *)
Fixpoint ascii_scalars (s : string) : list Z :=
  match s with
  | EmptyString => []
  | String c rest => Z.of_nat (nat_of_ascii c) :: ascii_scalars rest
  end.

Fixpoint is_ascii (s : string) : bool :=
  match s with
  | EmptyString => true
  | String c rest => (nat_of_ascii c <? 128)%nat && is_ascii rest
  end.

(** The file-extension lines of [main]: [find(file_name, '.')], then
    [&file_name[i+1..]]. *)
Definition extension_line (file_name : string) : string :=
  match find (ascii_scalars file_name) (Z.of_nat (nat_of_ascii ".")) with
  | None => "No file extension found."
  | Some i => "File extension: " ++ str_drop (i + 1) file_name
  end%string.

(** ** The summation loop *)

(** [for i in 1..10000 * 10 { sum = sum + i; }] with [sum: i32 = 1].  In a
    debug build the addition panics on overflow: [Err i] is a panic while
    adding [i]. *)
Fixpoint sum_loop_debug (i : Z) (count : nat) (sum : Z) : result Z Z :=
  match count with
  | O => Ok sum
  | S n =>
      match checked_add i32 sum i with
      | None => Err i
      | Some s => sum_loop_debug (i + 1) n s
      end
  end.

(** In a release build the addition wraps. *)
Fixpoint sum_loop_release (i : Z) (count : nat) (sum : Z) : Z :=
  match count with
  | O => sum
  | S n => sum_loop_release (i + 1) n (wrapping_add i32 sum i)
  end.

(** The range [1..10000 * 10] has [10000 * 10 - 1] elements. *)
Definition main_sum_debug : result Z Z := sum_loop_debug 1 (Z.to_nat (10000 * 10 - 1)) 1.
Definition main_sum_release : Z := sum_loop_release 1 (Z.to_nat (10000 * 10 - 1)) 1.

(** ** The threads of [main] *)

Local Close Scope Z_scope.
Local Open Scope string_scope.

Definition line_new_thread : string := "This is a new thread.".
Definition line_chen1 : string := "I am the threadChen1".
Definition channel_msg : string := "Hello,Mr.chen. this's from channel".

(** The program counters of [main] and of the four threads it spawns, the
    channel's queue, the atomic cell, what the fourth thread loaded, and
    standard output.  A child's counter stays at 0 until [main] spawns it. *)
Record TState := mkT {
  pc_main : nat; pc_t1 : nat; pc_t2 : nat; pc_t3 : nat; pc_t4 : nat;
  chan : list string; cell : Z; t4_seen : Z; stdout : list string
}.

#[export] Instance TState_eq_dec : EqDecision TState.
Proof. solve_decision. Defined.

Definition tinit : TState := mkT 0 0 0 0 0 [] 0%Z 0%Z [].

(** [main] from line 131: 0 spawn, 1 join, 2 spawn through [Builder],
    3 join, 4 create the channel and spawn the sender, 5 [rx.recv()] and
    print, 6 create the [Arc<AtomicUsize>] holding 5 and spawn, 7 join,
    8 load and print.  [None]: blocked or finished. *)
Definition main_step (st : TState) : option TState :=
  match pc_main st with
  | 0 => Some (mkT 1 (pc_t1 st) (pc_t2 st) (pc_t3 st) (pc_t4 st) (chan st) (cell st) (t4_seen st) (stdout st))
  | 1 => if (pc_t1 st =? 1)%nat
         then Some (mkT 2 (pc_t1 st) (pc_t2 st) (pc_t3 st) (pc_t4 st) (chan st) (cell st) (t4_seen st) (stdout st))
         else None
  | 2 => Some (mkT 3 (pc_t1 st) (pc_t2 st) (pc_t3 st) (pc_t4 st) (chan st) (cell st) (t4_seen st) (stdout st))
  | 3 => if (pc_t2 st =? 1)%nat
         then Some (mkT 4 (pc_t1 st) (pc_t2 st) (pc_t3 st) (pc_t4 st) (chan st) (cell st) (t4_seen st) (stdout st))
         else None
  | 4 => Some (mkT 5 (pc_t1 st) (pc_t2 st) (pc_t3 st) (pc_t4 st) [] (cell st) (t4_seen st) (stdout st))
  | 5 => match chan st with
         | m :: rest => Some (mkT 6 (pc_t1 st) (pc_t2 st) (pc_t3 st) (pc_t4 st) rest (cell st) (t4_seen st)
                                (app (stdout st) ["receive: " ++ m]))
         | [] => None
         end
  | 6 => Some (mkT 7 (pc_t1 st) (pc_t2 st) (pc_t3 st) (pc_t4 st) (chan st) 5%Z (t4_seen st) (stdout st))
  | 7 => if (pc_t4 st =? 3)%nat
         then Some (mkT 8 (pc_t1 st) (pc_t2 st) (pc_t3 st) (pc_t4 st) (chan st) (cell st) (t4_seen st) (stdout st))
         else None
  | 8 => Some (mkT 9 (pc_t1 st) (pc_t2 st) (pc_t3 st) (pc_t4 st) (chan st) (cell st) (t4_seen st)
                (app (stdout st) ["shared value in main thread: " ++ show_dec (cell st)]))
  | _ => None
  end.

(** The first child prints once [main] has spawned it. *)
Definition t1_step (st : TState) : option TState :=
  if (1 <=? pc_main st)%nat && (pc_t1 st =? 0)%nat
  then Some (mkT (pc_main st) 1 (pc_t2 st) (pc_t3 st) (pc_t4 st) (chan st) (cell st) (t4_seen st)
               (app (stdout st) [line_new_thread]))
  else None.

Definition t2_step (st : TState) : option TState :=
  if (3 <=? pc_main st)%nat && (pc_t2 st =? 0)%nat
  then Some (mkT (pc_main st) (pc_t1 st) 1 (pc_t3 st) (pc_t4 st) (chan st) (cell st) (t4_seen st)
               (app (stdout st) [line_chen1]))
  else None.

(** The sender: [tx.send(...)]; the receiver is alive in [main], so the
    [unwrap] cannot fail. *)
Definition t3_step (st : TState) : option TState :=
  if (5 <=? pc_main st)%nat && (pc_t3 st =? 0)%nat
  then Some (mkT (pc_main st) (pc_t1 st) (pc_t2 st) 1 (pc_t4 st) (app (chan st) [channel_msg])
               (cell st) (t4_seen st) (stdout st))
  else None.

(** The fourth child: 0 load, 1 print, 2 store 9. *)
Definition t4_step (st : TState) : option TState :=
  if (7 <=? pc_main st)%nat then
    match pc_t4 st with
    | 0 => Some (mkT (pc_main st) (pc_t1 st) (pc_t2 st) (pc_t3 st) 1 (chan st) (cell st) (cell st) (stdout st))
    | 1 => Some (mkT (pc_main st) (pc_t1 st) (pc_t2 st) (pc_t3 st) 2 (chan st) (cell st) (t4_seen st)
                   (app (stdout st) ["shared value in new thread: " ++ show_dec (t4_seen st)]))
    | 2 => Some (mkT (pc_main st) (pc_t1 st) (pc_t2 st) (pc_t3 st) 3 (chan st) 9%Z (t4_seen st) (stdout st))
    | _ => None
    end
  else None.

(** Any thread that can move may be scheduled. *)
Inductive tstep : TState -> TState -> Prop :=
| tstep_main st st' : main_step st = Some st' -> tstep st st'
| tstep_t1 st st' : t1_step st = Some st' -> tstep st st'
| tstep_t2 st st' : t2_step st = Some st' -> tstep st st'
| tstep_t3 st st' : t3_step st = Some st' -> tstep st st'
| tstep_t4 st st' : t4_step st = Some st' -> tstep st st'.

Definition treachable (st : TState) : Prop := rtc tstep tinit st.

(** The states one step away, whichever thread moves. *)
Definition successors (st : TState) : list TState :=
  omap id [main_step st; t1_step st; t2_step st; t3_step st; t4_step st].

(** The steps left to every thread: [main] has 9, the children 1, 1, 1
    and 3. *)
Definition tmeasure (st : TState) : nat :=
  (9 - pc_main st) + (1 - pc_t1 st) + (1 - pc_t2 st) + (1 - pc_t3 st) + (3 - pc_t4 st).

(** One schedule: the first thread, in the order main, 1, 2, 3, 4, that
    can move. *)
Definition tnext (st : TState) : option TState :=
  match main_step st with
  | Some st' => Some st'
  | None =>
      match t1_step st with
      | Some st' => Some st'
      | None =>
          match t2_step st with
          | Some st' => Some st'
          | None => match t3_step st with Some st' => Some st' | None => t4_step st end
          end
      end
  end.

Fixpoint titer (k : nat) (st : TState) : TState :=
  match k with
  | O => st
  | S k => match tnext st with Some st' => titer k st' | None => st end
  end.

(** The states of that schedule, from the start to the end. *)
Definition tpath : list TState := (fun k => titer k tinit) <$> seq 0 16.

Definition thread_lines : list string :=
  [line_new_thread; line_chen1; "receive: " ++ channel_msg;
   "shared value in new thread: 5"; "shared value in main thread: 9"].

(** Whether the schedule [tnext] runs [k] steps from [st]. *)
Fixpoint tnexts_ok (k : nat) (st : TState) : bool :=
  match k with
  | O => true
  | S k => match tnext st with Some st' => tnexts_ok k st' | None => false end
  end.

(** ** [main] *)

(** The build profile: the summation loop's [sum + i] checked or wrapping. *)
Inductive Profile := Debug | Release.

(** What a run of [main] prints, and the message it panics with, if it
    does. *)
Record Run := { printed : list string; panicked : option string }.

(** What [main] reads of the clocks: the [i64] that [sw.elapsed_ms()]
    returns, and whether [sy_time.elapsed()] fails, which it does when the
    system clock went backwards, with the [{:?}] text of its
    [SystemTimeError]. *)
Record Clock := { elapsed_ms : Z; system_time_error : option string }.

(** [{:?}] of an [i64] is its decimal text, as for an [i32]. *)
Definition sum_line (sum : Z) (clk : Clock) : string :=
  "The sum is " ++ show_i32 sum ++ ",time is : " ++ show_i32 (elapsed_ms clk).

(** The two last lines: [sy_time.elapsed().unwrap()] between them panics
    on an [Err]. *)
Definition main_end (clk : Clock) : list string * option string :=
  match system_time_error clk with
  | None => (["Hello, world!"; "hello,world !"], None)
  | Some err => (["Hello, world!"], Some ("called `Result::unwrap()` on an `Err` value: " ++ err))
  end.

(** The circle of [main]. *)
Definition main_circle : Circle := {| x := 0.0%float; y := 0.0%float; radius := 1.0%float |}.

(** [main] of thread.rs; [clk] is what it reads of the clocks.  The
    threads run the schedule [tnext] to its end. *)
Definition thread_main (profile : Profile) (clk : Clock) : Run :=
  let out := [greet (People_new "Peter"); "The circle area is " ++ display_f64 (area main_circle)] in
  match guss 5 with
  | Err msg => {| printed := out; panicked := Some msg |}
  | Ok _ =>
      let out := app out (app [extension_line "foobar.rs"; create_function_line "foo"]
                              (stdout (titer 15 tinit))) in
      let finish (sum : Z) :=
        {| printed := app out (sum_line sum clk :: (main_end clk).1); panicked := (main_end clk).2 |} in
      let finish_debug (r : result Z Z) :=
        match r with
        | Err _ => {| printed := out; panicked := Some "attempt to add with overflow" |}
        | Ok sum => finish sum
        end in
      match profile with
      | Debug => finish_debug main_sum_debug
      | Release => finish main_sum_release
      end
  end.

(** ** Every schedule of the threads *)

Section ThreadProofs.

Lemma tstep_successors st s : tstep st s <-> s ∈ successors st.
Proof.
  unfold successors. rewrite list_elem_of_omap. split.
  - intros Hs; inversion Hs as [? ? H|? ? H|? ? H|? ? H|? ? H]; subst; exists (Some s); (split; [| reflexivity]);
      rewrite <- H, !elem_of_cons; tauto.
  - intros (x & Hx & Hs). unfold id in Hs. subst x.
    rewrite !elem_of_cons, elem_of_nil in Hx.
    destruct Hx as [H|[H|[H|[H|[H|[]]]]]];
      [apply tstep_main|apply tstep_t1|apply tstep_t2|apply tstep_t3|apply tstep_t4];
      by symmetry.
Qed.

Lemma tnext_head st : tnext st = head (successors st).
Proof.
  unfold tnext, successors.
  destruct (main_step st), (t1_step st), (t2_step st), (t3_step st), (t4_step st); reflexivity.
Qed.

(** The whole state space, checked state by state: from each state of the
    path at most one thread can move, into the path; [main] is finished
    exactly in the last state, where the output is [thread_lines], and
    before that some thread can always move. *)
Lemma tpath_check :
  forallb (fun st => Nat.leb (List.length (successors st)) 1
                     && forallb (fun s => bool_decide (s ∈ tpath)) (successors st)
                     && implb (Nat.eqb (pc_main st) 9) (bool_decide (stdout st = thread_lines))
                     && implb (Nat.ltb (pc_main st) 9) (negb (Nat.eqb (List.length (successors st)) 0))
                     && Nat.leb (pc_main st) 9) tpath = true.
Proof. vm_compute. reflexivity. Qed.

Lemma tpath_facts st :
  st ∈ tpath ->
  List.length (successors st) <= 1 /\ (forall s, s ∈ successors st -> s ∈ tpath) /\
  (pc_main st = 9 -> stdout st = thread_lines) /\ (pc_main st < 9 -> successors st <> []) /\
  pc_main st <= 9.
Proof.
  intros Hin. pose proof tpath_check as Hc. rewrite forallb_forall in Hc.
  apply list_elem_of_In in Hin. specialize (Hc st Hin).
  rewrite !andb_true_iff in Hc. destruct Hc as [[[[Hlen Hall] Hfin] Hprog] Hle].
  split; [by apply Nat.leb_le |]. split.
  { intros s Hs. rewrite forallb_forall in Hall. apply list_elem_of_In in Hs.
    specialize (Hall s Hs). by apply bool_decide_eq_true in Hall. }
  split.
  { intros H9. rewrite H9 in Hfin. simpl in Hfin. by apply bool_decide_eq_true in Hfin. }
  split; [| by apply Nat.leb_le].
  intros Hlt. apply Nat.ltb_lt in Hlt. rewrite Hlt in Hprog. simpl in Hprog.
  intros Hnil. rewrite Hnil in Hprog. discriminate.
Qed.

Lemma treachable_path st : treachable st -> st ∈ tpath.
Proof.
  unfold treachable. intros Hr.
  apply (rtc_ind_r (R := tstep) (fun st => st ∈ tpath) tinit); [| | exact Hr].
  - apply (bool_decide_unpack _). vm_compute. exact I.
  - intros y z _ Hyz Hy. apply tstep_successors in Hyz.
    by apply (proj1 (proj2 (tpath_facts y Hy))).
Qed.

Lemma length_le1_elem {A} (l : list A) x y : List.length l <= 1 -> x ∈ l -> y ∈ l -> x = y.
Proof.
  destruct l as [|a [|b l]]; simpl; intros Hl Hx Hy; [by apply not_elem_of_nil in Hx | | lia].
  apply list_elem_of_singleton in Hx, Hy. by subst.
Qed.

(** Every step of every thread uses up one of the steps left. *)
Lemma tstep_measure st st' : tstep st st' -> tmeasure st' < tmeasure st.
Proof.
  intros Hs. inversion Hs as [? ? H|? ? H|? ? H|? ? H|? ? H]; subst;
    [unfold main_step in H | unfold t1_step in H | unfold t2_step in H
    | unfold t3_step in H | unfold t4_step in H];
    repeat case_match; simplify_eq; unfold tmeasure; cbn [pc_main pc_t1 pc_t2 pc_t3 pc_t4];
    rewrite ?andb_true_iff, ?Nat.leb_le, ?Nat.eqb_eq in *; lia.
Qed.

Lemma nsteps_measure n a b : nsteps tstep n a b -> n + tmeasure b <= tmeasure a.
Proof.
  induction 1 as [|n a b c Hab _ IH]; [lia |].
  pose proof (tstep_measure _ _ Hab). lia.
Qed.

(** C16: whatever the OS scheduler does, the program never deadlocks before
    [main] returns, and when no thread can move any more the output is the
    same five lines in the same order: the joins and the channel receive
    order every print. *)
Theorem thread_output st : treachable st -> (forall s, ~ tstep st s) -> stdout st = thread_lines.
Proof.
  intros Hr Hstuck. destruct (tpath_facts st (treachable_path st Hr)) as (_ & _ & Hfin & Hprog & Hle).
  apply Hfin. destruct (decide (pc_main st < 9)) as [Hlt | Hge]; [| lia].
  destruct (successors st) as [|s l] eqn:Hsucc; [by apply Hprog in Hlt |].
  exfalso. apply (Hstuck s), tstep_successors. rewrite Hsucc. apply elem_of_cons; by left.
Qed.

Lemma tnext_tstep st st' : tnext st = Some st' -> tstep st st'.
Proof.
  rewrite tnext_head. intros Hn. apply tstep_successors.
  destruct (successors st); simpl in Hn; [done |]. injection Hn as ->. apply elem_of_cons; by left.
Qed.

Lemma titer_rtc k st : rtc tstep st (titer k st).
Proof.
  revert st. induction k as [|k IH]; intros st; cbn [titer]; [done |].
  destruct (tnext st) as [st'|] eqn:Hn; [| done].
  eapply rtc_l; [by apply tnext_tstep | apply IH].
Qed.

(** From a reachable state the only step is the one [tnext] takes. *)
Lemma tstep_tnext st s : treachable st -> tstep st s -> tnext st = Some s.
Proof.
  intros Hr Hs. destruct (tpath_facts st (treachable_path st Hr)) as (Hlen & _).
  apply tstep_successors in Hs. rewrite tnext_head.
  destruct (successors st) as [|a l] eqn:E; [by apply not_elem_of_nil in Hs |].
  cbn [head]. f_equal. apply (length_le1_elem (a :: l)); [done | apply elem_of_cons; by left | done].
Qed.

(** Every execution follows the one schedule. *)
Lemma nsteps_titer n a b : treachable a -> nsteps tstep n a b -> b = titer n a.
Proof.
  intros Ha Hn. revert Ha. induction Hn as [a|n a a' b Hs _ IH]; intros Ha; [done |].
  cbn [titer]. rewrite (tstep_tnext a a' Ha Hs). apply IH. by eapply rtc_r.
Qed.

(** Before its fifteenth step the schedule can always go on. *)
Lemma titer_moves : forallb (fun n => negb (bool_decide (successors (titer n tinit) = []))) (seq 0 15) = true.
Proof. vm_compute. reflexivity. Qed.

(** C17: at every reachable state at most one thread can move: any step
    the OS may take is the one step of the fixed schedule [tnext]; the
    interleavings of the five threads all collapse to it. *)
Theorem thread_deterministic st s : treachable st -> tstep st s -> tnext st = Some s.
Proof. apply tstep_tnext. Qed.

(** C18: every run of the threads, whatever the schedule, stops after
    exactly 15 steps: the run of 15 steps exists and can go no further,
    and no run stops earlier or goes on longer. *)
Theorem thread_runs_exactly :
  (forall s, ~ tstep (titer 15 tinit) s) /\
  (forall n st, nsteps tstep n tinit st -> (forall s, ~ tstep st s) -> n = 15).
Proof.
  split.
  - intros s Hs%tstep_successors. assert (E : successors (titer 15 tinit) = []) by (vm_compute; reflexivity).
    rewrite E in Hs. by apply not_elem_of_nil in Hs.
  - intros n st Hn Hstuck. pose proof (nsteps_measure _ _ _ Hn) as Hm.
    unfold tmeasure, tinit in Hm. cbn [pc_main pc_t1 pc_t2 pc_t3 pc_t4] in Hm.
    apply nsteps_titer in Hn as ->; [| apply rtc_refl].
    destruct (decide (n = 15)) as [| Hne]; [done | exfalso].
    pose proof titer_moves as Hmv. rewrite forallb_forall in Hmv.
    specialize (Hmv n (proj2 (in_seq 15 0 n) ltac:(lia))).
    destruct (successors (titer n tinit)) as [|s l] eqn:E; [done |].
    apply (Hstuck s), tstep_successors. rewrite E. apply elem_of_cons; by left.
Qed.
End ThreadProofs.

(** ** [find] *)

Section FindProofs.

Lemma find_loop_from s c o :
  (find_loop (char_indices_from o s) c = None /\ c ∉ s) \/
  (exists pre post, find_loop (char_indices_from o s) c = Some (o + sum_list (len_utf8 <$> pre))%nat
                    /\ s = (pre ++ c :: post)%list /\ c ∉ pre).
Proof.
  revert o. induction s as [|d s IH]; intros o; cbn [char_indices_from find_loop].
  { left. split; [done | apply not_elem_of_nil]. }
  destruct (Z.eqb_spec d c) as [-> | Hne].
  { right. exists [], s. split; [f_equal; simpl; lia | split; [done | apply not_elem_of_nil]]. }
  destruct (IH (o + len_utf8 d)%nat) as [[Hn Hnot] | (pre & post & Hf & -> & Hnot)].
  - left. split; [done |]. rewrite elem_of_cons. intros [-> | ?]; [done | contradiction].
  - right. exists (d :: pre), post. rewrite Hf, fmap_cons. simpl. split; [f_equal; lia |].
    split; [done |]. rewrite elem_of_cons. intros [-> | ?]; [done | contradiction].
Qed.

(** C19: [find] on a string, seen as its Unicode scalar values: either the
    needle does not occur and [find] returns [None], or [find] returns the
    byte offset (the UTF-8 lengths summed) of its first occurrence. *)
Theorem find_spec s c :
  (find s c = None /\ c ∉ s) \/
  (exists pre post, find s c = Some (sum_list (len_utf8 <$> pre)) /\ s = (pre ++ c :: post)%list /\ c ∉ pre).
Proof. apply (find_loop_from s c 0). Qed.

Lemma len_utf8_ascii (d : ascii) :
  (nat_of_ascii d < 128)%nat -> len_utf8 (Z.of_nat (nat_of_ascii d)) = 1%nat.
Proof. intros Hd. unfold len_utf8. rewrite (proj2 (Z.ltb_lt _ _)) by lia. reflexivity. Qed.

Lemma find_loop_ascii s c o :
  is_ascii s = true ->
  find_loop (char_indices_from o (ascii_scalars s)) (Z.of_nat (nat_of_ascii c)) =
  option_map (Nat.add o) (find_char c s).
Proof.
  revert o. induction s as [|d s IH]; intros o Ha; [done |].
  cbn [is_ascii] in Ha. apply andb_true_iff in Ha as [Hd Ha]. apply Nat.ltb_lt in Hd.
  cbn [ascii_scalars char_indices_from find_loop find_char]. rewrite len_utf8_ascii, IH by done.
  destruct (ascii_dec c d) as [-> | Hne].
  - rewrite Z.eqb_refl. simpl. f_equal. lia.
  - destruct (Z.eqb_spec (Z.of_nat (nat_of_ascii d)) (Z.of_nat (nat_of_ascii c))) as [E | _].
    { apply Nat2Z.inj in E. apply (f_equal ascii_of_nat) in E.
      rewrite !ascii_nat_embedding in E. by subst. }
    destruct (find_char c s); simpl; [f_equal; lia | done].
Qed.

(** C20: on text whose bytes are all ASCII, the [char_indices] loop of
    [find] returns exactly what the byte search [find_char] returns: one
    scalar value per byte, one byte per scalar value. *)
Theorem find_ascii s c :
  is_ascii s = true -> find (ascii_scalars s) (Z.of_nat (nat_of_ascii c)) = find_char c s.
Proof.
  intros Ha. unfold find, char_indices. rewrite find_loop_ascii by done. by destruct (find_char c s).
Qed.
End FindProofs.

(** ** The summation loop *)

Section SumProofs.
Local Open Scope Z_scope.

(** The release loop in closed form. *)
Lemma sum_loop_release_sum i (count : nat) sum :
  min_of i32 <= sum <= max_of i32 ->
  sum_loop_release i count sum = wrap i32 (sum + Z.of_nat count * (2 * i + Z.of_nat count - 1) / 2).
Proof.
  revert i sum. induction count as [|n IH]; intros i sum Hs; cbn [sum_loop_release].
  - rewrite Z.mul_0_l, Z.div_0_l, Z.add_0_r by lia. by rewrite wrap_small by auto with rustdb.
  - unfold wrapping_add. rewrite IH by auto with rustdb. rewrite wrap_add_wrap.
    f_equal. replace (Z.of_nat (S n) * (2 * i + Z.of_nat (S n) - 1))
      with (i * 2 + Z.of_nat n * (2 * (i + 1) + Z.of_nat n - 1)) by (rewrite Nat2Z.inj_succ; ring).
    rewrite Z.div_add_l by lia. lia.
Qed.

(** C21: the release build's loop in closed form: starting from an [i32]
    [sum], [count] wrapping additions of [i], [i+1], ... leave the exact
    sum [sum + count*(2i+count-1)/2] reduced modulo [2^32] into the [i32]
    range. *)
Theorem sum_loop_release_closed i (count : nat) sum :
  min_of i32 <= sum <= max_of i32 ->
  sum_loop_release i count sum = wrap i32 (sum + Z.of_nat count * (2 * i + Z.of_nat count - 1) / 2).
Proof. apply sum_loop_release_sum. Qed.

(** The sum of the terms [i], [i+1], ... grows by the next term. *)
Lemma tri_shift i j : (j + 1) * (2 * i + (j + 1) - 1) / 2 = i + j * (2 * (i + 1) + j - 1) / 2.
Proof.
  replace ((j + 1) * (2 * i + (j + 1) - 1)) with (i * 2 + j * (2 * (i + 1) + j - 1)) by ring.
  rewrite Z.div_add_l by lia. lia.
Qed.

Lemma tri_shift_nat i (m : nat) :
  Z.of_nat (S m) * (2 * i + Z.of_nat (S m) - 1) / 2 = i + Z.of_nat m * (2 * (i + 1) + Z.of_nat m - 1) / 2.
Proof. rewrite Nat2Z.inj_succ, <- Z.add_1_r. apply tri_shift. Qed.

Lemma tri_nonneg i j : 0 <= i -> 0 <= j -> 0 <= j * (2 * i + j - 1) / 2.
Proof.
  intros Hi Hj. apply Z.div_pos; [| lia].
  destruct (Z.eq_dec j 0) as [-> | Hne]; [lia | nia].
Qed.

(** C22: the debug build's loop [sum = sum + i] over [i], [i+1], ...,
    from an [i32] [sum] and [i >= 0]: it returns the exact sum when that
    fits in [i32], and otherwise panics while adding [i + j], the first
    term that takes the partial sum past [i32::MAX].  [main]'s loop, from
    [sum = 1] over [1..100000], panics at [i = 65536]. *)
Theorem sum_loop_debug_bounds i (count : nat) sum :
  0 <= i -> min_of i32 <= sum <= max_of i32 ->
  (sum + Z.of_nat count * (2 * i + Z.of_nat count - 1) / 2 <= max_of i32 ->
   sum_loop_debug i count sum = Ok (sum + Z.of_nat count * (2 * i + Z.of_nat count - 1) / 2)) /\
  (forall j : nat, (j < count)%nat ->
   sum + Z.of_nat j * (2 * i + Z.of_nat j - 1) / 2 <= max_of i32 <
   sum + Z.of_nat (S j) * (2 * i + Z.of_nat (S j) - 1) / 2 ->
   sum_loop_debug i count sum = Err (i + Z.of_nat j)).
Proof.
  revert i sum. induction count as [|c IH]; intros i sum Hi Hs.
  { split; [| intros j Hj; lia]. intros _. cbn. f_equal. rewrite Z.mul_0_l, Z.div_0_l; lia. }
  rewrite tri_shift_nat. pose proof (tri_nonneg (i + 1) (Z.of_nat c)) as Hc.
  cbn [sum_loop_debug]. unfold checked_add. split.
  - intros Hle. rewrite (proj2 (checked_Some i32 (sum + i) (sum + i))) by lia.
    rewrite (proj1 (IH (i + 1) (sum + i) ltac:(lia) ltac:(cbn in *; lia))) by lia. f_equal. lia.
  - intros [|j] Hj Hb; rewrite !tri_shift_nat in Hb.
    + rewrite (proj2 (checked_None i32 (sum + i))); [by rewrite Z.add_0_r |].
      change (Z.of_nat 0) with 0 in Hb. rewrite !Z.mul_0_l, !Z.div_0_l in Hb by lia. cbn in Hb |- *. lia.
    + pose proof (tri_nonneg (i + 1) (Z.of_nat j)) as Hj'.
      rewrite (proj2 (checked_Some i32 (sum + i) (sum + i))) by lia.
      rewrite (proj2 (IH (i + 1) (sum + i) ltac:(lia) ltac:(cbn in *; lia)) j) by (rewrite ?tri_shift_nat; lia).
      f_equal. lia.
Qed.

(** A release build prints 704982705, the true sum 4999950001
    reduced modulo [2^32]. *)
Theorem main_sum_release_value : main_sum_release = wrap i32 4999950001 /\ main_sum_release = 704982705.
Proof.
  unfold main_sum_release. rewrite sum_loop_release_sum by (cbn; lia).
  split; vm_compute; reflexivity.
Qed.
End SumProofs.

(** ** The whole of [main] *)

(** C23: [main] in both build profiles: it greets, prints the area
    [3.141592653589793] of the unit circle, the
    extension [rs] of ["foobar.rs"] and the line of the macro-generated
    [foo], then the five lines of its threads; a debug build then panics in
    the summation loop, a release build prints the wrapped sum 704982705
    with the stopwatch's milliseconds, then [Hello, world!], and then
    either its last line or, when the system clock went backwards, the
    panic of [unwrap] on the [SystemTimeError]. *)
Theorem thread_main_runs clk :
  let before := app [greet (People_new "Peter"); "The circle area is 3.141592653589793";
                     "File extension: rs"; "funciton" ++ dquote ++ "foo" ++ dquote ++ " is called"]
                    thread_lines in
  let sum := "The sum is 704982705,time is : " ++ show_i32 (elapsed_ms clk) in
  thread_main Debug clk = {| printed := before; panicked := Some "attempt to add with overflow" |} /\
  thread_main Release clk =
    match system_time_error clk with
    | None => {| printed := app before [sum; "Hello, world!"; "hello,world !"]; panicked := None |}
    | Some err => {| printed := app before [sum; "Hello, world!"];
                    panicked := Some ("called `Result::unwrap()` on an `Err` value: " ++ err) |}
    end.
Proof.
  assert (Hg : guss 5 = Ok true) by reflexivity.
  assert (Ht : stdout (titer 15 tinit) = thread_lines) by (vm_compute; reflexivity).
  assert (Hd : exists i, main_sum_debug = Err i) by (eexists; vm_compute; reflexivity).
  assert (Hr : main_sum_release = 704982705%Z).
  { unfold main_sum_release. rewrite sum_loop_release_sum by (cbn; lia). vm_compute. reflexivity. }
  assert (Ha : display_f64 (area main_circle) = "3.141592653589793") by (vm_compute; reflexivity).
  destruct Hd as [i Hd]. unfold thread_main, main_end. rewrite Ha, Hg, Ht, Hd, Hr.
  split; [reflexivity | by destruct (system_time_error clk)].
Qed.

(** ** Witnesses *)

Lemma titer_nsteps k st : tnexts_ok k st = true -> nsteps tstep k st (titer k st).
Proof.
  revert st. induction k as [|k IH]; intros st Hk; cbn [titer tnexts_ok] in *; [constructor |].
  destruct (tnext st) as [st'|] eqn:Hn; [| discriminate].
  eapply nsteps_l; [by apply tnext_tstep | by apply IH].
Qed.

Lemma thread_output_witness : stdout (titer 15 tinit) = thread_lines.
Proof.
  apply thread_output; [apply titer_rtc |]. intros s Hs. apply tstep_successors in Hs.
  assert (E : successors (titer 15 tinit) = []) by (vm_compute; reflexivity).
  rewrite E in Hs. by apply not_elem_of_nil in Hs.
Defined.

Lemma thread_deterministic_witness : tnext (titer 7 tinit) = Some (titer 8 tinit).
Proof.
  apply thread_deterministic; [apply titer_rtc |].
  apply (tnext_tstep (titer 7 tinit)). vm_compute. reflexivity.
Defined.

Lemma sum_loop_debug_bounds_witness : main_sum_debug = Err (1 + Z.of_nat (Z.to_nat 65535))%Z.
Proof.
  unfold main_sum_debug.
  apply (proj2 (sum_loop_debug_bounds 1 (Z.to_nat (10000 * 10 - 1)) 1 ltac:(lia) ltac:(cbn; lia))).
  - apply Z2Nat.inj_lt; lia.
  - rewrite Nat2Z.inj_succ, Z2Nat.id by lia. split; vm_compute; [discriminate | reflexivity].
Defined.

Lemma find_ascii_witness :
  find (ascii_scalars "foobar.rs") (Z.of_nat (nat_of_ascii ".")) = find_char "." "foobar.rs".
Proof. apply find_ascii. vm_compute. reflexivity. Defined.

Lemma sum_loop_release_closed_witness :
  sum_loop_release 1 3 1 = wrap i32 (1 + Z.of_nat 3 * (2 * 1 + Z.of_nat 3 - 1) / 2).
Proof. apply sum_loop_release_closed. vm_compute. split; discriminate. Defined.

