(* ===== verification/Basics.v ===== *)
(** * The language-basics demo: base.rs and shape/mod.rs

    Models src/lang/src/base.rs and src/lang/src/shape/mod.rs: the
    structs [Circle] and [Rectangle], the enum [Color], the functions
    [print_integer], [print_two_integer], [increase_by_one] and [divmod],
    and [main], section by section, as a function from what the program
    reads from its environment to what it writes on stdout.  Integer
    arithmetic is checked, as in a debug build: an overflow, a division by
    zero or an index out of bounds is a panic ([BasePanic]).  [main]'s
    [while] loop and the guessing game run with fuel ([fuel_result]).

    [Circle::area] computes in [f64] (F64.v) and [main] prints it with
    [{}]: [3.14159].  What [main] reads from its environment is a record
    [Env]: the [i32] that [rng.gen()] draws, the secret of the guessing game and the text on
    stdin, as bytes.  The game is modelled on its own ([game_iter],
    [game_loop], [guess_game]): [read_line] takes the input up to and
    including the next line break, or all that is left and then nothing
    at the end of the input ([read_until_nl]), and fails with
    [InvalidData] when those bytes are not UTF-8 ([utf8_valid]), on which
    [expect] panics ([ReadLineFailed]); [trim] strips Unicode whitespace
    ([ws_len], on the UTF-8 bytes).

    The theorems: [divmod] panics exactly on a zero divisor and on
    [i32::MIN / -1] and otherwise returns the truncated quotient and
    remainder; [main]'s [while] loop ends after [5 - x] rounds from any
    [x <= 5] and panics on overflow from any [x > 5]; with enough fuel
    [main] returns and prints a fixed text around the random number,
    with the [dbg!] lines on stderr; [trim] keeps valid UTF-8 valid; the
    game stops at the first line that parses to the secret, panics at the
    first line that is not UTF-8, and at the end of the input loops for
    ever. *)

From S2P Require Import Prelude RustStd Utf8 F64.
From Stdlib Require Import Ascii String Floats.

Local Open Scope Z_scope.
Local Open Scope string_scope.
Local Open Scope rust_scope.
Local Set Warnings "-inexact-float".

(** ** Data *)

Record Circle := { center : Z * Z; radius : Z }.

Definition Circle_new (center0 : Z * Z) (radius0 : Z) : Circle :=
  {| center := center0; radius := radius0 |}.

(** [area(&self)]: the [u32] radius converted to [f64], squared, times
    [3.14159], each product rounded. *)
Definition area (self : Circle) : f64 :=
  let f_radius := as_f64 (radius self) in
  (f_radius * f_radius * 3.14159)%float.

(** [move_to(&mut self, ...)]: the circle after the assignment. *)
Definition move_to (self : Circle) (new_center : Z * Z) : Circle :=
  {| center := new_center; radius := radius self |}.

Inductive Color := Red | Green | Blue.

Record Rectangle := { width : Z; height : Z }.

(** [mod shape]: the same circle, with public fields. *)
Module Shape.
Record Circle := { center : Z * Z; radius : Z }.

Definition new (center0 : Z * Z) (radius0 : Z) : Circle := {| center := center0; radius := radius0 |}.

Definition area (self : Circle) : f64 :=
  let f_radius := as_f64 (radius self) in
  (f_radius * f_radius * 3.14159)%float.

Definition move_to (self : Circle) (new_center : Z * Z) : Circle :=
  {| center := new_center; radius := radius self |}.
End Shape.

(** The panics of a debug build: the checked arithmetic, an index out of
    bounds, and the [expect] on the error of [read_line]. *)
Inductive BasePanic := AddOverflow | MulOverflow | DivByZero | DivOverflow
                     | RemByZero | RemOverflow | IndexOutOfBounds
                     | ReadLineFailed.

(** ** Functions *)

Definition print_integer (value : Z) : string :=
  "The value is given : " ++ show_i32 value ++ newline.

Definition print_two_integer (value1 value2 : Z) : string :=
  "value1: " ++ show_i32 value1 ++ ", value2: " ++ show_i32 value2 ++ newline.

Definition increase_by_one (value : Z) : result Z BasePanic :=
  ok_or (checked_add i32 value 1) AddOverflow.

(** [(x/y, x%y)]: the quotient is computed first, so it is the one that
    panics. *)
Definition divmod (x y : Z) : result (Z * Z) BasePanic :=
  q <-? ok_or (checked_div i32 x y) (if Z.eqb y 0 then DivByZero else DivOverflow) ;;
  r <-? ok_or (checked_rem i32 x y) (if Z.eqb y 0 then RemByZero else RemOverflow) ;;
  Ok (q, r).

(** [{:?}] of an [(i32, i32)]. *)
Definition show_center (c : Z * Z) : string := "(" ++ show_i32 c.1 ++ ", " ++ show_i32 c.2 ++ ")".

(** [{:#?}] of a [Rectangle]. *)
Definition show_rectangle (r : Rectangle) : string :=
  "Rectangle {" ++ newline ++ "    width: " ++ show_dec (width r) ++ "," ++ newline
  ++ "    height: " ++ show_dec (height r) ++ "," ++ newline ++ "}".

(** ** [main], section by section; each takes and returns what stdout holds *)

(** 1: variables and the calls. *)
Definition main_syntax (out : string) : result string BasePanic :=
  let x := 5 in let x := 6 in let y := 8 in let z := 10 in
  let out := out ++ print_integer y ++ print_two_integer x y ++ "Before: x is = " ++ show_i32 x ++ newline in
  x <-? increase_by_one x ;;
  Ok (out ++ "After: x is = " ++ show_i32 x ++ newline
          ++ "After Divmoding x = " ++ show_i32 x ++ ", z = " ++ show_i32 z ++ newline
          ++ "hello,Mr.chen." ++ newline).

(** 2: strings; only [str4] is printed. *)
Definition main_strings (out : string) : string :=
  let str4 := "This is rust's trait_4." in out ++ str4 ++ newline.

(** 3 and 4: arrays, vectors and tuples, with the bounds-checked [array1[1]]. *)
Definition main_collections : result (nat * Z * Z * ascii) BasePanic :=
  let array1 := [1; 2; 3]%list in
  let s := List.length array1 in
  e <-? ok_or (array1 !! 1%nat) IndexOutOfBounds ;;
  let y := (7, "8"%char) in
  Ok (s, e, y.1, y.2).

(** 5: the [if]/[else if] chain on a [char] and its expression form. *)
Definition char_line (x : ascii) : string :=
  if ascii_dec x "5" then "X is the char '5'! "
  else if ascii_dec x "6" then "X is the char '6'! " else "I don't know what X is.".

Definition char_value (x : ascii) : Z :=
  if ascii_dec x "5" then 5 else if ascii_dec x "6" then 6 else -1.

Definition main_control (out : string) : string := out ++ char_line "5" ++ newline.

(** 6: [while x != 5 { println!("x :{} ", x); x += 1; }] with fuel. *)
Fixpoint while_loop (fuel : nat) (x : Z) (out : string) : fuel_result (Z * string) BasePanic :=
  match fuel with
  | O => None
  | S f =>
      if Z.eqb x 5 then Some (Ok (x, out))
      else
        let out := out ++ "x :" ++ show_i32 x ++ " " ++ newline in
        match checked_add i32 x 1 with
        | None => Some (Err AddOverflow)
        | Some x' => while_loop f x' out
        end
  end.

(** [for x in i..i+n { println!("x: {}", x); }]. *)
Fixpoint for_range (i : Z) (n : nat) (out : string) : string :=
  match n with
  | O => out
  | S m => for_range (i + 1) m (out ++ "x: " ++ show_i32 i ++ newline)
  end.

(** [for element in &x { println!("element: {}", element); }]. *)
Fixpoint for_elements (xs : list Z) (out : string) : string :=
  match xs with
  | [] => out
  | e :: r => for_elements r (out ++ "element: " ++ show_i32 e ++ newline)
  end.

Definition main_loops (fuel : nat) (out : string) : fuel_result string BasePanic :=
  r <-! while_loop fuel 0 out ;;
  Some (Ok (for_elements [0; 1; 2; 3; 4] (for_range 0 5 r.2))).

(** 7: the move of [x] into [y]. *)
Definition main_move (out : string) : string := out ++ "Hello, World!" ++ newline.

(** 8: the circles. *)
Definition main_structs (out : string) : string :=
  let c_1 := {| center := (-1, 1); radius := 1 |} in
  let out := out ++ "c_1's radius is " ++ show_dec (radius c_1) ++ newline in
  let c := Circle_new (0, 0) 1 in
  let out := out ++ "The circle’s area is " ++ display_f64 (area c) ++ newline in
  let out := out ++ "The circles location is " ++ show_center (center c) ++ newline in
  let c := move_to c (-1, 1) in
  out ++ "The circles location is " ++ show_center (center c) ++ newline.

(** 9 and 10: [match x { 1 => ..., ..., 6 => ..., _ => ... }]. *)
Definition match_line (x : Z) : string :=
  match x with
  | 1 => "“Matched to 1!”" | 2 => "“Matched to 2!”" | 3 => "“Matched to 3!”"
  | 4 => "“Matched to 4!”" | 5 => "“Matched to 5!”" | 6 => "“Matched to 6!”"
  | _ => "“Matched to some other number!”"
  end.

Definition main_match (out : string) : string :=
  let red := Red in let blue := Blue in out ++ match_line 5 ++ newline.

(** [dbg!(e)] at [line:col] of src/base.rs writes on stderr
    [[file:line:col] e = {:#?} of its value]. *)
Definition dbg_line (line col : Z) (expr value : string) : string :=
  "[src/base.rs:" ++ show_dec line ++ ":" ++ show_dec col ++ "] " ++ expr ++ " = " ++ value ++ newline.

(** 11 to 13: the unused [c2] and [HashMap] [counter], [print!("x: {}", x)]
    of the random [i32] (no line break), then the rectangle of width
    [dbg!(30 * scale)] and [dbg!(&rect1)]; stdout and stderr. *)
Definition main_tail (rnd : Z) (out : string) : result (string * string) BasePanic :=
  let c2 := Circle_new (0, 0) 1 in
  let counter : gmap ascii Z := <["a"%char := 1]> ∅ in
  let out := out ++ "x: " ++ show_i32 rnd in
  let scale := 2 in
  w <-? ok_or (checked_mul i32 30 scale) MulOverflow ;;
  let err := dbg_line 215 16 "30 * scale" (show_i32 w) in
  let rect1 := {| width := w; height := 50 |} in
  let err := err ++ dbg_line 219 5 "&rect1" (show_rectangle rect1) in
  Ok (out ++ "The rectangle is " ++ show_rectangle rect1 ++ "." ++ newline, err).

(** ** 14: the guessing game *)

(** The bytes of a list of byte values. *)
Definition bytes (l : list nat) : string := foldr (fun n s => String (ascii_of_nat n) s) EmptyString l.

(** [char::is_whitespace], the Unicode [White_Space] property, by the
    UTF-8 encodings of its characters: tab, line feed, vertical tab, form
    feed, carriage return and space; U+0085 and U+00A0 (two bytes);
    U+1680, U+2000 to U+200A, U+2028, U+2029, U+202F, U+205F and U+3000
    (three). *)
Definition ws_chars : list string :=
  List.map bytes ([[9]; [10]; [11]; [12]; [13]; [32]; [194; 133]; [194; 160]; [225; 154; 128]]
                  ++ List.map (fun k : nat => [226; 128; k]) (seq 128 11)
                  ++ [[226; 128; 168]; [226; 128; 169]; [226; 128; 175]; [226; 129; 159]; [227; 128; 128]])%list%nat.

(** The length of the whitespace character at the front of the text, 0 if
    there is none. *)
Definition ws_len (s : string) : nat :=
  match List.find (fun w => String.prefix w s) ws_chars with
  | Some w => String.length w
  | None => 0
  end.

(** [trim_start]: drop leading whitespace characters. *)
Fixpoint trim_start_aux (fuel : nat) (s : string) : string :=
  match fuel with
  | O => s
  | S f => match ws_len s with O => s | k => trim_start_aux f (str_drop k s) end
  end.

Definition trim_start (s : string) : string := trim_start_aux (String.length s) s.

(** The byte offset just after the last character that is not whitespace,
    scanning the characters from [pos]. *)
Fixpoint last_non_ws (fuel : nat) (s : string) (pos last : nat) : nat :=
  match fuel, s with
  | O, _ | _, EmptyString => last
  | S f, String a _ =>
      let k := char_len a in
      if (ws_len s =? 0)%nat then last_non_ws f (str_drop k s) (pos + k) (pos + k)
      else last_non_ws f (str_drop k s) (pos + k) last
  end.

(** [trim_end]: drop trailing whitespace characters. *)
Definition trim_end (s : string) : string := str_take (last_non_ws (String.length s) s 0 0) s.

(** [str::trim]. *)
Definition trim (s : string) : string := trim_end (trim_start s).



(** [BufRead::read_until(b'\n')] on stdin: the input up to and including
    the next line break, or what is left of it; at the end of the input
    nothing. *)
Definition read_until_nl (input : string) : string * string :=
  match find_char (ascii_of_nat 10) input with
  | Some i => (str_take (S i) input, str_drop (S i) input)
  | None => (input, EmptyString)
  end.

(** The kind of the [io::Error] [read_line] can return on stdin. *)
Inductive IoErrorKind := InvalidData.

(** [io::stdin().read_line(&mut guess)] into an empty [guess]
    ([append_to_string]): the bytes [read_until_nl] consumes, or
    [InvalidData] when they are not UTF-8; the bytes are consumed either
    way.  The rest of the input comes second. *)
Definition read_line (input : string) : result string IoErrorKind * string :=
  let '(bytes, rest) := read_until_nl input in
  (if utf8_valid bytes then Ok bytes else Err InvalidData, rest).

Record GState := mkG { stdin : string; gout : string; won : bool }.

(** The rest of a round once a line [guess] is read: parse ([continue] on
    a parse error), compare ([break] on equality). *)
Definition game_round (secret : Z) (out guess rest : string) : GState :=
  match parse_u32 (trim guess) with
  | Err _ => mkG rest (out ++ "Please input a number!" ++ newline ++ newline) false
  | Ok g =>
      let out := out ++ "You guessed: " ++ show_dec g ++ newline in
      match Z.compare g secret with
      | Lt => mkG rest (out ++ "Too small!" ++ newline) false
      | Gt => mkG rest (out ++ "Too big!" ++ newline) false
      | Eq => mkG rest (out ++ "You win!" ++ newline) true
      end
  end.

(** One round of the [loop]: prompt, read, and [.expect("Failed to read
    line")], which panics on the error of [read_line]. *)
Definition game_iter (secret : Z) (st : GState) : result GState BasePanic :=
  let out := gout st ++ "Input your guess." ++ newline in
  let '(line, rest) := read_line (stdin st) in
  match line with
  | Err _ => Err ReadLineFailed
  | Ok guess => Ok (game_round secret out guess rest)
  end.

(** The [loop] with fuel: [None] when the fuel runs out before the
    [break], [Some (Err _)] on a panic. *)
Fixpoint game_loop (fuel : nat) (secret : Z) (st : GState) : fuel_result GState BasePanic :=
  match fuel with
  | O => None
  | S f =>
      st' <-! Some (game_iter secret st) ;;
      if won st' then Some (Ok st') else game_loop f secret st'
  end.

Definition guess_game (fuel : nat) (secret : Z) (input out : string) : fuel_result string BasePanic :=
  let out := out ++ "Guess the number" ++ newline ++ "The secret number is: " ++ show_dec secret ++ newline in
  st <-! game_loop fuel secret (mkG input out false) ;;
  Some (Ok (gout st)).

(** [let open = false; if open { ... }]. *)
Definition main_game (open : bool) (fuel : nat) (secret : Z) (input out : string) : fuel_result string BasePanic :=
  if open then guess_game fuel secret input out else Some (Ok out).

(** ** [main] *)

(** What [main] reads: the random [i32], the game's secret in [1..=100]
    and stdin. *)
Record Env := { rnd : Z; secret : Z; input : string }.

(** What [main] writes on stdout and on stderr. *)
Definition main (fuel : nat) (env : Env) : fuel_result (string * string) BasePanic :=
  out <-! Some (main_syntax EmptyString) ;;
  let out := main_strings out in
  _ <-! Some main_collections ;;
  let out := main_control out in
  out <-! main_loops fuel out ;;
  let out := main_match (main_structs (main_move out)) in
  r <-! Some (main_tail (rnd env) out) ;;
  out <-! main_game false fuel (secret env) (input env) r.1 ;;
  Some (Ok (out, r.2)).

(** ** What [main] prints *)

(** The text of a list of printed lines. *)
Definition lines_text (ls : list string) : string := foldr (fun l acc => l ++ newline ++ acc) "" ls.

Definition main_lines_1 : list string :=
  ["The value is given : 8"; "value1: 6, value2: 8"; "Before: x is = 6"; "After: x is = 7";
   "After Divmoding x = 7, z = 10"; "hello,Mr.chen."; "This is rust's trait_4."; "X is the char '5'! ";
   "x :0 "; "x :1 "; "x :2 "; "x :3 "; "x :4 ";
   "x: 0"; "x: 1"; "x: 2"; "x: 3"; "x: 4";
   "element: 0"; "element: 1"; "element: 2"; "element: 3"; "element: 4";
   "Hello, World!"; "c_1's radius is 1"].

Definition main_lines_2 : list string :=
  ["The circles location is (0, 0)"; "The circles location is (-1, 1)"; "“Matched to 5!”"].

Definition main_lines_3 : list string := ["    width: 60,"; "    height: 50,"; "}."].

(** What the two [dbg!] write on stderr. *)
Definition main_stderr : list string :=
  ["[src/base.rs:215:16] 30 * scale = 60"; "[src/base.rs:219:5] &rect1 = Rectangle {";
   "    width: 60,"; "    height: 50,"; "}"].

(** ** [divmod] *)

Section DivmodProofs.

Lemma quot_i32_range x y :
  min_of i32 <= x <= max_of i32 -> min_of i32 <= y <= max_of i32 -> y <> 0 ->
  (min_of i32 <= Z.quot x y <= max_of i32 <-> ~ (x = min_of i32 /\ y = -1)).
Proof.
  cbn. intros Hx Hy Hy0.
  pose proof (Z.quot_rem' x y) as E. pose proof (Z.rem_bound_abs x y Hy0) as B.
  destruct (Z.le_gt_cases 0 x) as [Hx0|Hx0];
    [pose proof (Z.rem_nonneg x y Hy0 Hx0) | pose proof (Z.rem_nonpos x y Hy0 ltac:(lia))].
  all: split; [intros Hq [-> ->]; change (Z.quot (-2147483648) (-1)) with 2147483648 in Hq; lia |].
  all: intros Hn; destruct (Z.abs_spec y) as [[? Hay]|[? Hay]]; rewrite Hay in B;
       destruct (Z.abs_spec (Z.rem x y)) as [[? Har]|[? Har]]; rewrite Har in B; nia.
Qed.

(** C24: on [i32] arguments [divmod] panics on a zero divisor ([attempt to
    divide by zero]), panics on [i32::MIN / -1] ([attempt to divide with
    overflow]), and otherwise returns the quotient and remainder truncated
    toward zero. *)
Theorem divmod_spec x y :
  min_of i32 <= x <= max_of i32 -> min_of i32 <= y <= max_of i32 ->
  divmod x y = if Z.eqb y 0 then Err DivByZero
               else if Z.eqb x (min_of i32) && Z.eqb y (-1) then Err DivOverflow
               else Ok (Z.quot x y, Z.rem x y).
Proof.
  intros Hx Hy. unfold divmod, checked_div, checked_rem, checked.
  destruct (Z.eqb_spec y 0) as [-> | Hy0]; [reflexivity |].
  pose proof (quot_i32_range x y Hx Hy Hy0) as Hq. rewrite <- in_range_spec in Hq.
  destruct (Z.eqb_spec x (min_of i32)), (Z.eqb_spec y (-1)); simpl andb;
    [destruct (in_range i32 (Z.quot x y)) eqn:E; [exfalso; by apply Hq | reflexivity] | ..];
    (rewrite (proj2 Hq) by tauto; reflexivity).
Qed.

(** What [divmod] returns is the truncated division: [x = q*y + r],
    [|r| < |y|], [r] has the sign of [x], and both lie in [i32]. *)
Theorem divmod_euclid x y q r :
  divmod x y = Ok (q, r) ->
  x = q * y + r /\ Z.abs r < Z.abs y /\ (0 <= x -> 0 <= r) /\ (x <= 0 -> r <= 0) /\
  min_of i32 <= q <= max_of i32.
Proof.
  unfold divmod, checked_div, checked_rem.
  destruct (Z.eqb_spec y 0) as [-> | Hy0]; [discriminate |].
  destruct (checked i32 (Z.quot x y)) as [q'|] eqn:Hc; [| discriminate].
  apply checked_Some in Hc as [-> Hr]. rewrite (proj2 (in_range_spec _ _) Hr).
  simpl. intros [= <- <-]. pose proof (Z.quot_rem' x y).
  split; [lia |]. split; [by apply Z.rem_bound_abs |].
  split; [intros; by apply Z.rem_nonneg | split; [intros; by apply Z.rem_nonpos | done]].
Qed.
End DivmodProofs.

(** ** [main] *)

Section MainProofs.

(** The [while] loop from [x] in [0..=5]. *)
Lemma while_loop_count fuel x out :
  0 <= x <= 5 -> (Z.to_nat (5 - x) < fuel)%nat ->
  while_loop fuel x out =
  Some (Ok (5, out ++ lines_text ((fun k => "x :" ++ show_i32 k ++ " ") <$> seqZ x (5 - x)))).
Proof.
  revert x out. induction fuel as [|f IH]; intros x out Hx Hf; [lia |]. cbn [while_loop]. unfold checked_add.
  destruct (Z.eqb_spec x 5) as [-> | Hne].
  { rewrite Z.sub_diag, seqZ_nil by lia. simpl. by rewrite append_nil_r. }
  rewrite (proj2 (checked_Some i32 (x + 1) (x + 1))) by (cbn; lia).
  rewrite IH by lia. rewrite (seqZ_cons x (5 - x)) by lia.
  replace (Z.succ x) with (x + 1) by lia. replace (Z.pred (5 - x)) with (5 - (x + 1)) by lia.
  rewrite fmap_cons. cbn [foldr lines_text]. by rewrite !append_assoc_str.
Qed.

(** C25: from any [x] in [0..=5] the [while] loop ends after [5 - x] rounds
    with [x = 5], having printed [x :k ] for each [k] from [x] to [4]; fuel
    [6 - x] is enough. *)
Theorem while_loop_exits fuel x out :
  0 <= x <= 5 -> (Z.to_nat (5 - x) < fuel)%nat ->
  while_loop fuel x out =
  Some (Ok (5, out ++ lines_text ((fun k => "x :" ++ show_i32 k ++ " ") <$> seqZ x (5 - x)))).
Proof. apply while_loop_count. Qed.

(** C26: from any [i32] [x] above 5 the loop never meets [x == 5]: [x += 1]
    overflows and a debug build panics, after [i32::MAX - x] rounds. *)
Theorem while_loop_overflows fuel x out :
  5 < x <= max_of i32 -> (Z.to_nat (max_of i32 - x) < fuel)%nat ->
  while_loop fuel x out = Some (Err AddOverflow).
Proof.
  revert x out. induction fuel as [|f IH]; intros x out Hx Hf; [lia |]. cbn [while_loop]. unfold checked_add.
  rewrite (proj2 (Z.eqb_neq x 5)) by lia.
  destruct (Z.eq_dec x (max_of i32)) as [-> | Hne].
  - rewrite (proj2 (checked_None i32 (max_of i32 + 1))) by lia. reflexivity.
  - rewrite (proj2 (checked_Some i32 (x + 1) (x + 1))) by (cbn in *; lia). apply IH; lia.
Qed.
Lemma main_loops_ok fuel out : (6 <= fuel)%nat ->
  main_loops fuel out =
  Some (Ok (out ++ lines_text ["x :0 "; "x :1 "; "x :2 "; "x :3 "; "x :4 "; "x: 0"; "x: 1"; "x: 2"; "x: 3";
                                "x: 4"; "element: 0"; "element: 1"; "element: 2"; "element: 3"; "element: 4"])).
Proof.
  intros Hf. unfold main_loops. rewrite while_loop_count by lia.
  cbn [fuel_bind snd for_range for_elements]. rewrite !append_assoc_str. reflexivity.
Qed.

(** C27: with fuel for its [while] loop, [main] never panics and prints the
    same text on every run but for one hole, the random [i32]; the [f64]
    area of the unit circle prints as [3.14159].  The random number is printed by [print!],
    with no line break, so the rectangle's line follows it on the same
    line; the guessing game is never entered. *)
Theorem main_output fuel env : (6 <= fuel)%nat ->
  main fuel env =
  Some (Ok (lines_text main_lines_1 ++ "The circle’s area is " ++ "3.14159" ++ newline
            ++ lines_text main_lines_2 ++ "x: " ++ show_i32 (rnd env) ++ "The rectangle is Rectangle {"
            ++ newline ++ lines_text main_lines_3, lines_text main_stderr)).
Proof.
  intros Hf. unfold main.
  assert (Hs : main_syntax "" = Ok (lines_text (take 6 main_lines_1))) by (vm_compute; reflexivity).
  assert (Hc : exists v, main_collections = Ok v) by (eexists; vm_compute; reflexivity).
  assert (Hm : checked_mul i32 30 2 = Some 60) by reflexivity.
  destruct Hc as [v Hc]. rewrite Hs, Hc. autorewrite with rustdb. rewrite main_loops_ok by done.
  assert (Ha : display_f64 (area (Circle_new (0, 0) 1)) = "3.14159") by (vm_compute; reflexivity).
  unfold main_tail, main_game, main_match, main_structs, main_move, main_control, main_strings.
  cbv beta zeta. rewrite Hm, Ha. autorewrite with rustdb. cbn [fst snd].
  rewrite !append_assoc_str. reflexivity.
Qed.
End MainProofs.

(** ** [trim] on valid UTF-8 *)

Section TrimProofs.
















End TrimProofs.

(** ** The guessing game *)

Section GameProofs.
Variable secret : Z.

Lemma lines_text_cons l ls : lines_text (l :: ls) = l ++ newline ++ lines_text ls.
Proof. reflexivity. Qed.

Lemma lines_text_app l1 l2 : lines_text (l1 ++ l2)%list = lines_text l1 ++ lines_text l2.
Proof.
  induction l1 as [|l l1 IH]; [done |]. cbn [app foldr lines_text] in *.
  unfold lines_text in IH. by rewrite IH, !append_assoc_str.
Qed.

Lemma read_until_line m rest :
  find_char (ascii_of_nat 10) m = None -> read_until_nl (m ++ newline ++ rest) = (m ++ newline, rest).
Proof.
  intros Hm. unfold read_until_nl. rewrite find_char_app_None by done. unfold newline.
  rewrite append_cons, append_nil_l. cbn [find_char option_map].
  destruct (ascii_dec _ _) as [_ | []]; [| reflexivity]. cbn [option_map].
  replace (S (String.length m + 0)) with (String.length m + 1)%nat by lia.
  by rewrite str_take_app, str_drop_app.
Qed.

Lemma game_iter_read m rest out w :
  find_char (ascii_of_nat 10) m = None ->
  game_iter secret (mkG (m ++ newline ++ rest) out w) =
  if utf8_valid (m ++ newline) then Ok (game_round secret (out ++ "Input your guess." ++ newline) (m ++ newline) rest)
  else Err ReadLineFailed.
Proof. intros Hm. unfold game_iter, read_line. cbn [stdin gout]. rewrite read_until_line by done. by destruct (utf8_valid (m ++ newline)). Qed.

(** A line of the input with no line break inside it, read as valid UTF-8. *)
Lemma game_iter_line m rest out w :
  find_char (ascii_of_nat 10) m = None -> utf8_valid m = true ->
  game_iter secret (mkG (m ++ newline ++ rest) out w) =
  Ok (game_round secret (out ++ "Input your guess." ++ newline) (m ++ newline) rest).
Proof. intros Hm Hv. rewrite game_iter_read by done. by rewrite (utf8_valid_app m newline Hv). Qed.

Lemma game_round_win out g r :
  parse_u32 (trim g) = Ok secret ->
  game_round secret out g r = mkG r (out ++ "You guessed: " ++ show_dec secret ++ newline ++ "You win!" ++ newline) true.
Proof. intros H. unfold game_round. rewrite H, Z.compare_refl. by rewrite !append_assoc_str. Qed.

Lemma game_round_lose out g r :
  parse_u32 (trim g) <> Ok secret -> exists p, game_round secret out g r = mkG r (out ++ p) false.
Proof.
  unfold game_round. intros H. destruct (parse_u32 (trim g)) as [n|]; [| eexists; reflexivity].
  destruct (Z.compare_spec n secret) as [-> | _ | _]; [done | |]; rewrite ?append_assoc_str; eexists; reflexivity.
Qed.

Lemma game_iter_eof out w :
  game_iter secret (mkG "" out w) =
  Ok (mkG "" (out ++ "Input your guess." ++ newline ++ "Please input a number!" ++ newline ++ newline) false).
Proof. unfold game_iter. cbn. by rewrite !append_assoc_str. Qed.

(** Lines that are read, valid, and lose: the loop consumes them one per
    round and goes on with the rest of the input. *)
Lemma game_loop_lines ls rest out f :
  Forall (fun m => find_char (ascii_of_nat 10) m = None /\ utf8_valid m = true /\
                   parse_u32 (trim (m ++ newline)) <> Ok secret) ls ->
  exists p, game_loop (List.length ls + f) secret (mkG (lines_text ls ++ rest) out false) =
            game_loop f secret (mkG rest (out ++ p) false).
Proof.
  revert out. induction ls as [|m ls IH]; intros out Hls.
  { exists "". cbn [List.length Nat.add]. by rewrite append_nil_l, append_nil_r. }
  apply Forall_cons in Hls as [(Hm & Hv & Hl) Hls].
  rewrite lines_text_cons, !append_assoc_str. cbn [List.length Nat.add game_loop].
  rewrite game_iter_line by done.
  destruct (game_round_lose (out ++ "Input your guess." ++ newline) (m ++ newline) (lines_text ls ++ rest) Hl)
    as [p1 ->].
  rewrite fuel_bind_Ok. cbn [won].
  destruct (IH ((out ++ "Input your guess." ++ newline) ++ p1) Hls) as [p Hp]. rewrite Hp.
  exists ("Input your guess." ++ newline ++ p1 ++ p). by rewrite !append_assoc_str.
Qed.

(** C28: fed lines ([ls], then [l]) of valid UTF-8, the game reads them
    one by one and stops at [l], the first whose trimmed text parses to the
    secret, with [You win!], leaving the rest of the input unread;
    [length ls + 1] rounds of fuel are enough. *)
Theorem game_stops ls l rest out fuel :
  Forall (fun m => find_char (ascii_of_nat 10) m = None /\ utf8_valid m = true /\
                   parse_u32 (trim (m ++ newline)) <> Ok secret) ls ->
  find_char (ascii_of_nat 10) l = None -> utf8_valid l = true ->
  parse_u32 (trim (l ++ newline)) = Ok secret -> (List.length ls < fuel)%nat ->
  exists p, game_loop fuel secret (mkG (lines_text ls ++ l ++ newline ++ rest) out false) =
            Some (Ok (mkG rest (out ++ p ++ "Input your guess." ++ newline ++ "You guessed: " ++ show_dec secret
                                ++ newline ++ "You win!" ++ newline) true)).
Proof.
  intros Hls Hl Hv Hwin Hf. replace fuel with (List.length ls + S (fuel - S (List.length ls)))%nat by lia.
  destruct (game_loop_lines ls (l ++ newline ++ rest) out (S (fuel - S (List.length ls))) Hls) as [p ->].
  exists p. cbn [game_loop]. rewrite game_iter_line, game_round_win by done. rewrite fuel_bind_Ok. cbn [won].
  by rewrite !append_assoc_str.
Qed.

(** C29: with [open] set, a line that is not valid UTF-8 makes [read_line]
    fail, and its [expect] panics: the program stops with
    [ReadLineFailed] at the first such line, after reading the losing lines
    before it, whatever the fuel beyond those rounds. *)
Theorem game_invalid_panics ls l rest out fuel :
  Forall (fun m => find_char (ascii_of_nat 10) m = None /\ utf8_valid m = true /\
                   parse_u32 (trim (m ++ newline)) <> Ok secret) ls ->
  find_char (ascii_of_nat 10) l = None -> utf8_valid (l ++ newline) = false -> (List.length ls < fuel)%nat ->
  main_game true fuel secret (lines_text ls ++ l ++ newline ++ rest) out = Some (Err ReadLineFailed).
Proof.
  intros Hls Hl Hv Hf. unfold main_game, guess_game.
  replace fuel with (List.length ls + S (fuel - S (List.length ls)))%nat by lia.
  destruct (game_loop_lines ls (l ++ newline ++ rest)
    (out ++ "Guess the number" ++ newline ++ "The secret number is: " ++ show_dec secret ++ newline) (S (fuel - S (List.length ls))) Hls) as [p ->].
  cbn [game_loop]. by rewrite game_iter_read, Hv.
Qed.

(** C32: at the end of the input [read_line] returns [Ok(0)] and leaves
    [guess] empty, the parse fails and the loop [continue]s: the game never
    stops, whatever the fuel, and prints the prompt and the error message
    again on every round. *)
Theorem game_eof_loops out :
  (forall fuel, game_loop fuel secret (mkG "" out false) = None) /\
  (forall n, result_iter n (game_iter secret) (mkG "" out false) =
             Ok (mkG "" (out ++ lines_text (List.concat (repeat ["Input your guess."; "Please input a number!"; ""] n))) false)).
Proof.
  split.
  - intros fuel. revert out. induction fuel as [|f IH]; intros out; [done |].
    cbn [game_loop]. rewrite game_iter_eof, fuel_bind_Ok. apply IH.
  - intros n. revert out. induction n as [|n IH]; intros out.
    + by rewrite append_nil_r.
    + cbn [result_iter]. rewrite game_iter_eof, result_bind_Ok, IH. cbn [repeat List.concat].
      rewrite lines_text_app, !append_assoc_str. reflexivity.
Qed.
End GameProofs.


(** [trim] strips an ideographic space (U+3000) in front of a guess and a
    no-break space (U+00A0) and the line break behind it, so the guess
    parses; a trailing [é] (U+00E9) is not whitespace and stays. *)
Example trim_unicode :
  let ideo := String (ascii_of_nat 227) (String (ascii_of_nat 128) (String (ascii_of_nat 128) EmptyString)) in
  let nbsp := String (ascii_of_nat 194) (String (ascii_of_nat 160) EmptyString) in
  let e_acute := String (ascii_of_nat 195) (String (ascii_of_nat 169) EmptyString) in
  trim (ideo ++ "42" ++ nbsp ++ newline) = "42" /\
  parse_u32 (trim (ideo ++ "42" ++ nbsp ++ newline)) = Ok 42 /\
  trim (" 42" ++ e_acute ++ nbsp) = "42" ++ e_acute.
Proof. vm_compute. repeat split. Qed.

(** ** Witnesses *)

Lemma divmod_spec_witness : divmod (-7) 2 = Ok (-3, -1).
Proof. rewrite divmod_spec by (cbn; lia). reflexivity. Defined.

Lemma divmod_euclid_witness :
  -7 = -3 * 2 + -1 /\ Z.abs (-1) < Z.abs 2 /\ (0 <= -7 -> 0 <= -1) /\ (-7 <= 0 -> -1 <= 0) /\
  min_of i32 <= -3 <= max_of i32.
Proof. apply (divmod_euclid (-7) 2 (-3) (-1)). vm_compute. reflexivity. Defined.

Lemma while_loop_exits_witness :
  while_loop 6 0 "" = Some (Ok (5, "" ++ lines_text ((fun k => "x :" ++ show_i32 k ++ " ") <$> seqZ 0 (5 - 0)))).
Proof. apply while_loop_exits; [lia | vm_compute; lia]. Defined.

Lemma while_loop_overflows_witness : while_loop 2 2147483646 "" = Some (Err AddOverflow).
Proof. apply while_loop_overflows; [cbn; lia | vm_compute; lia]. Defined.

Lemma main_output_witness :
  main 6 {| rnd := -42; secret := 42; input := "" |} =
  Some (Ok (lines_text main_lines_1 ++ "The circle’s area is " ++ "3.14159" ++ newline
            ++ lines_text main_lines_2 ++ "x: " ++ show_i32 (-42) ++ "The rectangle is Rectangle {"
            ++ newline ++ lines_text main_lines_3, lines_text main_stderr)).
Proof. apply (main_output 6 {| rnd := -42; secret := 42; input := "" |}). lia. Defined.

Lemma game_stops_witness :
  exists p, game_loop 3 42 (mkG (lines_text ["50"; "abc"] ++ "42" ++ newline ++ "7") "" false) =
            Some (Ok (mkG "7" ("" ++ p ++ "Input your guess." ++ newline ++ "You guessed: " ++ show_dec 42
                                ++ newline ++ "You win!" ++ newline) true)).
Proof.
  apply game_stops.
  - repeat constructor; vm_compute; discriminate.
  - reflexivity.
  - reflexivity.
  - vm_compute. reflexivity.
  - cbn. lia.
Defined.

Lemma game_invalid_panics_witness :
  main_game true 5 42 (lines_text ["50"] ++ String (ascii_of_nat 255) "" ++ newline ++ "42") "" =
  Some (Err ReadLineFailed).
Proof.
  apply game_invalid_panics.
  - repeat constructor; vm_compute; discriminate.
  - reflexivity.
  - reflexivity.
  - cbn. lia.
Defined.

