(* ===== verification/Ownership.v ===== *)
(** * The ownership demo: ownership.rs

    Models src/lang/base/src/ownership.rs: its four demo functions and
    [main], as programs of a small language of the statements they use, run
    by an interpreter that tracks ownership.  A scope is a stack of
    variables ([Scope], the latest first, so shadowing is kept); an integer
    is stored in its variable, a [String] is a location of the heap
    ([heap], a gmap from locations to contents).  [let y = x] copies an
    integer and moves a [String], leaving [x] [Moved]; [clone] allocates a
    copy; [push_str] appends in place; [println!] borrows.  A function runs
    in a scope of its own and, at its end, drops its variables in reverse
    order, freeing the heap cell of every [String] still owned.

    The borrow checker rejects at compile time a use of a moved variable;
    here it is the error [UseAfterMove] of the interpreter, so the rejected
    line of [move_demo2] (commented out in the source) is run to show it.
    A double free would be the error [DoubleFree].  The interpreter
    ([eval_expr], [exec_stmt], [run_fn]) is the semantics of Rust that
    the demos run under, not code of the repository; the demos themselves
    are the definitions of [Demos].

    The lemmas: every statement keeps each heap cell owned by exactly one
    live variable (the ownership invariant [owf]), so a function whose
    body runs without using a moved variable frees, at its end, every
    [String] it allocated exactly once; and [main] prints the six lines of
    the demos. *)

From S2P Require Import Prelude RustStd.
From Stdlib Require Import Ascii String.

Local Open Scope string_scope.
Local Open Scope rust_scope.

(** ** Values, scopes, the heap *)

Inductive Value := VInt (z : Z) | VString (l : nat).

Inductive Slot := Live (v : Value) | Moved.

Definition Scope : Type := list (string * Slot).

Record OState := mkO { vars : Scope; heap : gmap nat string; next_loc : nat; out : list string }.

Inductive OError := UseAfterMove (x : string) | Unbound (x : string) | NotAString (x : string)
                  | DoubleFree (l : nat).

(** The statements of the demos. *)
Inductive Expr :=
| EInt (z : Z)                  (** an integer literal *)
| EFrom (s : string)            (** [String::from(s)] *)
| EUse (x : string)             (** [x] as a value: copied if an integer, moved if a [String] *)
| EClone (x : string).          (** [x.clone()] *)

Inductive Arg :=
| ALit (s : string)             (** the literal text of a format string *)
| AVar (x : string)             (** a [{}] of a variable, borrowed *)
| AConcat (s t : string).       (** [{}] of the temporary [s.to_owned() + &t], dropped at once *)

Inductive Stmt :=
| SLet (x : string) (e : Expr)
| SPushStr (x : string) (s : string)
| SPrintln (args : list Arg).

(** ** The interpreter *)

Fixpoint lookup (x : string) (sc : Scope) : option Slot :=
  match sc with
  | [] => None
  | (y, s) :: r => if String.eqb x y then Some s else lookup x r
  end.

(** The variable [x] after a move out of it. *)
Fixpoint set_moved (x : string) (sc : Scope) : Scope :=
  match sc with
  | [] => []
  | (y, s) :: r => if String.eqb x y then (y, Moved) :: r else (y, s) :: set_moved x r
  end.

(** The heap cells the live variables own. *)
Fixpoint owned (sc : Scope) : list nat :=
  match sc with
  | [] => []
  | (_, Live (VString l)) :: r => l :: owned r
  | _ :: r => owned r
  end.

Definition alloc (s : string) (st : OState) : Value * OState :=
  (VString (next_loc st),
   mkO (vars st) (<[next_loc st := s]> (heap st)) (S (next_loc st)) (out st)).

(** Read a live variable. *)
Definition read_var (x : string) (st : OState) : result Value OError :=
  match lookup x (vars st) with
  | None => Err (Unbound x)
  | Some Moved => Err (UseAfterMove x)
  | Some (Live v) => Ok v
  end.

Definition eval_expr (e : Expr) (st : OState) : result (Value * OState) OError :=
  match e with
  | EInt z => Ok (VInt z, st)
  | EFrom s => Ok (alloc s st)
  | EUse x =>
      v <-? read_var x st ;;
      match v with
      | VInt z => Ok (VInt z, st)
      | VString l => Ok (VString l, mkO (set_moved x (vars st)) (heap st) (next_loc st) (out st))
      end
  | EClone x =>
      v <-? read_var x st ;;
      match v with
      | VInt z => Ok (VInt z, st)
      | VString l => Ok (alloc (default "" (heap st !! l)) st)
      end
  end.

Definition show_value (st : OState) (v : Value) : string :=
  match v with
  | VInt z => show_i32 z
  | VString l => default "" (heap st !! l)
  end.

Definition show_arg (st : OState) (a : Arg) : result string OError :=
  match a with
  | ALit s => Ok s
  | AVar x => v <-? read_var x st ;; Ok (show_value st v)
  | AConcat s t => Ok (s ++ t)
  end.

Fixpoint show_args (st : OState) (args : list Arg) : result string OError :=
  match args with
  | [] => Ok ""
  | a :: r => s <-? show_arg st a ;; t <-? show_args st r ;; Ok (s ++ t)
  end.

Definition exec_stmt (s : Stmt) (st : OState) : result OState OError :=
  match s with
  | SLet x e =>
      p <-? eval_expr e st ;;
      let '(v, st') := p in
      Ok (mkO ((x, Live v) :: vars st') (heap st') (next_loc st') (out st'))
  | SPushStr x t =>
      v <-? read_var x st ;;
      match v with
      | VInt _ => Err (NotAString x)
      | VString l => Ok (mkO (vars st) (alter (fun h => h ++ t) l (heap st)) (next_loc st) (out st))
      end
  | SPrintln args =>
      line <-? show_args st args ;;
      Ok (mkO (vars st) (heap st) (next_loc st) (app (out st) [line]))
  end.

Fixpoint run_block (body : list Stmt) (st : OState) : result OState OError :=
  match body with
  | [] => Ok st
  | s :: r => st' <-? exec_stmt s st ;; run_block r st'
  end.

(** Dropping a scope: free the cells of its live [String]s, latest first. *)
Fixpoint free_all (ls : list nat) (h : gmap nat string) : result (gmap nat string) OError :=
  match ls with
  | [] => Ok h
  | l :: r => match h !! l with Some _ => free_all r (delete l h) | None => Err (DoubleFree l) end
  end.

(** A call of a function without parameters: its body in a fresh scope,
    then the drop of that scope. *)
Definition run_fn (body : list Stmt) (st : OState) : result OState OError :=
  st1 <-? run_block body (mkO [] (heap st) (next_loc st) (out st)) ;;
  h <-? free_all (owned (vars st1)) (heap st1) ;;
  Ok (mkO (vars st) h (next_loc st1) (out st1)).

(** The state before [main]: nothing allocated, nothing printed. *)
Definition oinit : OState := mkO [] ∅ 0 [].

(** ** The demos *)

Module Demos.

Definition string_from_demo : list Stmt :=
  [SLet "s" (EFrom "hello"); SPushStr "s" ", world!"; SPrintln [AVar "s"];
   SPrintln [AConcat "hello" ", world!"]].

Definition move_demo1 : list Stmt :=
  [SLet "x" (EInt 5); SLet "y" (EUse "x"); SPrintln [ALit "x="; AVar "x"; ALit ", y="; AVar "y"]].

Definition move_demo2 : list Stmt :=
  [SLet "s1" (EFrom "hello"); SLet "s2" (EUse "s1"); SPrintln [AVar "s2"; ALit ", world"]].

(** The line of [move_demo2] the source leaves commented out. *)
Definition move_demo2_invalid : list Stmt := app move_demo2 [SPrintln [AVar "s1"; ALit ", world"]].

Definition clone_demo : list Stmt :=
  [SLet "s1" (EFrom "hello"); SLet "s2" (EClone "s1");
   SPrintln [AVar "s1"; ALit ", world"]; SPrintln [AVar "s2"; ALit ", world"]].

Definition main : result OState OError :=
  st <-? run_fn string_from_demo oinit ;;
  st <-? run_fn move_demo1 st ;;
  st <-? run_fn move_demo2 st ;;
  run_fn clone_demo st.

End Demos.

(** The ownership invariant: the live variables own pairwise distinct
    cells, exactly the cells of the heap, all below the next fresh
    location. *)
Definition owf (st : OState) : Prop :=
  NoDup (owned (vars st)) /\ (forall l, is_Some (heap st !! l) <-> l ∈ owned (vars st)) /\
  (forall l, l ∈ owned (vars st) -> l < next_loc st)%nat.

(** ** The ownership invariant *)

Section OwnershipProofs.

Lemma owned_set_moved x sc l :
  lookup x sc = Some (Live (VString l)) -> l :: owned (set_moved x sc) ≡ₚ owned sc.
Proof.
  induction sc as [|[y s] r IH]; [done |]. cbn [lookup set_moved].
  destruct (String.eqb_spec x y) as [-> | Hne]; [by intros [= ->] |].
  intros H. specialize (IH H). destruct s as [[z|l']|]; cbn [owned]; [exact IH | | exact IH].
  rewrite <- IH. apply perm_swap.
Qed.

Lemma read_var_string x st l :
  read_var x st = Ok (VString l) -> lookup x (vars st) = Some (Live (VString l)).
Proof. unfold read_var. by repeat case_match; intros; simplify_eq. Qed.

Lemma owf_perm st sc h n o :
  owf st -> owned sc ≡ₚ owned (vars st) -> h = heap st -> n = next_loc st -> owf (mkO sc h n o).
Proof.
  intros (Hnd & Hdom & Hlt) Hp -> ->. unfold owf; cbn [vars heap next_loc].
  split; [by rewrite Hp | split; intros l; rewrite Hp; [apply Hdom | apply Hlt]].
Qed.

(** A fresh cell, owned by the new variable. *)
Lemma owf_alloc st x s :
  owf st ->
  owf (mkO ((x, Live (VString (next_loc st))) :: vars st) (<[next_loc st := s]> (heap st))
           (S (next_loc st)) (out st)).
Proof.
  intros (Hnd & Hdom & Hlt). unfold owf; cbn [vars heap next_loc owned].
  split; [| split].
  - constructor; [intros Hin; specialize (Hlt _ Hin); lia | done].
  - intros l. rewrite elem_of_cons. destruct (decide (l = next_loc st)) as [-> | Hne].
    + rewrite lookup_insert_eq. split; [by left | done].
    + rewrite lookup_insert_ne by done. rewrite Hdom. naive_solver.
  - intros l. rewrite elem_of_cons. intros [-> | Hin]; [lia | specialize (Hlt _ Hin); lia].
Qed.

Lemma owf_let st x e v st1 :
  owf st -> eval_expr e st = Ok (v, st1) ->
  owf (mkO ((x, Live v) :: vars st1) (heap st1) (next_loc st1) (out st1)).
Proof.
  intros Hw. destruct e as [z|s|y|y]; cbn [eval_expr].
  - intros [= <- <-]. by apply (owf_perm st).
  - intros [= <- <-]. cbn [vars heap next_loc out]. by apply owf_alloc.
  - destruct (read_var y st) as [[z|l]|] eqn:Hr; autorewrite with rustdb; [| | discriminate].
    + intros [= <- <-]. by apply (owf_perm st).
    + intros [= <- <-]. apply (owf_perm st); [done | | done | done].
      cbn [owned vars]. by apply owned_set_moved, read_var_string.
  - destruct (read_var y st) as [[z|l]|] eqn:Hr; autorewrite with rustdb; [| | discriminate].
    + intros [= <- <-]. by apply (owf_perm st).
    + intros [= <- <-]. cbn [vars heap next_loc out]. by apply owf_alloc.
Qed.

Lemma owf_alter st f l :
  owf st -> owf (mkO (vars st) (alter f l (heap st)) (next_loc st) (out st)).
Proof.
  intros (Hnd & Hdom & Hlt). unfold owf; cbn [vars heap next_loc].
  split; [done | split; [| done]]. intros l'. rewrite <- Hdom.
  destruct (decide (l = l')) as [-> | Hne].
  - rewrite lookup_alter_eq. apply fmap_is_Some.
  - by rewrite lookup_alter_ne.
Qed.

(** Every statement keeps the invariant. *)
Lemma exec_stmt_owf s st st' : owf st -> exec_stmt s st = Ok st' -> owf st'.
Proof.
  intros Hw. destruct s as [x e|x t|args]; cbn [exec_stmt].
  - destruct (eval_expr e st) as [[v st1]|] eqn:He; autorewrite with rustdb; [| discriminate].
    intros [= <-]. by apply (owf_let st x e).
  - destruct (read_var x st) as [[z|l]|]; autorewrite with rustdb; [discriminate | | discriminate].
    intros [= <-]. by apply owf_alter.
  - destruct (show_args st args); autorewrite with rustdb; [| discriminate].
    intros [= <-]. by apply (owf_perm st).
Qed.

Lemma run_block_owf body st st' : owf st -> run_block body st = Ok st' -> owf st'.
Proof.
  revert st. induction body as [|s r IH]; intros st Hw; cbn [run_block]; [by intros [= <-] |].
  destruct (exec_stmt s st) as [st1|] eqn:Hs; autorewrite with rustdb; [| discriminate].
  apply IH. by apply (exec_stmt_owf s st).
Qed.

(** Freeing exactly the cells of the heap, each once, empties it. *)
Lemma free_all_empty ls (h : gmap nat string) :
  NoDup ls -> (forall l, is_Some (h !! l) <-> l ∈ ls) -> free_all ls h = Ok ∅.
Proof.
  revert h. induction ls as [|l ls IH]; intros h Hnd Hdom; cbn [free_all].
  - f_equal. apply map_empty. intros l. apply eq_None_not_Some. rewrite Hdom. apply not_elem_of_nil.
  - apply NoDup_cons in Hnd as [Hl Hnd].
    destruct (h !! l) eqn:Hh.
    2: { exfalso. apply (is_Some_None (A:=string)). rewrite <- Hh. apply Hdom, elem_of_cons. by left. }
    apply IH; [done |]. intros l'. destruct (decide (l = l')) as [-> | Hne].
    + rewrite lookup_delete_eq. split; [by intros [? ?] | done].
    + rewrite lookup_delete_ne, Hdom, elem_of_cons by done. naive_solver.
Qed.

(** A function whose body runs frees, at its end, all it allocated. *)
Lemma run_fn_frees_all body st st1 :
  heap st = ∅ -> run_block body (mkO [] (heap st) (next_loc st) (out st)) = Ok st1 ->
  run_fn body st = Ok (mkO (vars st) ∅ (next_loc st1) (out st1)).
Proof.
  intros Hh Hb. unfold run_fn. rewrite Hb. autorewrite with rustdb.
  assert (Hw0 : owf (mkO [] (heap st) (next_loc st) (out st))).
  { unfold owf; cbn [vars heap next_loc owned]. rewrite Hh.
    split; [constructor | split; intros l; [rewrite lookup_empty | ]; rewrite elem_of_nil; [| done]].
    split; [by intros [? ?] | done]. }
  destruct (run_block_owf body _ st1 Hw0 Hb) as (Hnd & Hdom & _).
  by rewrite free_all_empty.
Qed.

(** Ownership makes memory management safe: called when no [String]
    is live, a function whose body runs without using a moved variable
    returns, and its scope's drop frees every [String] it allocated exactly
    once: no double free, no leak, the heap is empty again. *)
Theorem run_fn_frees body st st1 :
  heap st = ∅ -> run_block body (mkO [] (heap st) (next_loc st) (out st)) = Ok st1 ->
  run_fn body st = Ok (mkO (vars st) ∅ (next_loc st1) (out st1)).
Proof. apply run_fn_frees_all. Qed.
End OwnershipProofs.

(** [main] prints the six lines of the demos and ends with every
    [String] freed; the use of [s1] after its move, which the source leaves
    commented out as invalid, is rejected. *)
Example ownership_main :
  result_map out Demos.main = Ok ["hello, world!"; "hello, world!"; "x=5, y=5"; "hello, world"; "hello, world"; "hello, world"] /\
  result_map heap Demos.main = Ok ∅ /\
  run_fn Demos.move_demo2_invalid oinit = Err (UseAfterMove "s1").
Proof. vm_compute. repeat split. Qed.

(** ** Witnesses *)

Lemma run_fn_frees_witness :
  exists st1, run_block Demos.clone_demo (mkO [] ∅ 0 []) = Ok st1 /\
              run_fn Demos.clone_demo oinit = Ok (mkO [] ∅ (next_loc st1) (out st1)).
Proof.
  eexists. split; [vm_compute; reflexivity |]. apply run_fn_frees; [reflexivity |].
  vm_compute. reflexivity.
Defined.
