(* ===== verification/SharedPool.v ===== *)
(** * Several dispatchers sharing one pool (spec section 5)

    The spec scales the dispatcher out: "concurrency is achieved by running
    multiple Dispatcher instances, each independently serialized, against
    the same Pool", and the Pool "must guarantee that no two outstanding
    Connection Handles reference the same underlying connection".  This
    file models that system from the spec, on top of the dispatcher of
    Dispatcher.v, whose loop [dstep] each instance runs unchanged:

    - [ConnPool]: the pool's connections as identities: the free ones, and
      the lease of each dispatcher that holds a handle ([acquire()] takes a
      free connection, the drop of the handle gives it back);
    - [MState]: the dispatchers' states, the connections, and the pool
      counter and database that all of them share; [mstep] interleaves a
      step of any dispatcher's loop (which updates the shared pool and
      database seen by all: [broadcast]), its callers sending and
      cancelling, and the pool closing.

    The theorems: every reachable state keeps the connections exclusive
    (free and leased connections all distinct, each dispatcher leasing one
    exactly while it holds a handle, the counter equal to the leases); and
    each dispatcher's state is reachable in the single-dispatcher model of
    Dispatcher.v, whose environment steps (other users acquiring,
    releasing, writing) simulate the other dispatchers, so every theorem of
    that model holds of each of them. *)

From S2P Require Import Prelude BaseMapper Dispatcher.

(** ** The pool with connection identities *)

Record ConnPool := mkCP {
  cp_free : list nat;         (** idle connections *)
  cp_lease : gmap nat nat     (** dispatcher index -> the connection its handle holds *)
}.

(** The connections leased out. *)
Definition leased (cp : ConnPool) : list nat := (map_to_list (cp_lease cp)).*2.

(** [acquire()] for dispatcher [i]: the first free connection. *)
Definition cp_acquire (i : nat) (cp : ConnPool) : option ConnPool :=
  match cp_free cp with
  | c :: rest => Some (mkCP rest (<[i := c]> (cp_lease cp)))
  | [] => None
  end.

(** The drop of dispatcher [i]'s handle returns its connection. *)
Definition cp_release (i : nat) (cp : ConnPool) : option ConnPool :=
  match cp_lease cp !! i with
  | Some c => Some (mkCP (c :: cp_free cp) (delete i (cp_lease cp)))
  | None => None
  end.

(** What a step of a loop does to its handle, by the phases before and after. *)
Inductive Trans := TAcquire | TRelease | TNone.

Section Shared.
Context {I T Db : Type} `{!BaseMapper I T Db}.
Implicit Types (st : @DState I T Db).

Definition transition (ph ph' : @Phase I T) : Trans :=
  match ph, ph' with
  | Acquiring _, Holding _ => TAcquire
  | Holding _, Idle => TRelease
  | _, _ => TNone
  end.

Definition conn_effect (i : nat) (tr : Trans) (cp : ConnPool) : option ConnPool :=
  match tr with
  | TAcquire => cp_acquire i cp
  | TRelease => cp_release i cp
  | TNone => Some cp
  end.

Record MState := mkM {
  dispatchers : list (@DState I T Db);
  conns : ConnPool;
  mpool : Pool;       (** the pool's counter, as every dispatcher sees it *)
  mdb : Db            (** the database behind the pool *)
}.

(** A dispatcher's view after another one moved: the shared pool and
    database as they now are. *)
Definition share (p : Pool) (d : Db) st : DState := with_db (with_pool st p) d.

(** Dispatcher [i] is now [st'], and the others see its pool and database. *)
Definition broadcast (i : nat) st' (ds : list DState) : list DState :=
  imap (fun j st => if decide (j = i) then st' else share (pool st') (db st') st) ds.

Inductive mstep : MState -> MState -> Prop :=
| mstep_dispatch ms i st st' cp' :
    dispatchers ms !! i = Some st -> dstep st = Some st' ->
    conn_effect i (transition (phase st) (phase st')) (conns ms) = Some cp' ->
    mstep ms (mkM (broadcast i st' (dispatchers ms)) cp' (pool st') (db st'))
| mstep_timeout ms i st st' :
    dispatchers ms !! i = Some st -> dtimeout st = Some st' ->
    mstep ms (mkM (<[i := st']> (dispatchers ms)) (conns ms) (mpool ms) (mdb ms))
| mstep_send ms i st env :
    dispatchers ms !! i = Some st -> phase st <> Stopped -> inbox_open st = true ->
    envelope_resp env = next_chan st ->
    mstep ms (mkM (<[i := send_env st env]> (dispatchers ms)) (conns ms) (mpool ms) (mdb ms))
| mstep_cancel ms i st id :
    dispatchers ms !! i = Some st ->
    mstep ms (mkM (<[i := cancel id st]> (dispatchers ms)) (conns ms) (mpool ms) (mdb ms))
| mstep_close_inbox ms i st :
    dispatchers ms !! i = Some st ->
    mstep ms (mkM (<[i := close_inbox st]> (dispatchers ms)) (conns ms) (mpool ms) (mdb ms))
| mstep_close_pool ms :
    mstep ms (mkM ((fun st => with_pool st (pool_shutdown (mpool ms))) <$> dispatchers ms) (conns ms)
                  (pool_shutdown (mpool ms)) (mdb ms)).

(** [n] dispatchers over a database [d] and a pool of [size] connections,
    numbered [0 .. size-1]. *)
Definition minit (d : Db) (n size : nat) : MState :=
  mkM (replicate n (init d size)) (mkCP (seq 0 size) ∅) (mkPool size 0 false) d.

Definition mreachable (d : Db) (n size : nat) (ms : MState) : Prop := rtc mstep (minit d n size) ms.

(** ** The pool's promise *)

Definition is_holding (ph : @Phase I T) : bool := if ph is Holding _ then true else false.

Record minv (ms : MState) : Prop := {
  (** every dispatcher sees the shared pool and database *)
  minv_shared : Forall (fun st => pool st = mpool ms /\ db st = mdb ms) (dispatchers ms);
  (** no connection is both free and leased, or leased twice *)
  minv_exclusive : NoDup (cp_free (conns ms) ++ leased (conns ms));
  (** a dispatcher leases a connection exactly while it holds a handle *)
  minv_lease : forall i, is_Some (cp_lease (conns ms) !! i) <->
                 exists st, dispatchers ms !! i = Some st /\ is_holding (phase st) = true;
  (** the counter is the number of leases, the size the number of connections *)
  minv_out : pool_out (mpool ms) = size (cp_lease (conns ms));
  minv_size : pool_size (mpool ms) = length (cp_free (conns ms)) + size (cp_lease (conns ms))
}.

(** An executable scheduler: dispatcher [i] runs one loop step, if it can. *)
Definition mdispatch (i : nat) (ms : MState) : option MState :=
  st ← dispatchers ms !! i;
  st' ← dstep st;
  cp' ← conn_effect i (transition (phase st) (phase st')) (conns ms);
  Some (mkM (broadcast i st' (dispatchers ms)) cp' (pool st') (db st')).

(** A schedule of loop steps; a dispatcher that cannot move is skipped. *)
Fixpoint mrun (sched : list nat) (ms : MState) : MState :=
  match sched with
  | [] => ms
  | i :: rest => mrun rest (default ms (mdispatch i ms))
  end.

End Shared.

(** ** The scenario of spec section 8 with two dispatchers *)

Definition env_create_gh0 : BaseMapperEnum string (string * string) :=
  CreateData ("gh", "https://github.com")%string {| resp_id := 0 |}.

(** Two dispatchers over one pool of one connection, a [CreateData] queued
    at each. *)
Definition two_dispatchers : @MState string (string * string) (list (string * string)) :=
  mkM [send_env (init [] 1) env_create_rs; send_env (init [] 1) env_create_gh0]
      (mkCP [0] ∅) (mkPool 1 0 false) [].


(** ** What one step of a loop does to the shared resources *)

Section Steps.
Context {I T Db : Type} `{!BaseMapper I T Db}.
Implicit Types (st : @DState I T Db).

(** A loop step takes a connection from the pool when it goes from
    [Acquiring] to [Holding], gives it back from [Holding] to [Idle], and
    otherwise leaves the pool and the database alone. *)
Lemma dstep_trans st st' :
  dstep st = Some st' ->
  is_holding (phase st') =
    match transition (phase st) (phase st') with
    | TAcquire => true | TRelease => false | TNone => is_holding (phase st) end /\
  match transition (phase st) (phase st') with
  | TAcquire => pool_acquire (pool st) = Some (Ok (pool st')) /\ db st' = db st
  | TRelease => pool st' = pool_release (pool st)
  | TNone => pool st' = pool st /\ db st' = db st
  end.
Proof.
  unfold dstep. destruct (phase st) as [| env | env |] eqn:Hph.
  - destruct (inbox st) as [| env rest]; [destruct (inbox_open st); [discriminate |] |];
      intros [= <-]; cbn; auto.
  - destruct (pool_acquire (pool st)) as [[p | e] |] eqn:Ha; intros [= <-]; cbn; auto.
  - destruct (handle env (db st)) as [v d]. intros [= <-]. cbn. auto.
  - discriminate.
Qed.

Lemma dtimeout_frame st st' :
  dtimeout st = Some st' ->
  pool st' = pool st /\ db st' = db st /\ is_holding (phase st') = false /\ is_holding (phase st) = false.
Proof.
  unfold dtimeout. destruct (phase st) eqn:Hph; try discriminate.
  destruct (pool_acquire (pool st)) as [[] |]; [discriminate.. |]. intros [= <-]. cbn. auto.
Qed.

Lemma holding_is_holding (ph : @Phase I T) : holding ph = if is_holding ph then 1 else 0.
Proof. by destruct ph. Qed.

Lemma share_same st : share (pool st) (db st) st = st.
Proof. by destruct st. Qed.

Lemma broadcast_lookup i st' ds j :
  broadcast i st' ds !! j = (fun st => if decide (j = i) then st' else share (pool st') (db st') st) <$> ds !! j.
Proof. apply list_lookup_imap. Qed.

Lemma length_broadcast i st' ds : length (broadcast i st' ds) = length ds.
Proof. apply length_imap. Qed.

End Steps.


(** ** The connections stay exclusive *)

Lemma cp_acquire_spec i cp cp' :
  NoDup (cp_free cp ++ leased cp) -> cp_lease cp !! i = None -> cp_acquire i cp = Some cp' ->
  NoDup (cp_free cp' ++ leased cp') /\ size (cp_lease cp') = S (size (cp_lease cp)) /\
  S (length (cp_free cp')) = length (cp_free cp) /\ is_Some (cp_lease cp' !! i) /\
  (forall j, j <> i -> cp_lease cp' !! j = cp_lease cp !! j).
Proof.
  destruct cp as [free L]. unfold cp_acquire, leased; cbn.
  destruct free as [| c rest]; [discriminate |]. intros Hnd Hi [= <-]; cbn.
  split_and!.
  - rewrite map_to_list_insert by done. cbn. by rewrite <- Permutation_middle.
  - by rewrite map_size_insert_None.
  - done.
  - rewrite lookup_insert_eq. by eexists.
  - intros j Hj. by rewrite lookup_insert_ne.
Qed.

Lemma cp_release_spec i cp cp' :
  NoDup (cp_free cp ++ leased cp) -> cp_release i cp = Some cp' ->
  NoDup (cp_free cp' ++ leased cp') /\ S (size (cp_lease cp')) = size (cp_lease cp) /\
  length (cp_free cp') = S (length (cp_free cp)) /\ cp_lease cp' !! i = None /\
  (forall j, j <> i -> cp_lease cp' !! j = cp_lease cp !! j).
Proof.
  destruct cp as [free L]. unfold cp_release, leased; cbn.
  destruct (L !! i) as [c |] eqn:Hi; [intros Hnd [= <-]; cbn | discriminate].
  split_and!.
  - rewrite <- (map_to_list_delete L i c Hi) in Hnd. cbn in Hnd. by rewrite <- Permutation_middle in Hnd.
  - rewrite map_size_delete_Some by (by exists c).
    assert (size L <> 0) by (apply map_size_ne_0_lookup; exists i; by exists c). lia.
  - done.
  - apply lookup_delete_eq.
  - intros j Hj. by rewrite lookup_delete_ne.
Qed.

Section Invariant.
Context {I T Db : Type} `{!BaseMapper I T Db}.
Implicit Types (st : @DState I T Db) (ms : @MState I T Db).

Lemma minv_init (d : Db) n cap : minv (@minit I T Db d n cap).
Proof.
  constructor; cbn.
  - by apply Forall_replicate.
  - rewrite app_nil_r. apply NoDup_seq.
  - intros i. rewrite lookup_empty. split; [by intros [] |].
    intros (st & [-> _]%lookup_replicate & Hh). discriminate.
  - done.
  - rewrite length_seq, map_size_empty. lia.
Qed.

Lemma trans_holding (ph ph' : @Phase I T) :
  match transition ph ph' with
  | TAcquire => is_holding ph = false
  | TRelease => is_holding ph = true
  | TNone => True
  end.
Proof. by destruct ph, ph'. Qed.

(** A step of dispatcher [i] that leaves the other leases alone keeps
    the leases matched with the holders. *)
Lemma lease_broadcast (L L' : gmap nat nat) ds i st st' :
  (forall k, is_Some (L !! k) <-> exists st0, ds !! k = Some st0 /\ is_holding (phase st0) = true) ->
  ds !! i = Some st -> (forall k, k <> i -> L' !! k = L !! k) ->
  (is_Some (L' !! i) <-> is_holding (phase st') = true) ->
  forall k, is_Some (L' !! k) <->
    exists st0, broadcast i st' ds !! k = Some st0 /\ is_holding (phase st0) = true.
Proof.
  intros Hl Hi Hoth Hii k. rewrite broadcast_lookup.
  destruct (decide (k = i)) as [-> | Hne].
  - rewrite Hi, Hii. cbn. repeat case_decide; naive_solver.
  - rewrite Hoth, Hl by done. destruct (ds !! k) as [st0 |]; cbn; repeat case_decide; naive_solver.
Qed.

(** Steps of one dispatcher that touch neither its handle nor the pool. *)
Lemma minv_update ms i st st' :
  minv ms -> dispatchers ms !! i = Some st ->
  pool st' = pool st -> db st' = db st -> is_holding (phase st') = is_holding (phase st) ->
  minv (mkM (<[i := st']> (dispatchers ms)) (conns ms) (mpool ms) (mdb ms)).
Proof.
  intros [Hsh Hex Hl Hout Hsz] Hi Hp Hd Hh. constructor; cbn; try done.
  - apply Forall_insert; [done |]. rewrite Hp, Hd. exact (Forall_lookup_1 _ _ _ _ Hsh Hi).
  - intros k. rewrite Hl. destruct (decide (i = k)) as [<- | Hne].
    + rewrite list_lookup_insert_eq, Hi by (eapply lookup_lt_Some; eauto). naive_solver.
    + by rewrite list_lookup_insert_ne.
Qed.

Lemma minv_close_pool ms :
  minv ms ->
  minv (mkM ((fun st => with_pool st (pool_shutdown (mpool ms))) <$> dispatchers ms) (conns ms)
            (pool_shutdown (mpool ms)) (mdb ms)).
Proof.
  intros [Hsh Hex Hl Hout Hsz]. constructor; cbn; try done.
  - apply Forall_fmap. eapply Forall_impl; [exact Hsh |]. intros st [_ Hd]. by cbn.
  - intros k. rewrite Hl, list_lookup_fmap. destruct (dispatchers ms !! k); cbn; naive_solver.
Qed.

Lemma minv_dispatch ms i st st' cp' :
  minv ms -> dispatchers ms !! i = Some st -> dstep st = Some st' ->
  conn_effect i (transition (phase st) (phase st')) (conns ms) = Some cp' ->
  minv (mkM (broadcast i st' (dispatchers ms)) cp' (pool st') (db st')).
Proof.
  intros [Hsh Hex Hl Hout Hsz] Hi Hd Hc.
  destruct (Forall_lookup_1 _ _ _ _ Hsh Hi) as [Hp Hdb].
  pose proof (dstep_trans _ _ Hd) as [Hh Htr]. pose proof (trans_holding (phase st) (phase st')) as Hth.
  assert (Hshare : Forall (fun st0 => pool st0 = pool st' /\ db st0 = db st') (broadcast i st' (dispatchers ms))).
  { apply Forall_lookup. intros k x. rewrite broadcast_lookup.
    destruct (dispatchers ms !! k); [cbn | done]. intros [= <-]. by case_decide. }
  destruct (transition (phase st) (phase st')); cbn in Hc.
  - destruct Htr as [Hacq Hdb']. apply pool_acquire_Ok in Hacq as (_ & Hout' & Hsz').
    assert (HNone : cp_lease (conns ms) !! i = None).
    { destruct (cp_lease (conns ms) !! i) eqn:E; [| done]. exfalso.
      destruct (proj1 (Hl i) (mk_is_Some _ _ E)) as (st0 & Hst0 & Hh0). congruence. }
    destruct (cp_acquire_spec _ _ _ Hex HNone Hc) as (Hex' & Hs' & Hf' & Hi' & Hoth).
    constructor; cbn; try done.
    + eapply lease_broadcast; [exact Hl | exact Hi | exact Hoth |]. rewrite Hh. naive_solver.
    + rewrite Hout', Hp, Hout. lia.
    + rewrite Hsz', Hp, Hsz. lia.
  - destruct (cp_release_spec _ _ _ Hex Hc) as (Hex' & Hs' & Hf' & Hi' & Hoth).
    constructor; cbn; try done.
    + eapply lease_broadcast; [exact Hl | exact Hi | exact Hoth |]. rewrite Hh, Hi'. naive_solver.
    + rewrite Htr, Hp. cbn. rewrite Hout. lia.
    + rewrite Htr, Hp. cbn. rewrite Hsz. lia.
  - injection Hc as <-. destruct Htr as [Hp' Hdb']. constructor; cbn; try done.
    + eapply lease_broadcast; [exact Hl | exact Hi | done |]. rewrite Hh, Hl. naive_solver.
    + by rewrite Hp', Hp.
    + by rewrite Hp', Hp.
Qed.

Lemma minv_mstep ms ms' : minv ms -> mstep ms ms' -> minv ms'.
Proof.
  intros Hinv Hs.
  destruct Hs as [ms i st st' cp' Hi Hd Hc | ms i st st' Hi Ht | ms i st env Hi _ _ _ | ms i st id Hi
                 | ms i st Hi | ms].
  - by eapply minv_dispatch.
  - destruct (dtimeout_frame _ _ Ht) as (? & ? & ? & ?). eapply minv_update; eauto; congruence.
  - by eapply minv_update.
  - by eapply minv_update.
  - by eapply minv_update.
  - by apply minv_close_pool.
Qed.

Lemma minv_reachable (d : Db) n cap ms : mreachable d n cap ms -> minv ms.
Proof.
  intros Hr. apply (rtc_ind_r (R := mstep) minv (minit d n cap)); [apply minv_init | | exact Hr].
  intros y z _ Hyz IH. by eapply minv_mstep.
Qed.

(** ** Each dispatcher runs as the single-dispatcher model says *)

Lemma lease_two (L : gmap nat nat) i j :
  i <> j -> is_Some (L !! i) -> is_Some (L !! j) -> 2 <= size L.
Proof.
  intros Hne Hi Hj. pose proof (map_size_delete_Some (M := gmap nat) i L Hi) as Hd.
  assert (size (delete i L) <> 0).
  { apply map_size_ne_0_lookup. exists j. by rewrite lookup_delete_ne. }
  assert (size L <> 0) by (apply map_size_ne_0_lookup; by exists i). lia.
Qed.

(** Another dispatcher's step is, for dispatcher [j], what the model of
    Dispatcher.v lets other users of the pool do: acquire, release, write. *)
Lemma view_other ms i j st st' stj :
  minv ms -> dispatchers ms !! i = Some st -> dstep st = Some st' -> i <> j ->
  dispatchers ms !! j = Some stj -> rtc sys_step stj (share (pool st') (db st') stj).
Proof.
  intros [Hsh Hex Hl Hout Hsz] Hi Hd Hne Hj.
  destruct (Forall_lookup_1 _ _ _ _ Hsh Hi) as [Hp Hdb]. destruct (Forall_lookup_1 _ _ _ _ Hsh Hj) as [Hpj Hdbj].
  pose proof (dstep_trans _ _ Hd) as [_ Htr]. pose proof (trans_holding (phase st) (phase st')) as Hth.
  unfold share. destruct (transition (phase st) (phase st')).
  - destruct Htr as [Hacq _]. eapply rtc_l; [apply step_other_acquire; by rewrite Hpj, <- Hp |].
    apply rtc_once, step_other_write.
  - eapply rtc_l; [| apply rtc_once, step_other_write]. rewrite Htr, Hp, <- Hpj.
    apply step_other_release. rewrite holding_is_holding, Hpj, Hout.
    assert (Hli : is_Some (cp_lease (conns ms) !! i)) by (apply Hl; eauto).
    destruct (is_holding (phase stj)) eqn:Hhj.
    + assert (is_Some (cp_lease (conns ms) !! j)) by (apply Hl; eauto).
      pose proof (lease_two _ _ _ Hne Hli H). lia.
    + assert (size (cp_lease (conns ms)) <> 0) by (apply map_size_ne_0_lookup; by exists i). lia.
  - destruct Htr as [-> ->]. rewrite Hp, Hdb, <- Hpj, <- Hdbj. fold (share (pool stj) (db stj) stj).
    rewrite share_same. apply rtc_refl.
Qed.

Lemma view_insert (ds : list (@DState I T Db)) i st x :
  ds !! i = Some st -> sys_step st x ->
  forall j st', <[i := x]> ds !! j = Some st' -> exists st0, ds !! j = Some st0 /\ rtc sys_step st0 st'.
Proof.
  intros Hi Hs j st' Hj. apply list_lookup_insert_Some in Hj as [(<- & <- & _) | (_ & Hj)].
  - exists st. split; [done | by apply rtc_once].
  - exists st'. split; [done | apply rtc_refl].
Qed.

(** The simulation: a step of the system moves every dispatcher by steps
    of the single-dispatcher model. *)
Lemma mstep_view ms ms' :
  minv ms -> mstep ms ms' ->
  forall j st', dispatchers ms' !! j = Some st' -> exists st, dispatchers ms !! j = Some st /\ rtc sys_step st st'.
Proof.
  intros Hinv Hs.
  destruct Hs as [ms i st st' cp' Hi Hd Hc | ms i st st' Hi Ht | ms i st env Hi Hph Hop Hid | ms i st id Hi
                 | ms i st Hi | ms]; cbn.
  - intros j stj'. rewrite broadcast_lookup.
    destruct (dispatchers ms !! j) as [stj |] eqn:Hj; [cbn | done]. intros [= <-].
    exists stj. split; [done |]. case_decide as Hji.
    + subst j. rewrite Hi in Hj. injection Hj as <-. by apply rtc_once, step_dispatch.
    + apply (view_other ms i j st st' stj Hinv Hi Hd); [congruence | exact Hj].
  - apply (view_insert _ i st); [done | by apply step_timeout].
  - apply (view_insert _ i st); [done | by apply step_send].
  - apply (view_insert _ i st); [done | apply step_cancel].
  - apply (view_insert _ i st); [done | apply step_close_inbox].
  - intros j stj'. rewrite list_lookup_fmap. destruct (dispatchers ms !! j) as [stj |] eqn:Hj; [cbn | done].
    intros [= <-]. exists stj. split; [done |].
    destruct (Forall_lookup_1 _ _ _ _ (minv_shared _ Hinv) Hj) as [<- _]. apply rtc_once, step_close_pool.
Qed.

Lemma mreachable_view (d : Db) n cap ms :
  mreachable d n cap ms -> forall j st, dispatchers ms !! j = Some st -> reachable d cap st.
Proof.
  intros Hr. apply (rtc_ind_r (R := mstep)
    (fun ms => minv ms /\ forall j st, dispatchers ms !! j = Some st -> reachable d cap st) (minit d n cap));
    [| | exact Hr].
  - split; [apply minv_init |]. intros j st [-> _]%lookup_replicate. apply rtc_refl.
  - intros y z _ Hyz [Hinv IH]. split; [by eapply minv_mstep |].
    intros j st Hj. destruct (mstep_view _ _ Hinv Hyz _ _ Hj) as (st0 & Hj0 & Hs).
    eapply rtc_trans; [exact (IH _ _ Hj0) | exact Hs].
Qed.

(** The executable scheduler takes steps of the system. *)
Lemma mdispatch_step i ms ms' : mdispatch i ms = Some ms' -> mstep ms ms'.
Proof.
  unfold mdispatch. destruct (dispatchers ms !! i) as [st |] eqn:Hi; [cbn | done].
  destruct (dstep st) as [st' |] eqn:Hd; [cbn | done].
  destruct (conn_effect _ _ _) as [cp' |] eqn:Hc; [cbn | done]. intros [= <-].
  by eapply mstep_dispatch.
Qed.

Lemma mrun_reachable (d : Db) n cap sched ms :
  mreachable d n cap ms -> mreachable d n cap (mrun sched ms).
Proof.
  revert ms. induction sched as [| i rest IH]; intros ms Hr; [done |]. cbn. apply IH.
  destruct (mdispatch i ms) as [ms' |] eqn:E; [cbn | done].
  eapply rtc_r; [exact Hr | exact (mdispatch_step i ms ms' E)].
Qed.

(** C6: with any number of dispatchers sharing one pool, in every state
    reachable by any interleaving of their loops, their callers and the
    pool closing, the pool's promise holds: every dispatcher sees the same
    pool and database; no connection is both free and leased, nor leased
    to two dispatchers; a dispatcher leases a connection exactly while it
    holds a handle; and the pool's counter is the number of leases. *)
Theorem shared_pool_exclusive (d : Db) n cap ms : mreachable d n cap ms -> minv ms.
Proof. apply minv_reachable. Qed.

(** C7: running beside other dispatchers refines running alone: the state
    of each dispatcher of the system is reachable in the single-dispatcher
    model of Dispatcher.v, whose environment steps stand for the others,
    so it satisfies the dispatcher invariant (FIFO replies, each slot
    resolved once, connections within the pool). *)
Theorem shared_pool_refines (d : Db) n cap ms j st :
  mreachable d n cap ms -> dispatchers ms !! j = Some st -> reachable d cap st /\ dinv st.
Proof.
  intros Hr Hj. pose proof (mreachable_view d n cap ms Hr j st Hj) as Hv.
  split; [exact Hv | exact (dinv_reachable d cap st Hv)].
Qed.
End Invariant.

(** ** The scenario *)

Lemma two_dispatchers_reachable : mreachable [] 2 1 two_dispatchers.
Proof.
  eapply rtc_l; [eapply (mstep_send _ 0 (init [] 1) env_create_rs); reflexivity || discriminate |].
  eapply rtc_l; [eapply (mstep_send _ 1 (init [] 1) env_create_gh0); reflexivity || discriminate |].
  apply rtc_refl.
Qed.

(** The scenario of spec section 8 across two dispatchers: dispatcher 0
    takes the only connection; dispatcher 1, holding a [CreateData] too,
    cannot acquire one until it is released; then both entities are
    persisted and each caller answered. *)
Example two_dispatchers_serialised :
  mdispatch 1 (mrun [0; 0; 1] two_dispatchers) = None /\
  mdb (mrun [0; 0; 1; 0; 1; 1] two_dispatchers) =
    [("rs", "https://www.rust-lang.org"); ("gh", "https://github.com")]%string /\
  (answered <$> dispatchers (mrun [0; 0; 1; 0; 1; 1] two_dispatchers)) = [[0]; [0]].
Proof. vm_compute. repeat split. Qed.

(** ** Witnesses *)

Lemma shared_pool_exclusive_witness :
  mreachable [] 2 1 (mrun [0; 0; 1] two_dispatchers) /\ minv (mrun [0; 0; 1] two_dispatchers).
Proof.
  assert (Hr : mreachable [] 2 1 (mrun [0; 0; 1] two_dispatchers))
    by (apply mrun_reachable, two_dispatchers_reachable).
  split; [exact Hr | exact (shared_pool_exclusive [] 2 1 _ Hr)].
Defined.

Lemma shared_pool_refines_witness :
  mreachable [] 2 1 (mrun [0; 0; 1] two_dispatchers) /\
  exists st, dispatchers (mrun [0; 0; 1] two_dispatchers) !! 1 = Some st /\ reachable [] 1 st /\ dinv st.
Proof.
  assert (Hr : mreachable [] 2 1 (mrun [0; 0; 1] two_dispatchers))
    by (apply mrun_reachable, two_dispatchers_reachable).
  split; [exact Hr |].
  set (st := default (init [] 1) (dispatchers (mrun [0; 0; 1] two_dispatchers) !! 1)).
  assert (Hj : dispatchers (mrun [0; 0; 1] two_dispatchers) !! 1 = Some st) by (vm_compute; reflexivity).
  exists st. split; [exact Hj | exact (shared_pool_refines [] 2 1 _ 1 st Hr Hj)].
Defined.
