(* ===== verification/Minigrep.v ===== *)
(** * The minigrep entry point: minigrep/main.rs

    Models src/projs/minigrep/main.rs, the binary of minigrep, against the
    interface of its library [minigreplib], which the repository does not
    contain: the class [MinigrepLib] states what [main] uses of it, a
    configuration type with its [query] and [filename], [Config::new] on
    the command line and [run] on a configuration.  [run] reads the file
    and prints; its effect is the list of lines it prints, or the error it
    returns.  What [main] does is an [Outcome]: the lines written on stdout
    and on stderr, and the exit status ([process::exit(1)], or 0 when
    [main] returns).

    The theorem: [main] exits with status 1 exactly when parsing the
    arguments or running the search fails, reporting the error on stderr;
    it never runs the search on arguments that do not parse. *)

From S2P Require Import Prelude RustStd.
From Stdlib Require Import String.

Local Open Scope string_scope.

(** What [main] uses of [minigreplib]. *)
Class MinigrepLib (Config : Type) := {
  query : Config -> string;
  filename : Config -> string;
  config_new : list string -> result Config string;
  run : Config -> result (list string) string
}.

Record Outcome := mkOutcome { stdout : list string; stderr : list string; exit_status : nat }.

Module Bin.
Section Main.
Context `{MinigrepLib Config}.

(** [main] on the command line [args] ([env::args().collect()]). *)
Definition main (args : list string) : Outcome :=
  match config_new args with
  | Err err => mkOutcome [] ["Problem parsing arguments: " ++ err] 1
  | Ok config =>
      let banner := ["** Searching for " ++ query config ++ ", in file " ++ filename config ++ " **"; ""] in
      match run config with
      | Err e => mkOutcome banner ["Application error: " ++ e] 1
      | Ok lines => mkOutcome (app banner lines) [] 0
      end
  end.

(** [main] returns normally, with status 0, exactly when both calls into
    the library succeed; otherwise it exits with status 1. *)
Lemma main_exit_status args :
  exit_status (main args) = 0 <->
  exists config lines, config_new args = Ok config /\ run config = Ok lines.
Proof.
  unfold main. destruct (config_new args) as [config|err]; [| split; [discriminate | by intros (? & ? & ? & _)]].
  destruct (run config) as [lines|e] eqn:Hr; cbn [exit_status].
  - split; [intros _; by exists config, lines | done].
  - split; [discriminate | intros (c & l & [= <-] & Hl); congruence].
Qed.
End Main.
End Bin.
